(** * DistrictBuilder [setup] management command: a shallow embedding

    The development follows
    [django/publicmapping/redistricting/management/commands/setup.py]:
    the decimal quantisation of characteristics, the hierarchy
    reconciliation of [import_prereq], the feature loop of [import_shape],
    the alias handling of [import_geolevel], the driver [handle] and the
    REST sequence of [configure_geoserver].  The command is followed with
    [verbose] off: what it prints only then is left out. *)

From Stdlib Require Import List String Ascii ZArith NArith QArith Qminmax.
From Stdlib Require Import Bool Lia PeanoNat DecimalString Permutation.
Import ListNotations.
Local Open Scope string_scope.
Local Open Scope Z_scope.

(** ** Python exceptions met by the command *)

Inductive model : Type :=
| MLegislativeBody | MSubject | MTarget | MGeolevel
| MLegislativeLevel | MLegislativeDefaults | MUser | MGeounit | MCharacteristic.

Inductive exn : Type :=
| InvalidOperation                      (* decimal.InvalidOperation *)
| DoesNotExist (m : model)              (* Model.DoesNotExist *)
| MultipleObjectsReturned (m : model)   (* Model.MultipleObjectsReturned *)
| IndexError                            (* [0] on an empty sequence *)
| ValueError
| TypeError
| UnboundLocalError
| AttributeError
| GEOSException
| OGRException
| DatabaseError.

Inductive result (A : Type) : Type :=
| Ok (a : A)
| Raise (e : exn).
Arguments Ok {A} a.
Arguments Raise {A} e.

Definition is_ok {A} (r : result A) : bool :=
  match r with Ok _ => true | Raise _ => false end.

(** ** Python's [decimal] numbers, as far as [import_shape] uses them *)

Module PyDecimal.

(** Rounding modes named in the source and in the default context. *)
Inductive rounding : Type := ROUND_DOWN | ROUND_HALF_EVEN.

(** [decimal.Decimal]: sign, coefficient and exponent, or a special value;
    a NaN, quiet or signalling, has a sign and diagnostic digits. *)
Inductive t : Type :=
| Finite (sign : bool) (coeff : N) (exp : Z)
| Infinity (sign : bool)
| NaN (sign : bool) (diag : N)
| sNaN (sign : bool) (diag : N).

(** The default context: [prec=28], [rounding=ROUND_HALF_EVEN],
    [Emin=-999999999], [Emax=999999999]. *)
Record context : Type := mkContext {
  prec : Z; ctx_rounding : rounding; Emin : Z; Emax : Z }.

Definition DefaultContext : context :=
  mkContext 28 ROUND_HALF_EVEN (-999999999) 999999999.

Definition Etiny (c : context) : Z := Emin c - prec c + 1.

(** [len(self._int)]: the number of decimal digits of the coefficient. *)
Definition ndigits (n : N) : Z :=
  Z.of_nat (Init.Decimal.nb_digits (N.to_uint n)).

Definition adjusted (coeff : N) (exp : Z) : Z := exp + ndigits coeff - 1.

(** *** Parsing, after [Decimal.__new__] on a string *)

Definition is_space (c : ascii) : bool :=
  let n := nat_of_ascii c in
  (Nat.eqb n 32 || (Nat.leb 9 n && Nat.leb n 13))%bool.

Definition is_digit (c : ascii) : bool :=
  let n := nat_of_ascii c in (Nat.leb 48 n && Nat.leb n 57)%bool.

Definition digit_val (c : ascii) : N := N.of_nat (nat_of_ascii c - 48).

Definition lower (c : ascii) : ascii :=
  let n := nat_of_ascii c in
  if (Nat.leb 65 n && Nat.leb n 90)%bool then ascii_of_nat (n + 32) else c.

Fixpoint lstrip (l : list ascii) : list ascii :=
  match l with
  | c :: r => if is_space c then lstrip r else l
  | [] => []
  end.

Definition strip (l : list ascii) : list ascii :=
  rev (lstrip (rev (lstrip l))).

(** Longest prefix of digits, and what follows it. *)
Fixpoint span_digits (l : list ascii) : list ascii * list ascii :=
  match l with
  | c :: r =>
      if is_digit c then let (d, rest) := span_digits r in (c :: d, rest)
      else ([], l)
  | [] => ([], [])
  end.

Definition digits_to_N (l : list ascii) : N :=
  fold_left (fun acc c => (acc * 10 + digit_val c)%N) l 0%N.

Definition split_sign (l : list ascii) : bool * list ascii :=
  match l with
  | "-"%char :: r => (true, r)
  | "+"%char :: r => (false, r)
  | _ => (false, l)
  end.

(** The exponent part: empty, or [e]/[E], an optional sign and digits. *)
Definition parse_exponent (l : list ascii) : option Z :=
  match l with
  | [] => Some 0
  | c :: r =>
      if Ascii.eqb (lower c) "e"%char then
        let (neg, r') := split_sign r in
        let (d, rest) := span_digits r' in
        match d, rest with
        | _ :: _, [] =>
            let v := Z.of_N (digits_to_N d) in Some (if neg then - v else v)
        | _, _ => None
        end
      else None
  end.

Definition lowered (l : list ascii) : string :=
  string_of_list_ascii (map lower l).

(** [NaN] or [sNaN], in any case, and its diagnostic digits, which may be
    none: whether it signals, and the digits. *)
Definition parse_nan (l : list ascii) : option (bool * N) :=
  let diag (r : list ascii) (signal : bool) :=
    match span_digits r with
    | (d, []) => Some (signal, digits_to_N d)
    | _ => None
    end in
  match map lower l with
  | "n"%char :: "a"%char :: "n"%char :: r => diag r false
  | "s"%char :: "n"%char :: "a"%char :: "n"%char :: r => diag r true
  | _ => None
  end.

(** [Decimal(value, context)]: for a string that parses the [context]
    argument is not consulted; a string that does not parse raises
    [InvalidOperation] (the default context traps it). *)
Definition of_string (value : string) (context_arg : option string) : result t :=
  let (sign, body) := split_sign (strip (list_ascii_of_string value)) in
  let low := lowered body in
  if (String.eqb low "inf" || String.eqb low "infinity")%bool then Ok (Infinity sign)
  else
  match parse_nan body with
  | Some (false, diag) => Ok (NaN sign diag)
  | Some (true, diag) => Ok (sNaN sign diag)
  | None =>
    let (ip, r1) := span_digits body in
    let (fp, r2) :=
      match r1 with
      | "."%char :: r => span_digits r
      | _ => ([], r1)
      end in
    match (ip ++ fp)%list, parse_exponent r2 with
    | _ :: _, Some e =>
        Ok (Finite sign (digits_to_N (ip ++ fp)%list) (e - Z.of_nat (List.length fp)))
    | _, _ => Raise InvalidOperation
    end
  end.

(** *** [Decimal._rescale] and [Decimal.quantize] *)

Definition round_coeff (r : rounding) (coeff : N) (k : Z) : N :=
  let p := (10 ^ Z.to_N k)%N in
  let q := (coeff / p)%N in
  let m := (coeff mod p)%N in
  match r with
  | ROUND_DOWN => q
  | ROUND_HALF_EVEN =>
      match (2 * m ?= p)%N with
      | Gt => (q + 1)%N
      | Eq => if N.odd q then (q + 1)%N else q
      | Lt => q
      end
  end.

Definition rescale (r : rounding) (coeff : N) (exp new_exp : Z) : N :=
  if new_exp <=? exp then (coeff * 10 ^ Z.to_N (exp - new_exp))%N
  else round_coeff r coeff (new_exp - exp).

(** [Decimal._fix_nan]: diagnostic digits beyond the precision are cut
    off at the front. *)
Definition fix_nan (ctx : context) (sign : bool) (diag : N) : t :=
  if prec ctx <? ndigits diag then NaN sign (diag mod 10 ^ Z.to_N (prec ctx))%N
  else NaN sign diag.

(** [self.quantize(exp, rounding=None, context=None)]: with no rounding
    given, the rounding of the current context is used.  A signalling NaN
    raises [InvalidOperation], a quiet one is handed on. *)
Definition quantize (self exp : t) (rounding_arg : option rounding)
                    (ctx : context) : result t :=
  let r := match rounding_arg with Some r => r | None => ctx_rounding ctx end in
  match self, exp with
  | sNaN _ _, _ => Raise InvalidOperation
  | _, sNaN _ _ => Raise InvalidOperation
  | NaN s d, _ => Ok (fix_nan ctx s d)
  | _, NaN s d => Ok (fix_nan ctx s d)
  | Infinity s, Infinity _ => Ok (Infinity s)
  | Infinity _, Finite _ _ _ => Raise InvalidOperation
  | Finite _ _ _, Infinity _ => Raise InvalidOperation
  | Finite s c e, Finite _ _ e' =>
      if negb ((Etiny ctx <=? e') && (e' <=? Emax ctx)) then Raise InvalidOperation
      else if (c =? 0)%N then Ok (Finite s 0 e')
      else if Emax ctx <? adjusted c e then Raise InvalidOperation
      else if prec ctx <? adjusted c e - e' + 1 then Raise InvalidOperation
      else
        let c' := rescale r c e e' in
        if Emax ctx <? adjusted c' e' then Raise InvalidOperation
        else if prec ctx <? ndigits c' then Raise InvalidOperation
        else Ok (Finite s c' e')
  end.

End PyDecimal.

(** The value computed on line 720 of [import_shape]:
    [Decimal(str(feat.get(attr))).quantize(Decimal('000000.0000', 'ROUND_DOWN'))].
    The string ['ROUND_DOWN'] is the second argument of the [Decimal]
    constructor, its [context]; [quantize] itself gets no rounding. *)
Definition characteristic_value (raw : string) : result PyDecimal.t :=
  match PyDecimal.of_string raw None with
  | Raise e => Raise e
  | Ok v =>
      match PyDecimal.of_string "000000.0000" (Some "ROUND_DOWN") with
      | Raise e => Raise e
      | Ok q => PyDecimal.quantize v q None PyDecimal.DefaultContext
      end
  end.

(** What truncation toward zero at four fractional digits would give. *)
Definition truncated_value (raw : string) : result PyDecimal.t :=
  match PyDecimal.of_string raw None with
  | Raise e => Raise e
  | Ok v =>
      PyDecimal.quantize v (PyDecimal.Finite false 0 (-4))
        (Some PyDecimal.ROUND_DOWN) PyDecimal.DefaultContext
  end.


(** ** The configuration document

    [config] is the parsed, schema-validated XML tree.  Elements are kept
    with their attribute lists; [get] is lxml's [Element.get], which gives
    [None] for an absent attribute. *)

Definition attrs : Type := list (string * string).

Fixpoint get (a : attrs) (k : string) : option string :=
  match a with
  | [] => None
  | (k', v) :: r => if String.eqb k' k then Some v else get r k
  end.

Definition has_attr (a : attrs) (k : string) : bool :=
  match get a k with Some _ => true | None => false end.

(** ['%s' % v], where [v] may be [None]. *)
Definition fmt_s (v : option string) : string :=
  match v with Some s => s | None => "None" end.

(** The predicate [[@id="x"]] of the XPath queries. *)
Definition id_is (x : string) (a : attrs) : bool :=
  match get a "id" with Some i => String.eqb i x | None => false end.

(** [GeoLevel/LegislativeBodies/LegislativeBody]: a reference to a body,
    its [LegislativeTargets/LegislativeTarget] and its [Parent] children. *)
Record LBodyRef : Type := mkLBodyRef {
  lbr_attrib : attrs;
  lbr_targets : list attrs;
  lbr_parents : list attrs }.

Record GeoLevelNode : Type := mkGeoLevelNode {
  gl_attrib : attrs;
  gl_bodies : list LBodyRef }.

(** The [Subject] elements.  [import_geolevel] re-parents them with
    [sconfig.append(salconfig)], so they are kept by identity: node [i] is
    [nth i sf_nodes], with its [Subject] children, and [sf_top] lists the
    elements directly under [Subjects]; both in document order. *)
Record SubjectNode : Type := mkSubjectNode {
  sn_attrib : attrs;
  sn_kids : list nat }.

Record SubjectForest : Type := mkSubjectForest {
  sf_nodes : list SubjectNode;
  sf_top : list nat }.

Record Config : Type := mkConfig {
  cfg_bodies : list attrs;           (* LegislativeBody definitions *)
  cfg_subjects : SubjectForest;
  cfg_targets : list attrs;          (* Targets/Target *)
  cfg_geolevels : list GeoLevelNode; (* GeoLevels/GeoLevel *)
  cfg_mapserver : list attrs;        (* //MapServer *)
  cfg_database : list attrs          (* //Database *) }.

Definition node_attrib (f : SubjectForest) (i : nat) : attrs :=
  sn_attrib (nth i (sf_nodes f) (mkSubjectNode [] [])).

Definition node_kids (f : SubjectForest) (i : nat) : list nat :=
  sn_kids (nth i (sf_nodes f) (mkSubjectNode [] [])).

(** Document order of the [Subject] elements: a pre-order walk. *)
Fixpoint preorder (fuel : nat) (f : SubjectForest) (roots : list nat) : list nat :=
  match fuel with
  | O => []
  | S k => flat_map (fun r => r :: preorder k f (node_kids f r)) roots
  end.

Definition subject_elements (f : SubjectForest) : list nat :=
  preorder (S (List.length (sf_nodes f))) f (sf_top f).

(** [config.xpath('//Subject[@id]')] and [config.xpath('//Subject[@id="x"]')]. *)
Definition xpath_subjects_with_id (c : Config) : list nat :=
  filter (fun i => has_attr (node_attrib (cfg_subjects c) i) "id")
         (subject_elements (cfg_subjects c)).

Definition xpath_subject (c : Config) (x : string) : list nat :=
  filter (fun i => id_is x (node_attrib (cfg_subjects c) i))
         (subject_elements (cfg_subjects c)).

Definition subject_attrib (c : Config) (i : nat) : attrs :=
  node_attrib (cfg_subjects c) i.

(** [config.xpath('//LegislativeBody[@id]')] and the like. *)
Definition xpath_bodies_with_id (c : Config) : list attrs :=
  filter (fun a => has_attr a "id") (cfg_bodies c).

Definition xpath_body (c : Config) (x : string) : list attrs :=
  filter (id_is x) (cfg_bodies c).

Definition xpath_target (c : Config) (x : string) : list attrs :=
  filter (id_is x) (cfg_targets c).

Definition xpath_geolevel (c : Config) (x : string) : list attrs :=
  filter (fun a => id_is x a) (map gl_attrib (cfg_geolevels c)).

(** [seq[0]] *)
Definition index0 {A} (l : list A) : result A :=
  match l with x :: _ => Ok x | [] => Raise IndexError end.

(** ** Geometries and shapefile features

    GEOS geometries by kind, with rational coordinates.  The constructors,
    indexing and bounding box are computed; the GEOS algorithms
    ([simplify], [centroid], [within], [intersection]) are taken as given
    in the section on [import_shape]. *)

Definition coord : Type := (Q * Q)%type.
Definition ring : Type := list coord.
Definition polygon : Type := list ring.

Inductive geometry : Type :=
| Point (p : option coord)
| MultiPoint (ps : list coord)
| LineString (ps : list coord)
| MultiLineString (ls : list (list coord))
| Polygon (p : polygon)
| MultiPolygon (ps : list polygon)
| GeometryCollection (lines : list (list coord)) (points : list coord).

Inductive geom_kind : Type :=
| KPoint | KMultiPoint | KLineString | KMultiLineString
| KPolygon | KMultiPolygon | KGeometryCollection.

Definition geom_type (g : geometry) : geom_kind :=
  match g with
  | Point _ => KPoint
  | MultiPoint _ => KMultiPoint
  | LineString _ => KLineString
  | MultiLineString _ => KMultiLineString
  | Polygon _ => KPolygon
  | MultiPolygon _ => KMultiPolygon
  | GeometryCollection _ _ => KGeometryCollection
  end.

Definition geom_kind_eqb (a b : geom_kind) : bool :=
  match a, b with
  | KPoint, KPoint | KMultiPoint, KMultiPoint | KLineString, KLineString
  | KMultiLineString, KMultiLineString | KPolygon, KPolygon
  | KMultiPolygon, KMultiPolygon | KGeometryCollection, KGeometryCollection => true
  | _, _ => false
  end.

(** An OGR field value, as [Feature.get] returns it. *)
Inductive field_value : Type :=
| OFTInteger (z : Z)
| OFTReal (repr : string)     (* a float, by the text [str] gives for it *)
| OFTString (s : string).

Record Feature : Type := mkFeature {
  fid : Z;
  feat_geom : result geometry;            (* [feat.geom.geos] *)
  feat_fields : list (string * field_value) }.

(** ** The database

    One list per model, in insertion order; the primary key of a row is its
    position.  Column values are kept as the command passes them (attribute
    text or [None]); the column types and constraints of
    [redistricting.models] are not part of these sources. *)

Record LegislativeBody : Type := mkLegislativeBody {
  lb_name : option string; lb_member : option string;
  lb_max_districts : option string }.

Record Subject : Type := mkSubject {
  su_name : option string; su_display : option string;
  su_short_display : option string; su_is_displayed : bool;
  su_sort_key : option string }.

Record Target : Type := mkTarget {
  ta_subject : nat; ta_value : option string;
  ta_range1 : option string; ta_range2 : option string }.

Record Geolevel : Type := mkGeolevel {
  ge_name : option string; ge_min_zoom : option string;
  ge_sort_key : option string }.

Record LegislativeLevel : Type := mkLegislativeLevel {
  ll_legislative_body : nat; ll_geolevel : nat; ll_target : nat;
  ll_parent : option nat }.

Record LegislativeDefaults : Type := mkLegislativeDefaults {
  ld_legislative_body : nat; ld_target : option nat }.

(** [us_password] is [None] until [set_password] is called. *)
Record User : Type := mkUser {
  us_username : string; us_password : option string }.

Record Geounit : Type := mkGeounit {
  gu_geom : geometry; gu_name : field_value; gu_geolevel : nat;
  gu_simple : geometry; gu_center : geometry;
  gu_supplemental_id : option field_value }.

Record Characteristic : Type := mkCharacteristic {
  ch_subject : nat; ch_number : PyDecimal.t; ch_geounit : nat }.

(** What the command prints on a failure it recovers from. *)
Inductive event : Type :=
| FailedGeometry (feature : Z)
    (* 'Failed to import geometry for feature %d' *)
| FailedValue (attr : option string) (feature_name : field_value).
    (* 'Failed to set value "%s" to %d in feature "%s"' *)

Record Store : Type := mkStore {
  bodies : list LegislativeBody;
  subjects : list Subject;
  targets : list Target;
  geolevels : list Geolevel;
  levels : list LegislativeLevel;
  defaults : list LegislativeDefaults;
  users : list User;
  geounits : list Geounit;
  characteristics : list Characteristic;
  printed : list event }.

Definition empty_store : Store := mkStore [] [] [] [] [] [] [] [] [] [].

Definition set_bodies (v : list LegislativeBody) (s : Store) : Store :=
  mkStore v (subjects s) (targets s) (geolevels s) (levels s) (defaults s)
          (users s) (geounits s) (characteristics s) (printed s).
Definition set_subjects (v : list Subject) (s : Store) : Store :=
  mkStore (bodies s) v (targets s) (geolevels s) (levels s) (defaults s)
          (users s) (geounits s) (characteristics s) (printed s).
Definition set_targets (v : list Target) (s : Store) : Store :=
  mkStore (bodies s) (subjects s) v (geolevels s) (levels s) (defaults s)
          (users s) (geounits s) (characteristics s) (printed s).
Definition set_geolevels (v : list Geolevel) (s : Store) : Store :=
  mkStore (bodies s) (subjects s) (targets s) v (levels s) (defaults s)
          (users s) (geounits s) (characteristics s) (printed s).
Definition set_levels (v : list LegislativeLevel) (s : Store) : Store :=
  mkStore (bodies s) (subjects s) (targets s) (geolevels s) v (defaults s)
          (users s) (geounits s) (characteristics s) (printed s).
Definition set_defaults (v : list LegislativeDefaults) (s : Store) : Store :=
  mkStore (bodies s) (subjects s) (targets s) (geolevels s) (levels s) v
          (users s) (geounits s) (characteristics s) (printed s).
Definition set_users (v : list User) (s : Store) : Store :=
  mkStore (bodies s) (subjects s) (targets s) (geolevels s) (levels s)
          (defaults s) v (geounits s) (characteristics s) (printed s).
Definition set_geounits (v : list Geounit) (s : Store) : Store :=
  mkStore (bodies s) (subjects s) (targets s) (geolevels s) (levels s)
          (defaults s) (users s) v (characteristics s) (printed s).
Definition set_characteristics (v : list Characteristic) (s : Store) : Store :=
  mkStore (bodies s) (subjects s) (targets s) (geolevels s) (levels s)
          (defaults s) (users s) (geounits s) v (printed s).
Definition set_printed (v : list event) (s : Store) : Store :=
  mkStore (bodies s) (subjects s) (targets s) (geolevels s) (levels s)
          (defaults s) (users s) (geounits s) (characteristics s) v.

(** ** Commands: the store is threaded, an exception stops the command
    and leaves what was saved before it (no write of the command runs in a
    transaction of its own). *)

Definition ST (S A : Type) : Type := S -> S * result A.

Definition ret {S A} (a : A) : ST S A := fun s => (s, Ok a).
Definition raise {S A} (e : exn) : ST S A := fun s => (s, Raise e).
Definition bind {S A B} (m : ST S A) (f : A -> ST S B) : ST S B :=
  fun s => match m s with
           | (s', Ok a) => f a s'
           | (s', Raise e) => (s', Raise e)
           end.
Definition lift {S A} (r : result A) : ST S A := fun s => (s, r).

Notation "x <- m ;; k" := (bind m (fun x => k))
  (at level 61, m at next level, right associativity).
Notation "m ;;; k" := (bind m (fun _ => k))
  (at level 61, right associativity).

(** [for x in xs: body(x)] *)
Fixpoint for_each {S A} (xs : list A) (body : A -> ST S unit) : ST S unit :=
  match xs with
  | [] => ret tt
  | x :: r => body x ;;; for_each r body
  end.

Definition M (A : Type) : Type := ST Store A.

(** *** The Django manager methods used *)

(** Positions of the rows that satisfy [p], in table order. *)
Fixpoint positions {R} (p : R -> bool) (from : nat) (t : list R) : list nat :=
  match t with
  | [] => []
  | r :: t' => if p r then from :: positions p (S from) t'
               else positions p (S from) t'
  end.

(** [Model.objects.get(...)] *)
Definition objects_get {R} (m : model) (p : R -> bool) (t : list R) : result nat :=
  match positions p 0 t with
  | [] => Raise (DoesNotExist m)
  | [i] => Ok i
  | _ :: _ :: _ => Raise (MultipleObjectsReturned m)
  end.

(** [Model.objects.filter(...)[0]] *)
Definition objects_filter_0 {R} (p : R -> bool) (t : list R) : result nat :=
  index0 (positions p 0 t).

(** [Model.objects.get_or_create(...)]: [get] first, [create] when it
    raises [DoesNotExist]; the new table, the row and the [created] flag. *)
Definition objects_get_or_create {R} (m : model) (p : R -> bool) (new : R)
    (t : list R) : list R * result (nat * bool) :=
  match positions p 0 t with
  | [] => ((t ++ [new])%list, Ok (List.length t, true))
  | [i] => (t, Ok (i, false))
  | _ :: _ :: _ => (t, Raise (MultipleObjectsReturned m))
  end.

Definition rbind {A B} (r : result A) (k : A -> result B) : result B :=
  match r with Ok a => k a | Raise e => Raise e end.

Notation "x <~ r ;; k" := (rbind r (fun x => k))
  (at level 61, r at next level, right associativity).

Definition opt_eqb (a b : option string) : bool :=
  match a, b with
  | Some x, Some y => String.eqb x y
  | None, None => true
  | _, _ => false
  end.

Definition opt_nat_eqb (a b : option nat) : bool :=
  match a, b with
  | Some x, Some y => Nat.eqb x y
  | None, None => true
  | _, _ => false
  end.

(** The keyword arguments of each lookup, as a predicate on rows. *)
Definition body_is (name member max_districts : option string)
    (r : LegislativeBody) : bool :=
  opt_eqb (lb_name r) name && opt_eqb (lb_member r) member
  && opt_eqb (lb_max_districts r) max_districts.

Definition body_named (name : option string) (r : LegislativeBody) : bool :=
  opt_eqb (lb_name r) name.

Definition subject_is (new : Subject) (r : Subject) : bool :=
  opt_eqb (su_name r) (su_name new) && opt_eqb (su_display r) (su_display new)
  && opt_eqb (su_short_display r) (su_short_display new)
  && Bool.eqb (su_is_displayed r) (su_is_displayed new)
  && opt_eqb (su_sort_key r) (su_sort_key new).

Definition subject_named (name : option string) (r : Subject) : bool :=
  opt_eqb (su_name r) name.

Definition target_is (new : Target) (r : Target) : bool :=
  Nat.eqb (ta_subject r) (ta_subject new) && opt_eqb (ta_value r) (ta_value new)
  && opt_eqb (ta_range1 r) (ta_range1 new) && opt_eqb (ta_range2 r) (ta_range2 new).

Definition geolevel_is (new : Geolevel) (r : Geolevel) : bool :=
  opt_eqb (ge_name r) (ge_name new) && opt_eqb (ge_min_zoom r) (ge_min_zoom new)
  && opt_eqb (ge_sort_key r) (ge_sort_key new).

Definition geolevel_named (name : option string) (r : Geolevel) : bool :=
  opt_eqb (ge_name r) name.

Definition level_of (legislative_body geolevel target : nat)
    (r : LegislativeLevel) : bool :=
  Nat.eqb (ll_legislative_body r) legislative_body
  && Nat.eqb (ll_geolevel r) geolevel && Nat.eqb (ll_target r) target.

Definition level_is (new : LegislativeLevel) (r : LegislativeLevel) : bool :=
  level_of (ll_legislative_body new) (ll_geolevel new) (ll_target new) r
  && opt_nat_eqb (ll_parent r) (ll_parent new).

Definition defaults_of (legislative_body : nat) (r : LegislativeDefaults) : bool :=
  Nat.eqb (ld_legislative_body r) legislative_body.

Definition user_named (name : string) (r : User) : bool :=
  String.eqb (us_username r) name.

(** [obj.field = v; obj.save()] on the row at position [i]. *)
Fixpoint update_nth {R} (i : nat) (f : R -> R) (t : list R) : list R :=
  match t, i with
  | [], _ => []
  | r :: t', O => f r :: t'
  | r :: t', S j => r :: update_nth j f t'
  end.

(** ** [import_prereq] *)

(** A query: the store is read, not written. *)
Definition query {A} (f : Store -> result A) : M A := fun s => (s, f s).

(** [get_or_create] on the table read by [tbl] and written by [set]. *)
Definition get_or_create_in {R} (tbl : Store -> list R)
    (set : list R -> Store -> Store) (m : model) (p : R -> bool) (new : R)
    : M (nat * bool) :=
  fun s => let (t, r) := objects_get_or_create m p new (tbl s) in (set t s, r).

Definition body_row (body : attrs) : LegislativeBody :=
  mkLegislativeBody (get body "name") (get body "member") (get body "maxdistricts").

(** Lines 488-492: one legislative body. *)
Definition import_body (body : attrs) : M unit :=
  let new := body_row body in
  _ <- get_or_create_in bodies set_bodies MLegislativeBody
         (body_is (lb_name new) (lb_member new) (lb_max_districts new)) new ;;
  ret tt.

Definition subject_row (subj : attrs) : Subject :=
  mkSubject (get subj "id") (get subj "name") (get subj "short_name")
            (opt_eqb (get subj "displayed") (Some "true")) (get subj "sortkey").

(** Lines 502-510: one subject; an alias is passed over. *)
Definition import_subject (c : Config) (i : nat) : M unit :=
  let subj := subject_attrib c i in
  if has_attr subj "aliasfor" then ret tt
  else
    let new := subject_row subj in
    _ <- get_or_create_in subjects set_subjects MSubject (subject_is new) new ;;
    ret tt.

(** Lines 523-526 and 565-568: the subject element of a reference, with
    one alias dereferenced. *)
Definition dereference_subject (c : Config) (subjectref : option string)
    : result attrs :=
  i <~ index0 (xpath_subject c (fmt_s subjectref)) ;;
  let subconfig := subject_attrib c i in
  match get subconfig "aliasfor" with
  | None => Ok subconfig
  | Some a =>
      j <~ index0 (xpath_subject c (fmt_s (Some a))) ;;
      Ok (subject_attrib c j)
  end.

(** Lines 521-533: one target. *)
Definition import_target (c : Config) (targ : attrs) : M unit :=
  subconfig <- lift (dereference_subject c (get targ "subjectref")) ;;
  subject <- query (fun s => objects_filter_0
                               (subject_named (get subconfig "id")) (subjects s)) ;;
  let new := mkTarget subject (get targ "value") (get targ "range1")
                      (get targ "range2") in
  _ <- get_or_create_in targets set_targets MTarget (target_is new) new ;;
  ret tt.

(** Lines 577-580: the default target of a legislative body. *)
Definition set_default (legislative_body target : nat) : M unit :=
  created <- get_or_create_in defaults set_defaults MLegislativeDefaults
               (defaults_of legislative_body)
               (mkLegislativeDefaults legislative_body None) ;;
  fun s =>
    (set_defaults
       (update_nth (fst created)
          (fun r => mkLegislativeDefaults (ld_legislative_body r) (Some target))
          (defaults s)) s,
     Ok tt).

(** Lines 588-597: the parent level of a mapping. *)
Definition find_parent (c : Config) (lbody : LBodyRef)
    (legislative_body target : nat) : M (option nat) :=
  match lbr_parents lbody with
  | [] => ret None
  | p :: _ =>
      pconfig <- lift (index0 (xpath_geolevel c (fmt_s (get p "ref")))) ;;
      plvl <- query (fun s => objects_get MGeolevel
                                (geolevel_named (get pconfig "name")) (geolevels s)) ;;
      parent <- query (fun s => objects_get MLegislativeLevel
                                  (level_of legislative_body plvl target) (levels s)) ;;
      ret (Some parent)
  end.

(** Lines 564-575: the target a [LegislativeTarget] refers to. *)
Definition resolve_target (c : Config) (targ : attrs) : M nat :=
  tconfig <- lift (index0 (xpath_target c (fmt_s (get targ "ref")))) ;;
  sconfig <- lift (dereference_subject c (get tconfig "subjectref")) ;;
  subject <- query (fun s => objects_get MSubject
                               (subject_named (get sconfig "id")) (subjects s)) ;;
  query (fun s => objects_get MTarget
                    (target_is (mkTarget subject (get tconfig "value")
                                  (get tconfig "range1") (get tconfig "range2")))
                    (targets s)).

(** Lines 563-603: one target of one body of one geolevel. *)
Definition import_level (c : Config) (glvl : nat) (lbody : LBodyRef)
    (legislative_body : nat) (targ : attrs) : M unit :=
  target <- resolve_target c targ ;;
  (if has_attr targ "default" then set_default legislative_body target else ret tt) ;;;
  parent <- find_parent c lbody legislative_body target ;;
  let new := mkLegislativeLevel legislative_body glvl target parent in
  _ <- get_or_create_in levels set_levels MLegislativeLevel (level_is new) new ;;
  ret tt.

(** Lines 556-603: one body reference of one geolevel. *)
Definition import_lbody (c : Config) (glvl : nat) (lbody : LBodyRef) : M unit :=
  lbconfig <- lift (index0 (xpath_body c (fmt_s (get (lbr_attrib lbody) "ref")))) ;;
  legislative_body <- query (fun s => objects_get MLegislativeBody
                                        (body_named (get lbconfig "name")) (bodies s)) ;;
  for_each (lbr_targets lbody) (import_level c glvl lbody legislative_body).

Definition geolevel_row (a : attrs) : Geolevel :=
  mkGeolevel (get a "name") (get a "min_zoom") (get a "sort_key").

(** Lines 545-603: one geolevel. *)
Definition import_geolevel_row (c : Config) (node : GeoLevelNode) : M unit :=
  let new := geolevel_row (gl_attrib node) in
  glvl <- get_or_create_in geolevels set_geolevels MGeolevel (geolevel_is new) new ;;
  for_each (gl_bodies node) (import_lbody c (fst glvl)).

(** Lines 612-615: the anonymous user. *)
Definition import_anonymous : M unit :=
  anon <- get_or_create_in users set_users MUser (user_named "anonymous")
            (mkUser "anonymous" None) ;;
  if negb (snd anon) then
    fun s =>
      (set_users (update_nth (fst anon)
                    (fun u => mkUser (us_username u) (Some "anonymous")) (users s)) s,
       Ok tt)
  else ret tt.

Definition import_prereq (c : Config) : M unit :=
  for_each (xpath_bodies_with_id c) import_body ;;;
  for_each (xpath_subjects_with_id c) (import_subject c) ;;;
  for_each (cfg_targets c) (import_target c) ;;;
  for_each (cfg_geolevels c) (import_geolevel_row c) ;;;
  import_anonymous.

(** ** [import_geolevel]: the subject fields of a geolevel *)

Definition remove_nat (x : nat) (l : list nat) : list nat :=
  filter (fun y => negb (Nat.eqb y x)) l.

(** The parent of a node: the first node that lists it as a child. *)
Definition parent_of (f : SubjectForest) (x : nat) : option nat :=
  match positions (fun n => existsb (Nat.eqb x) (sn_kids n)) 0 (sf_nodes f) with
  | p :: _ => Some p
  | [] => None
  end.

Fixpoint is_ancestor_or_same (fuel : nat) (f : SubjectForest) (a x : nat) : bool :=
  Nat.eqb a x ||
  match fuel with
  | O => false
  | S k => match parent_of f x with
           | Some p => is_ancestor_or_same k f a p
           | None => false
           end
  end.

(** lxml's [parent.append(child)]: an element that is already in the tree
    is moved, not copied; it refuses to put an element under itself. *)
Definition append (f : SubjectForest) (parent child : nat) : result SubjectForest :=
  if is_ancestor_or_same (List.length (sf_nodes f)) f child parent
  then Raise ValueError
  else
    let removed :=
      map (fun n => mkSubjectNode (sn_attrib n) (remove_nat child (sn_kids n)))
          (sf_nodes f) in
    Ok (mkSubjectForest
          (update_nth parent
             (fun n => mkSubjectNode (sn_attrib n) (sn_kids n ++ [child])%list)
             removed)
          (remove_nat child (sf_top f))).

Definition with_subjects (c : Config) (f : SubjectForest) : Config :=
  mkConfig (cfg_bodies c) f (cfg_targets c) (cfg_geolevels c)
           (cfg_mapserver c) (cfg_database c).

(** Lines 466-473: one [LegislativeTarget] reference; the configuration
    tree as it is afterwards, and the subject element to import. *)
Definition subject_field (c : Config) (tref : attrs) : Config * result nat :=
  match index0 (xpath_target c (fmt_s (get tref "ref"))) with
  | Raise e => (c, Raise e)
  | Ok tconfig =>
      match index0 (xpath_subject c (fmt_s (get tconfig "subjectref"))) with
      | Raise e => (c, Raise e)
      | Ok sconfig =>
          match get (subject_attrib c sconfig) "aliasfor" with
          | None => (c, Ok sconfig)
          | Some a =>
              match index0 (xpath_subject c (fmt_s (Some a))) with
              | Raise e => (c, Raise e)
              | Ok salconfig =>
                  match append (cfg_subjects c) sconfig salconfig with
                  | Raise e => (c, Raise e)
                  | Ok f => (with_subjects c f, Ok sconfig)
                  end
              end
          end
      end
  end.

Fixpoint subject_fields (c : Config) (trefs : list attrs)
    : Config * result (list nat) :=
  match trefs with
  | [] => (c, Ok [])
  | tref :: rest =>
      match subject_field c tref with
      | (c', Raise e) => (c', Raise e)
      | (c', Ok sconfig) =>
          match subject_fields c' rest with
          | (c'', Raise e) => (c'', Raise e)
          | (c'', Ok l) => (c'', Ok (sconfig :: l))
          end
      end
  end.

(** The [gconfig] dictionary handed to [import_shape]. *)
Record ShapeConfig : Type := mkShapeConfig {
  shapepath : option string;
  geolevel : option string;
  name_field : option string;
  supplemental_id_field : option string;
  subject_field_nodes : list nat }.

(** ** [import_shape] *)

(** A local variable of the loop: never assigned, [None], or a value. *)
Inductive local (A : Type) : Type :=
| Unbound
| PyNone
| Bound (a : A).
Arguments Unbound {A}.
Arguments PyNone {A}.
Arguments Bound {A} a.

(** Reading a local to call a method on it. *)
Definition deref {A} (v : local A) : result A :=
  match v with
  | Unbound => Raise UnboundLocalError
  | PyNone => Raise AttributeError
  | Bound a => Ok a
  end.

(** [Feature.get(name)] *)
Fixpoint lookup_field (l : list (string * field_value)) (k : string)
    : option field_value :=
  match l with
  | [] => None
  | (k', v) :: r => if String.eqb k' k then Some v else lookup_field r k
  end.

Definition feat_get (feat : Feature) (name : option string) : result field_value :=
  match name with
  | None => Raise IndexError
  | Some k => match lookup_field (feat_fields feat) k with
              | Some v => Ok v
              | None => Raise IndexError
              end
  end.

(** [str(value)] *)
Definition str (v : field_value) : string :=
  match v with
  | OFTInteger z => NilZero.string_of_int (Z.to_int z)
  | OFTReal r => r
  | OFTString s => s
  end.

(** ['%d' % value]: an integer or a finite float formats; a string does not. *)
Definition fmt_d (v : field_value) : result unit :=
  match v with
  | OFTInteger _ => Ok tt
  | OFTReal r =>
      match PyDecimal.of_string r None with
      | Ok (PyDecimal.Finite _ _ _) => Ok tt
      | _ => Raise ValueError
      end
  | OFTString _ => Raise TypeError
  end.

(** Lines 667-670: the coercion to a multipolygon; another kind leaves
    [my_geom] as it was. *)
Definition coerce (my_geom : local geometry) (geos : geometry) : local geometry :=
  match geos with
  | MultiPolygon _ => Bound geos
  | Polygon p => Bound (MultiPolygon [p])
  | _ => my_geom
  end.

(** [MultiPolygon(simple)] *)
Definition to_multipolygon (g : geometry) : result geometry :=
  match g with
  | Polygon p => Ok (MultiPolygon [p])
  | _ => Raise TypeError
  end.

(** [my_geom[0]] *)
Definition first_member (g : geometry) : result polygon :=
  match g with
  | MultiPolygon (p :: _) => Ok p
  | MultiPolygon [] => Raise IndexError
  | _ => Raise TypeError
  end.

(** [first_poly.extent], of which [min_x] and [max_x] are used. *)
Definition extent_x (p : polygon) : result (Q * Q) :=
  match p with
  | ((x, _) :: pts) :: _ =>
      Ok (fold_left (fun m q => Qmin m (fst q)) pts x,
          fold_left (fun m q => Qmax m (fst q)) pts x)
  | _ => Raise GEOSException
  end.

(** [point.y] *)
Definition point_y (g : geometry) : result Q :=
  match g with
  | Point (Some (_, y)) => Ok y
  | Point None => Raise GEOSException
  | _ => Raise AttributeError
  end.

(** Lines 691-692. *)
Definition first_part (g : geometry) : result geometry :=
  match g with
  | MultiLineString (l :: _) => Ok (LineString l)
  | MultiLineString [] => Raise IndexError
  | _ => Ok g
  end.

(** [subject_objects[key] = value] on a dictionary kept as the list of its
    entries in the order of their first insertion.  The order in which the
    dictionary is walked is another matter: see [iteritems] below. *)
Fixpoint dict_set (d : list (option string * nat)) (k : option string) (v : nat)
    : list (option string * nat) :=
  match d with
  | [] => [(k, v)]
  | (k', v') :: r => if opt_eqb k' k then (k, v) :: r else (k', v') :: dict_set r k v
  end.

(** [if x:] on an optional string. *)
Definition truthy (x : option string) : bool :=
  match x with
  | Some s => negb (String.eqb s "")
  | None => false
  end.

Section ImportShape.

(** The GEOS algorithms, the OGR data sources by path (their first layer),
    whether the [number] column of a characteristic takes a value, whether
    the database takes the row of a geounit ([g.save()]), and the order in
    which [iteritems] walks a dictionary, that of its hash table. *)
Variable simplify : geometry -> result geometry.
Variable centroid : geometry -> result geometry.
Variable within : geometry -> geometry -> result bool.
Variable intersection : geometry -> geometry -> result geometry.
Variable DataSource : option string -> result (list Feature).
Variable number_storable : PyDecimal.t -> bool.
Variable geounit_storable : Geounit -> bool.
Variable iteritems : list (option string * nat) -> list (option string * nat).

(** Lines 674-694: the centroid, moved onto the centre line of the first
    member when it falls outside the geometry. *)
Definition repaired_center (my_geom : geometry) : result geometry :=
  center <~ centroid my_geom ;;
  inside <~ within center my_geom ;;
  if inside then Ok center
  else
    first_poly <~ first_member my_geom ;;
    first_poly_extent <~ extent_x first_poly ;;
    first_centroid <~ centroid (Polygon first_poly) ;;
    my_y <~ point_y first_centroid ;;
    let centerline := LineString [(fst first_poly_extent, my_y);
                                  (snd first_poly_extent, my_y)] in
    crossing <~ intersection centerline (Polygon first_poly) ;;
    part <~ first_part crossing ;;
    centroid part.

(** Lines 671-694: the simplified geometry and the centre of a
    multipolygon. *)
Definition repair (my_geom : geometry) : result (geometry * geometry) :=
  simple <~ simplify my_geom ;;
  simple' <~ (if geom_kind_eqb (geom_type simple) KMultiPolygon
              then Ok simple else to_multipolygon simple) ;;
  center <~ repaired_center my_geom ;;
  Ok (simple', center).

(** Lines 671-709: the geounit of a feature with multipolygon [g]. *)
Definition geounit_row (cfg : ShapeConfig) (level : nat) (feat : Feature)
    (g : geometry) : result Geounit :=
  repaired <~ repair g ;;
  name <~ feat_get feat (name_field cfg) ;;
  supplemental <~ (if truthy (supplemental_id_field cfg)
                   then (v <~ feat_get feat (supplemental_id_field cfg) ;;
                         Ok (Some v))
                   else Ok None) ;;
  Ok (mkGeounit g name level (fst repaired) (snd repaired) supplemental).

(** Lines 663-709, the [try] block up to [g.save()]: the value [my_geom]
    is left with, and the row to save or the exception caught. *)
Definition feature_geounit (cfg : ShapeConfig) (level : nat)
    (my_geom : local geometry) (feat : Feature)
    : local geometry * result Geounit :=
  match feat_geom feat with
  | Raise e => (my_geom, Raise e)
  | Ok geos =>
      let my_geom' := coerce my_geom geos in
      (my_geom', g <~ deref my_geom' ;; geounit_row cfg level feat g)
  end.

(** Lines 719-731: one characteristic of a saved geounit [g]. *)
Definition import_characteristic (cfg : ShapeConfig) (feat : Feature) (g : nat)
    (entry : option string * nat) : M unit :=
  let (attr, obj) := entry in
  raw <- lift (feat_get feat attr) ;;
  value <- lift (characteristic_value (str raw)) ;;
  fun s =>
    if number_storable value then
      (set_characteristics
         (characteristics s ++ [mkCharacteristic obj value g])%list s, Ok tt)
    else
      let s1 := set_characteristics
                  (characteristics s ++
                   [mkCharacteristic obj (PyDecimal.Finite false 0 (-1)) g])%list s in
      match (name <~ feat_get feat (name_field cfg) ;;
             _ <~ fmt_d raw ;; Ok name) with
      | Ok name => (set_printed (printed s1 ++ [FailedValue attr name])%list s1, Ok tt)
      | Raise e => (s1, Raise e)
      end.

(** Lines 656-732: the loop over the features of the layer.  A geometry
    block that raises, in [g.save()] too, leaves [my_geom] as it is then;
    one that ends sets it to [None] (line 711). *)
Fixpoint import_features (cfg : ShapeConfig) (level : nat)
    (subject_objects : list (option string * nat))
    (lyr : list Feature) (my_geom : local geometry) : M unit :=
  match lyr with
  | [] => ret tt
  | feat :: rest => fun s =>
      let failed (my_geom' : local geometry) :=
        import_features cfg level subject_objects rest my_geom'
          (set_printed (printed s ++ [FailedGeometry (fid feat)])%list s) in
      match feature_geounit cfg level my_geom feat with
      | (my_geom', Raise _) => failed my_geom'
      | (my_geom', Ok row) =>
          if geounit_storable row then
            let g := List.length (geounits s) in
            let s1 := set_geounits (geounits s ++ [row])%list s in
            match for_each (iteritems subject_objects)
                           (import_characteristic cfg feat g) s1 with
            | (s2, Ok _) => import_features cfg level subject_objects rest PyNone s2
            | (s2, Raise e) => (s2, Raise e)
            end
          else failed my_geom'
      end
  end.

(** Lines 643-649: the subject of one configured field. *)
Fixpoint alias_subject (c : Config) (kids : list nat) (sub : option nat)
    : M (option nat) :=
  match kids with
  | [] => ret sub
  | elem :: rest =>
      found <- query (fun s => objects_get MSubject
                                 (subject_named (get (subject_attrib c elem) "id"))
                                 (subjects s)) ;;
      alias_subject c rest (Some found)
  end.

Definition subject_object (c : Config) (sconfig : nat) : M nat :=
  aliased <- alias_subject c (node_kids (cfg_subjects c) sconfig) None ;;
  match aliased with
  | Some sub => ret sub
  | None => query (fun s => objects_get MSubject
                             (subject_named (get (subject_attrib c sconfig) "id"))
                             (subjects s))
  end.

(** Lines 639-650. *)
Fixpoint subject_objects_of (c : Config) (nodes : list nat)
    (d : list (option string * nat)) : M (list (option string * nat)) :=
  match nodes with
  | [] => ret d
  | sconfig :: rest =>
      sub <- subject_object c sconfig ;;
      subject_objects_of c rest
        (dict_set d (get (subject_attrib c sconfig) "field") sub)
  end.

Definition import_shape (c : Config) (cfg : ShapeConfig) : M unit :=
  lyr <- lift (DataSource (shapepath cfg)) ;;
  level <- query (fun s => objects_get MGeolevel (geolevel_named (geolevel cfg))
                             (geolevels s)) ;;
  subject_objects <- subject_objects_of c (subject_field_nodes cfg) [] ;;
  import_features cfg level subject_objects lyr Unbound.

(** Lines 449-475. *)
Definition import_geolevel (c : Config) (node : GeoLevelNode) (s : Store)
    : Config * (Store * result unit) :=
  let a := gl_attrib node in
  match subject_fields c (flat_map lbr_targets (gl_bodies node)) with
  | (c', Raise e) => (c', (s, Raise e))
  | (c', Ok nodes) =>
      (c', import_shape c'
             (mkShapeConfig (get a "shapefile") (get a "name") (get a "namefield")
                            (get a "supplementfield") nodes) s)
  end.

(** A value of the [--geolevel] option. *)
Inductive optval : Type :=
| OptStr (s : string)
| OptInt (z : Z).

(** [i in optlevels] *)
Definition index_in (i : nat) (optlevels : list optval) : bool :=
  existsb (fun v => match v with
                    | OptInt z => Z.eqb z (Z.of_nat i)
                    | OptStr _ => false
                    end) optlevels.

(** Lines 109-113. *)
Fixpoint import_geolevels (c : Config) (optlevels : list optval) (i : nat)
    (nodes : list GeoLevelNode) (s : Store) : Config * (Store * result unit) :=
  match nodes with
  | [] => (c, (s, Ok tt))
  | node :: rest =>
      if (Nat.eqb (List.length optlevels) 0 || index_in i optlevels)%bool then
        match import_geolevel c node s with
        | (c', (s', Ok _)) => import_geolevels c' optlevels (S i) rest s'
        | (c', (s', Raise e)) => (c', (s', Raise e))
        end
      else import_geolevels c optlevels (S i) rest s
  end.

(** Lines 102-113 of [handle]: reconciliation, then the geolevels asked
    for. *)
Definition handle (c : Config) (optlevels : option (list optval)) (s : Store)
    : Store * result unit :=
  match import_prereq c s with
  | (s1, Raise e) => (s1, Raise e)
  | (s1, Ok _) =>
      match optlevels with
      | None => (s1, Ok tt)
      | Some l => snd (import_geolevels c l 0 (cfg_geolevels c) s1)
      end
  end.

End ImportShape.

(** ** [configure_geoserver]: the REST sequence *)

Record request : Type := mkRequest {
  rq_method : string;
  rq_host : option string;
  rq_url : string;
  rq_data : string;
  rq_credentials : string;   (* the text the [Authorization] header encodes *)
  rq_content_type : string }.

(** What comes back: a response with its status, or an exception from the
    connection. *)
Inductive response : Type :=
| Status (code : Z)
| ConnectionError.

(** The state of the provisioning: the calls issued so far. *)
Definition P (A : Type) : Type := ST (list request) A.

Definition quote : string := String (ascii_of_nat 34) EmptyString.

Definition xml_decl : string :=
  "<?xml version=" ++ quote ++ "1.0" ++ quote ++ " encoding=" ++ quote
  ++ "UTF-8" ++ quote ++ "?>".

Definition xml : string := "application/xml".
Definition sld_xml : string := "application/vnd.ogc.sld+xml".

(** The bounding box of all geounits, each number as ['%0.1f'] prints it;
    [None] when there is no geounit. *)
Definition extent : Type := option (string * string * string * string).

Definition bounding_box (e : extent) : result string :=
  match e with
  | None => Raise TypeError
  | Some (minx, miny, maxx, maxy) =>
      Ok ("<nativeBoundingBox><minx>" ++ minx ++ "</minx><miny>" ++ miny
          ++ "</miny><maxx>" ++ maxx ++ "</maxx><maxy>" ++ maxy
          ++ "</maxy></nativeBoundingBox>")
  end.

Definition feature_type (name : string) (native : option string) (e : extent)
    : result string :=
  box <~ bounding_box e ;;
  Ok (xml_decl ++ "<featureType><name>" ++ name ++ "</name><title>" ++ name
      ++ "</title>"
      ++ match native with
         | Some n => "<nativeName>" ++ n ++ "</nativeName>"
         | None => ""
         end
      ++ box ++ "</featureType>").

Definition style_xml (name : string) : string :=
  xml_decl ++ "<style><name>" ++ name ++ "</name><filename>" ++ name
  ++ ".sld</filename></style>".

Definition layer_xml (style : string) : string :=
  xml_decl ++ "<layer><defaultStyle><name>" ++ style
  ++ "</name></defaultStyle><enabled>true</enabled></layer>".

Section Geoserver.

(** The map server, answering a call after those issued before it, and the
    style files by path ([None]: the file cannot be read). *)
Variable server : list request -> request -> response.
Variable read_file : string -> option string.

(** Lines 379-406; the message, only printed, is left out. *)
Definition rest_config (method : string) (host : option string) (url data : string)
    (credentials content_type : string) : P bool :=
  fun issued =>
    let rq := mkRequest method host url data credentials content_type in
    ((issued ++ [rq])%list,
     Ok (match server issued rq with
         | Status code => negb (negb (code =? 201) && negb (code =? 200))
         | ConnectionError => false
         end)).

(** Lines 361-377. *)
Definition get_style_contents (styledir geolevel subject : string) : option string :=
  read_file (styledir ++ "/" ++ geolevel ++ "_" ++ subject ++ ".sld").

(** [if not self.rest_config(...): return False], then the rest. *)
Definition and_then (call : P bool) (rest : P bool) : P bool :=
  ok <- call ;; if ok then rest else ret false.

Notation "'proceed' call ;; rest" := (and_then call rest)
  (at level 61, call at next level, right associativity).

(** [sld = self.get_style_contents(...)]; [if sld is None: return False]. *)
Definition with_style (styledir geolevel subject : string)
    (rest : string -> P bool) : P bool :=
  match get_style_contents styledir geolevel subject with
  | None => ret false
  | Some sld => rest sld
  end.

Section Layers.

Variable host : option string.
Variable namespace : string.
Variable credentials : string.
Variable styledir : string.
Variable e : extent.

Definition featuretypes_url : string :=
  "/geoserver/rest/workspaces/" ++ namespace ++ "/datastores/PostGIS/featuretypes".

Definition post_feature_type (name : string) (native : option string) : P bool :=
  data <- lift (feature_type name native e) ;;
  rest_config "POST" host featuretypes_url data credentials xml.

(** A feature type's style: created, uploaded and bound to [layer]. *)
Definition style_layer (g style layer : string) (rest : P bool) : P bool :=
  with_style styledir g style (fun sld =>
    proceed rest_config "POST" host "/geoserver/rest/styles"
              (style_xml (g ++ "_" ++ style)) credentials xml ;;
    proceed rest_config "PUT" host ("/geoserver/rest/styles/" ++ g ++ "_" ++ style)
              sld credentials sld_xml ;;
    proceed rest_config "PUT" host
              ("/geoserver/rest/layers/" ++ namespace ++ ":" ++ layer)
              (layer_xml (g ++ "_" ++ style)) credentials xml ;;
    rest).

(** Lines 205-356: one subject of one geolevel. *)
Definition subject_layers (g s : string) (firstsubj : bool) : P bool :=
  proceed post_feature_type ("demo_" ++ g ++ "_" ++ s) None ;;
  style_layer g s ("demo_" ++ g ++ "_" ++ s)
    (if firstsubj then
       proceed post_feature_type ("demo_" ++ g) (Some ("demo_" ++ g ++ "_" ++ s)) ;;
       style_layer g "none" ("demo_" ++ g)
         (proceed post_feature_type (g ++ "_boundaries")
                    (Some ("demo_" ++ g ++ "_" ++ s)) ;;
          style_layer g "boundaries" (g ++ "_boundaries") (ret true))
     else ret true).

(** Lines 203-356: [for subject in Subject.objects.all()]. *)
Fixpoint subjects_layers (g : string) (subjs : list Subject) (firstsubj : bool)
    : P bool :=
  match subjs with
  | [] => ret true
  | s :: rest =>
      proceed subject_layers g (fmt_s (su_name s)) firstsubj ;;
      subjects_layers g rest false
  end.

(** Lines 190-356: [for geolevel in Geolevel.objects.all()]. *)
Fixpoint geolevels_layers (gls : list Geolevel) (subjs : list Subject) : P bool :=
  match gls with
  | [] => ret true
  | gl :: rest =>
      let g := fmt_s (ge_name gl) in
      proceed post_feature_type ("simple_" ++ g) None ;;
      proceed subjects_layers g subjs true ;;
      geolevels_layers rest subjs
  end.

End Layers.

(** Lines 127-359. *)
Definition configure_geoserver (c : Config) (e : extent) (s : Store) : P bool :=
  mapconfig <- lift (index0 (cfg_mapserver c)) ;;
  let host := match get mapconfig "hostname" with
              | Some "" => Some "localhost"
              | h => h
              end in
  let namespace := fmt_s (get mapconfig "ns") in
  let namespacehref := fmt_s (get mapconfig "nshref") in
  let credentials := fmt_s (get mapconfig "adminuser") ++ ":"
                     ++ fmt_s (get mapconfig "adminpass") in
  proceed rest_config "POST" host "/geoserver/rest/namespaces"
            (xml_decl ++ "<namespace><prefix>" ++ namespace ++ "</prefix><uri>"
             ++ namespacehref ++ "</uri></namespace>") credentials xml ;;
  dbconfig <- lift (index0 (cfg_database c)) ;;
  let dbconn :=
    "<connectionParameters><host>" ++ fmt_s host ++ "</host><port>5432</port><database>"
    ++ fmt_s (get dbconfig "name") ++ "</database><user>" ++ fmt_s (get dbconfig "user")
    ++ "</user><passwd>" ++ fmt_s (get dbconfig "password")
    ++ "</passwd><dbtype>postgis</dbtype><namespace>" ++ namespacehref
    ++ "</namespace><schema>" ++ fmt_s (get dbconfig "user")
    ++ "</schema></connectionParameters>" in
  proceed rest_config "POST" host
            ("/geoserver/rest/workspaces/" ++ namespace ++ "/datastores")
            (xml_decl ++ "<dataStore><name>PostGIS</name>" ++ dbconn ++ "</dataStore>")
            credentials xml ;;
  proceed post_feature_type host namespace credentials e "identify_geounit" None ;;
  proceed post_feature_type host namespace credentials e "simple_district" None ;;
  geolevels_layers host namespace credentials
    (fmt_s (get mapconfig "styles")) e (geolevels s) (subjects s).

End Geoserver.

(** The provisioning order in the words of the interface: calls are issued
    one after the other, and the first one that is not accepted is the
    last. *)
Definition accepted (r : response) : bool :=
  match r with
  | Status code => (code =? 200) || (code =? 201)
  | ConnectionError => false
  end.

Fixpoint issue (server : list request -> request -> response)
    (issued : list request) (plan : list request) : list request * bool :=
  match plan with
  | [] => (issued, true)
  | rq :: rest =>
      if accepted (server issued rq) then issue server (issued ++ [rq])%list rest
      else ((issued ++ [rq])%list, false)
  end.

(** A success response in the sense of HTTP: a status from 200 to 299. *)
Definition is_2xx (r : response) : bool :=
  match r with
  | Status code => (200 <=? code) && (code <=? 299)
  | ConnectionError => false
  end.

(** ** A small configuration and layer, for running the command *)

Module Sample.

Definition poptot : attrs :=
  [("id", "poptot"); ("name", "Total Population"); ("short_name", "Pop");
   ("displayed", "true"); ("sortkey", "1"); ("field", "POPTOT")].

Definition popalias : attrs :=
  [("id", "popalias"); ("aliasfor", "poptot"); ("field", "POP2")].

Definition forest : SubjectForest :=
  mkSubjectForest [mkSubjectNode poptot []; mkSubjectNode popalias []] [0%nat; 1%nat].

Definition congress : attrs :=
  [("id", "congress"); ("name", "Congress"); ("member", "Representative");
   ("maxdistricts", "18")].

Definition t1 : attrs :=
  [("id", "t1"); ("subjectref", "poptot"); ("value", "1000");
   ("range1", "900"); ("range2", "1100")].

Definition t2 : attrs :=
  [("id", "t2"); ("subjectref", "popalias"); ("value", "500")].

Definition county : GeoLevelNode :=
  mkGeoLevelNode
    [("id", "county"); ("name", "county"); ("min_zoom", "0"); ("sort_key", "1");
     ("shapefile", "county.shp"); ("namefield", "NAME")]
    [mkLBodyRef [("ref", "congress")]
       [[("ref", "t1"); ("default", "true")]; [("ref", "t2")]] []].

Definition block : GeoLevelNode :=
  mkGeoLevelNode
    [("id", "block"); ("name", "block"); ("min_zoom", "8"); ("sort_key", "2");
     ("shapefile", "block.shp"); ("namefield", "NAME")]
    [mkLBodyRef [("ref", "congress")] [[("ref", "t1")]] [[("ref", "county")]]].

Definition mapserver : attrs :=
  [("hostname", ""); ("ns", "pmp"); ("nshref", "http://example.org/pmp");
   ("adminuser", "admin"); ("adminpass", "secret"); ("styles", "/sld")].

Definition database : attrs :=
  [("name", "publicmapping"); ("user", "publicmapping"); ("password", "pw")].

Definition config : Config :=
  mkConfig [congress] forest [t1; t2] [county; block] [mapserver] [database].

(** The same document with the two geolevels in the other order. *)
Definition misordered : Config :=
  mkConfig [congress] forest [t1; t2] [block; county] [mapserver] [database].

Definition square (x y : Z) : polygon :=
  [[(inject_Z x, inject_Z y); (inject_Z (x + 1), inject_Z y);
    (inject_Z (x + 1), inject_Z (y + 1)); (inject_Z x, inject_Z (y + 1));
    (inject_Z x, inject_Z y)]].

(** Stand-ins for the GEOS algorithms: simplification keeps the geometry,
    the centroid is the first vertex, which counts as inside. *)
Definition simplify (g : geometry) : result geometry := Ok g.

Definition centroid (g : geometry) : result geometry :=
  match g with
  | MultiPolygon (((p :: _) :: _) :: _) => Ok (Point (Some p))
  | Polygon ((p :: _) :: _) => Ok (Point (Some p))
  | LineString (p :: _) => Ok (Point (Some p))
  | _ => Raise GEOSException
  end.

Definition within (p g : geometry) : result bool := Ok true.

Definition intersection (l g : geometry) : result geometry := Ok l.

Definition feature (i : Z) (g : result geometry) (pop : field_value) : Feature :=
  mkFeature i g [("NAME", OFTString "unit"); ("POPTOT", pop); ("POP2", pop)].

Definition good (i : Z) : Feature :=
  feature i (Ok (Polygon (square i 0))) (OFTReal "1.23456").

(** Five features, the third of them a geometry that cannot be read. *)
Definition five : list Feature :=
  [good 1; good 2; feature 3 (Raise OGRException) (OFTInteger 7); good 4; good 5].

(** A name of 201 characters, and a feature that carries it. *)
Definition long_name : string := string_of_list_ascii (repeat "x"%char 201).

Definition overlong : Feature :=
  mkFeature 1 (Ok (Polygon (square 1 0)))
    [("NAME", OFTString long_name); ("POPTOT", OFTInteger 7); ("POP2", OFTInteger 7)].

Definition DataSource (path : option string) : result (list Feature) :=
  match path with
  | Some "county.shp" => Ok five
  | Some "block.shp" => Ok [good 6]
  | Some "text.shp" =>
      Ok [feature 1 (Ok (Polygon (square 1 0))) (OFTString "N/A"); good 2]
  | Some "large.shp" =>
      Ok [feature 1 (Ok (Polygon (square 1 0))) (OFTReal "12345678901.5"); good 2]
  | Some "stale.shp" =>
      Ok [overlong; feature 2 (Ok (Point (Some (inject_Z 9, inject_Z 9)))) (OFTInteger 7)]
  | _ => Raise OGRException
  end.

(** Modelled from the spec: the [number] column of a characteristic, whose
    declaration in [redistricting.models] is not among the sources; the
    fixed scale of six integer and four fractional digits. *)
Definition number_storable (d : PyDecimal.t) : bool :=
  match d with
  | PyDecimal.Finite _ c e => (Z.of_N c * 10 ^ (e + 4) <? 10 ^ 10)
  | _ => false
  end.

(** Two aliases of the one subject, both fields of the same geolevel. *)
Definition two_aliases : Config :=
  mkConfig [congress]
    (mkSubjectForest
       [mkSubjectNode poptot []; mkSubjectNode popalias [];
        mkSubjectNode [("id", "popother"); ("aliasfor", "poptot"); ("field", "POP3")] []]
       [0%nat; 1%nat; 2%nat])
    [t1; t2; [("id", "t3"); ("subjectref", "popother"); ("value", "250")]]
    [mkGeoLevelNode
       [("id", "county"); ("name", "county"); ("min_zoom", "0"); ("sort_key", "1");
        ("shapefile", "county.shp"); ("namefield", "NAME")]
       [mkLBodyRef [("ref", "congress")] [[("ref", "t2")]; [("ref", "t3")]] []]]
    [mapserver] [database].

(** The catalog before any geolevel is processed. *)
Definition no_geolevels : Config :=
  mkConfig [congress] forest [t1; t2] [] [mapserver] [database].

Definition catalog0 : Store := fst (import_prereq no_geolevels empty_store).

(** The catalog after reconciliation, and the import of a shapefile into
    the county level with the one field [POPTOT]. *)
Definition catalog : Store := fst (import_prereq config empty_store).

Definition shape (path : string) : ShapeConfig :=
  mkShapeConfig (Some path) (Some "county") (Some "NAME") None [0%nat].

(** Stand-ins for the geounit table and for the interpreter.  The table
    takes a row unless its name is a text of more than 200 characters.  A
    dictionary is walked with the field [POP3] first and the others as
    they were inserted, which is how CPython 2.7 walks the dictionaries of
    these samples. *)
Definition geounit_storable (g : Geounit) : bool :=
  match gu_name g with
  | OFTString n => Nat.leb (String.length n) 200
  | _ => true
  end.

Definition is_pop3 (entry : option string * nat) : bool :=
  opt_eqb (fst entry) (Some "POP3").

Definition iteritems (d : list (option string * nat))
    : list (option string * nat) :=
  (filter is_pop3 d ++ filter (fun entry => negb (is_pop3 entry)) d)%list.

Definition run_import_shape : Config -> ShapeConfig -> Store -> Store * result unit :=
  import_shape simplify centroid within intersection DataSource
               number_storable geounit_storable iteritems.

Definition run_handle : Config -> option (list optval) -> Store -> Store * result unit :=
  handle simplify centroid within intersection DataSource
         number_storable geounit_storable iteritems.

End Sample.

(** ** Relations between stores, used to state what a command preserves *)

(** Every run of [m] relates the store before to the store after, whether
    it ends normally or raises. *)
Definition always {S A} (R : S -> S -> Prop) (m : ST S A) : Prop :=
  forall s s' r, m s = (s', r) -> R s s'.

(** The users are left as they are. *)
Definition same_users (s s' : Store) : Prop := users s' = users s.

(** A map server that accepts every call. *)
Definition accepting : list request -> request -> response :=
  fun _ _ => Status 200.

(** A provisioning command follows its plan: against any server it issues
    the calls it would issue against an accepting one, up to and including
    the first that is not accepted, and then answers [False]. *)
Definition follows_plan (m : (list request -> request -> response) -> P bool)
    : Prop :=
  forall server issued,
    m server issued =
    let full := m accepting [] in
    let i := issue server issued (fst full) in
    (fst i, if snd i then snd full else Ok false).

(** [l2] starts with the rows of [l1]. *)
Definition prefix {A} (l1 l2 : list A) : Prop := exists k, l2 = (l1 ++ k)%list.

Definition defaults_bodies (s : Store) : list nat :=
  map ld_legislative_body (defaults s).

(** The catalog of [t] extends that of [s]: every row of [s] is in [t], at
    its position; of a [LegislativeDefaults] row only the body counts. *)
Definition extends (s t : Store) : Prop :=
  prefix (bodies s) (bodies t) /\ prefix (subjects s) (subjects t)
  /\ prefix (targets s) (targets t) /\ prefix (geolevels s) (geolevels t)
  /\ prefix (levels s) (levels t)
  /\ prefix (defaults_bodies s) (defaults_bodies t).

(** The same catalog rows; the default target of a body may have changed. *)
Definition same_catalog (t t' : Store) : Prop :=
  bodies t' = bodies t /\ subjects t' = subjects t /\ targets t' = targets t
  /\ geolevels t' = geolevels t /\ levels t' = levels t
  /\ defaults_bodies t' = defaults_bodies t.

(** A command that, once it has run to its end, adds no catalog row when
    it runs again on a store that has kept what it left: it extends the
    catalog, and on any extension of the result it leaves the catalog rows
    as they are and, if it ends, gives the same value. *)
Definition replayable {A} (m : M A) : Prop :=
  forall s s1 a, m s = (s1, Ok a) ->
    extends s s1 /\
    forall t, extends s1 t -> forall t' r, m t = (t', r) ->
      same_catalog t t' /\ (forall a', r = Ok a' -> a' = a).

(** The parent level of a mapping is there: the [GeoLevel] that the
    [Parent] element [p] refers to has a row, and that row has a
    [LegislativeLevel] for the body and the target. *)
Definition parent_processed (c : Config) (p : attrs)
    (legislative_body target : nat) (s : Store) : Prop :=
  exists pconfig plvl g l,
    index0 (xpath_geolevel c (fmt_s (get p "ref"))) = Ok pconfig
    /\ nth_error (geolevels s) plvl = Some g
    /\ geolevel_named (get pconfig "name") g = true
    /\ In l (levels s)
    /\ level_of legislative_body plvl target l = true.

(** The exceptions of the parent lookup. *)
Definition missing_parent_error (e : exn) : Prop :=
  e = IndexError \/ e = DoesNotExist MGeolevel
  \/ e = MultipleObjectsReturned MGeolevel \/ e = DoesNotExist MLegislativeLevel.

(** The levels are left as they are. *)
Definition same_levels (s s' : Store) : Prop :=
  levels s' = levels s /\ geolevels s' = geolevels s.

(** The name of the subject a [Subject] element stands for: the subject
    it is an alias for, or itself. *)
Definition canonical_name (c : Config) (i : nat) : option string :=
  match get (subject_attrib c i) "aliasfor" with
  | Some a => Some a
  | None => get (subject_attrib c i) "id"
  end.

(** A row made from a [Subject] element that is not an alias. *)
Definition declared_subject (c : Config) (row : Subject) : Prop :=
  exists i, In i (xpath_subjects_with_id c)
            /\ get (subject_attrib c i) "aliasfor" = None
            /\ row = subject_row (subject_attrib c i).

(** The subject row [subject] carries the canonical name of the element
    that [ref] refers to. *)
Definition stored_against_canonical (c : Config) (ref : option string)
    (subject : nat) (s : Store) : Prop :=
  exists i row,
    index0 (xpath_subject c (fmt_s ref)) = Ok i
    /\ nth_error (subjects s) subject = Some row
    /\ su_name row = canonical_name c i.

Definition canonical_target (c : Config) (s : Store) (row : Target) : Prop :=
  exists targ, In targ (cfg_targets c)
               /\ stored_against_canonical c (get targ "subjectref")
                                           (ta_subject row) s.

(** What a command may add to the subjects and targets: subjects declared
    without [aliasfor], and targets of canonical subjects. *)
Definition alias_respecting (c : Config) (s s' : Store) : Prop :=
  (exists ks, subjects s' = (subjects s ++ ks)%list /\ Forall (declared_subject c) ks)
  /\ (exists kt, targets s' = (targets s ++ kt)%list
                 /\ Forall (canonical_target c s') kt).

(** The only children a [Subject] element has are the elements it is an
    alias for, put there by [import_geolevel]. *)
Definition forest_ok (f : SubjectForest) : Prop :=
  forall parent kid, In kid (node_kids f parent) ->
    exists a, get (node_attrib f parent) "aliasfor" = Some a
              /\ get (node_attrib f kid) "id" = Some a.

(** No subject row carries the [id] of an alias. *)
Definition no_alias_rows (c : Config) (s : Store) : Prop :=
  forall i a row,
    get (subject_attrib c i) "aliasfor" = Some a ->
    In row (subjects s) ->
    su_name row <> get (subject_attrib c i) "id".

(** The subject row [sub] carries the canonical name of one of the
    elements [nodes]. *)
Definition canonical_subject (c : Config) (nodes : list nat) (s : Store)
    (sub : nat) : Prop :=
  exists sconfig row,
    In sconfig nodes
    /\ nth_error (subjects s) sub = Some row
    /\ su_name row = canonical_name c sconfig.

(** What [import_shape] may do to a store: the catalog and the users stay,
    geounits are added at the end, and so are characteristics, of the
    subjects in [subs]. *)
Definition adds_characteristics (subs : list nat) (s s' : Store) : Prop :=
  same_catalog s s'
  /\ users s' = users s
  /\ prefix (geounits s) (geounits s')
  /\ exists k, characteristics s' = (characteristics s ++ k)%list
               /\ Forall (fun ch => In (ch_subject ch) subs) k.

(** What the import of geolevels may do to a store. *)
Definition imports (s s' : Store) : Prop :=
  same_catalog s s'
  /\ users s' = users s
  /\ prefix (geounits s) (geounits s')
  /\ prefix (characteristics s) (characteristics s').

(** The [id] of an alias is not the [id] of a subject that is not one. *)
Definition alias_ids_distinct (c : Config) : Prop :=
  forall i j a,
    get (subject_attrib c i) "aliasfor" = Some a ->
    get (subject_attrib c j) "aliasfor" = None ->
    get (subject_attrib c i) "id" <> get (subject_attrib c j) "id".

(** The geounits and characteristics are left as they are. *)
Definition same_units (s s' : Store) : Prop :=
  geounits s' = geounits s /\ characteristics s' = characteristics s.

Section GeounitsOfLayer.

Variable simplify : geometry -> result geometry.
Variable centroid : geometry -> result geometry.
Variable within : geometry -> geometry -> result bool.
Variable intersection : geometry -> geometry -> result geometry.

(** The geounit of a feature taken by itself. *)
Definition geounit_of (cfg : ShapeConfig) (level : nat) (feat : Feature)
    : result Geounit :=
  snd (feature_geounit simplify centroid within intersection cfg level Unbound feat).

(** The rows of the features of a layer that give one, in file order, and
    the ids of the features that do not. *)
Definition imported_rows (cfg : ShapeConfig) (level : nat) (lyr : list Feature)
    : list Geounit :=
  flat_map (fun feat => match geounit_of cfg level feat with
                        | Ok row => [row]
                        | Raise _ => []
                        end) lyr.

Definition skipped (cfg : ShapeConfig) (level : nat) (lyr : list Feature) : list Z :=
  flat_map (fun feat => match geounit_of cfg level feat with
                        | Ok _ => []
                        | Raise _ => [fid feat]
                        end) lyr.

(** What [my_geom] can hold from an earlier feature: nothing, or a
    geometry on which the repair fails. *)
Definition stale (my_geom : local geometry) : Prop :=
  match my_geom with
  | Bound g => is_ok (repair simplify centroid within intersection g) = false
  | _ => True
  end.

End GeounitsOfLayer.

(** The features whose geometry failure was printed. *)
Fixpoint geometry_failures (l : list event) : list Z :=
  match l with
  | [] => []
  | FailedGeometry i :: r => i :: geometry_failures r
  | FailedValue _ _ :: r => geometry_failures r
  end.

(** The name field, and the supplemental id field if one is configured,
    are present in every feature of the layer. *)
Definition fields_present (cfg : ShapeConfig) (lyr : list Feature) : Prop :=
  forall feat, In feat lyr ->
    is_ok (feat_get feat (name_field cfg)) = true
    /\ (truthy (supplemental_id_field cfg) = true ->
        is_ok (feat_get feat (supplemental_id_field cfg)) = true).

(** The geounits and the printed geometry failures are left as they are. *)
Definition same_geounits (s s' : Store) : Prop :=
  geounits s' = geounits s
  /\ geometry_failures (printed s') = geometry_failures (printed s).

(** ** Specifications of commands *)

(** From a store that satisfies [P], the command ends in a store that
    satisfies [Q] of its value, or raises in a store that satisfies [E]. *)
Definition hoare {S A} (P : S -> Prop) (m : ST S A) (Q : A -> S -> Prop)
    (E : S -> Prop) : Prop :=
  forall s s' r, P s -> m s = (s', r) ->
    match r with Ok a => Q a s' | Raise _ => E s' end.

(** ** Referential integrity of the catalog *)

(** A level refers to rows that exist; its parent, if it has one, is a
    level of the same body and target. *)
Definition level_wf (s : Store) (l : LegislativeLevel) : Prop :=
  (ll_legislative_body l < List.length (bodies s))%nat
  /\ (ll_geolevel l < List.length (geolevels s))%nat
  /\ (ll_target l < List.length (targets s))%nat
  /\ match ll_parent l with
     | None => True
     | Some p => exists pl, nth_error (levels s) p = Some pl
                            /\ ll_legislative_body pl = ll_legislative_body l
                            /\ ll_target pl = ll_target l
     end.

Definition default_wf (s : Store) (d : LegislativeDefaults) : Prop :=
  (ld_legislative_body d < List.length (bodies s))%nat
  /\ match ld_target d with
     | None => True
     | Some t => (t < List.length (targets s))%nat
     end.

Definition catalog_wf (s : Store) : Prop :=
  Forall (fun t => (ta_subject t < List.length (subjects s))%nat) (targets s)
  /\ Forall (level_wf s) (levels s)
  /\ Forall (default_wf s) (defaults s).

(** A part of the store is left as it is. *)
Definition unchanged {T} (part : Store -> T) (s s' : Store) : Prop :=
  part s' = part s.

(** Each of the rows [done] is the one row its own key finds in [l]. *)
Definition found_once {Row} (key : Row -> Row -> bool) (done : list Row)
    (l : list Row) : Prop :=
  Forall (fun d => exists j, positions (key d) 0 l = [j]) done.

Definition body_key (a r : LegislativeBody) : bool :=
  body_is (lb_name a) (lb_member a) (lb_max_districts a) r.

(** The users of [s] are still there, under their names. *)
Definition users_kept (s s' : Store) : Prop :=
  prefix (map us_username (users s)) (map us_username (users s')).

(** The catalog and the users are left as they are. *)
Definition catalog_untouched (s s' : Store) : Prop :=
  bodies s' = bodies s /\ subjects s' = subjects s /\ targets s' = targets s
  /\ geolevels s' = geolevels s /\ levels s' = levels s
  /\ defaults s' = defaults s /\ users s' = users s.

(** A geounit of the level named [name], with multipolygons for its
    geometry and its simplified geometry. *)
Definition geounit_wf (s : Store) (name : option string) (g : Geounit) : Prop :=
  geom_type (gu_geom g) = KMultiPolygon
  /\ geom_type (gu_simple g) = KMultiPolygon
  /\ exists lvl, nth_error (geolevels s) (gu_geolevel g) = Some lvl
                 /\ ge_name lvl = name.

(** What [my_geom] holds, if anything, is a multipolygon. *)
Definition multipolygon_local (my_geom : local geometry) : Prop :=
  match my_geom with
  | Bound g => geom_type g = KMultiPolygon
  | _ => True
  end.

(** What the loop over the features adds: geounits of one level, with
    multipolygon geometries. *)
Definition adds_geounits (level : nat) (s s' : Store) : Prop :=
  catalog_untouched s s'
  /\ exists k, geounits s' = (geounits s ++ k)%list
               /\ Forall (fun g => geom_type (gu_geom g) = KMultiPolygon
                                   /\ geom_type (gu_simple g) = KMultiPolygon
                                   /\ gu_geolevel g = level) k.

(** The geounit and the subject of a characteristic. *)
Definition characteristic_key (ch : Characteristic) : nat * nat :=
  (ch_geounit ch, ch_subject ch).

(** One characteristic for each subject of [so], for each of [n] geounits
    from position [first] on. *)
Definition expected_keys (so : list (option string * nat)) (first n : nat)
    : list (nat * nat) :=
  flat_map (fun g => map (fun entry => (g, snd entry)) so) (seq first n).

(** [iteritems] gives every entry of a dictionary once, in some order. *)
Definition walks_entries
    (iteritems : list (option string * nat) -> list (option string * nat)) : Prop :=
  forall d, Permutation (iteritems d) d.

(** [subject_objects[key]] *)
Fixpoint dict_get (d : list (option string * nat)) (k : option string) : option nat :=
  match d with
  | [] => None
  | (k', v) :: r => if opt_eqb k' k then Some v else dict_get r k
  end.

(** The ['field'] of a subject element. *)
Definition field_of (c : Config) (sconfig : nat) : option string :=
  get (subject_attrib c sconfig) "field".

(** [sconfig] is the last of [nodes] with the field [field]. *)
Definition last_with_field (c : Config) (nodes : list nat) (field : option string)
    (sconfig : nat) : Prop :=
  exists pre post,
    nodes = (pre ++ sconfig :: post)%list
    /\ field_of c sconfig = field
    /\ forall x, In x post -> field_of c x <> field.

(** A value of the [--geolevel] option as the command line gives it: a
    string. *)
Definition is_string_option (v : optval) : Prop := exists t, v = OptStr t.

(** The calls issued are all calls that satisfy [Q]. *)
Definition issues (Q : request -> Prop) (issued issued' : list request) : Prop :=
  exists k, issued' = (issued ++ k)%list /\ Forall Q k.

(** A call of the provisioning: to [host], with [credentials], a [POST] or
    a [PUT] of a resource of the REST API. *)
Definition provisioning_call (host : option string) (credentials : string)
    (rq : request) : Prop :=
  rq_host rq = host
  /\ rq_credentials rq = credentials
  /\ (rq_method rq = "POST" \/ rq_method rq = "PUT")
  /\ String.prefix "/geoserver/rest/" (rq_url rq) = true.

(** A command that has issued [n] calls whenever it answers [True]. *)
Definition counts (n : nat) (m : P bool) : Prop :=
  forall issued issued', m issued = (issued', Ok true) ->
    List.length issued' = (List.length issued + n)%nat.

(** The number of calls of a complete provisioning. *)
Definition calls_of (gls : list Geolevel) (subjs : list Subject) : nat :=
  4 + List.length gls
      * (1 + 4 * List.length subjs + match subjs with [] => 0 | _ => 8 end).

(** ** [create_views]: the views behind the map layers

    The statements are the source's, cut at the view's name.  A primary key
    is the row's position, as everywhere in this model. *)

Definition create_view (name select : string) : string :=
  "CREATE OR REPLACE VIEW " ++ name ++ " AS " ++ select.

(** ['%d'] of a primary key. *)
Definition pk_text (id : nat) : string :=
  NilEmpty.string_of_uint (Nat.to_uint id).

(** [Model.objects.all()]: the rows with their primary keys. *)
Definition objects_all {R} (t : list R) : list (nat * R) :=
  combine (seq 0 (List.length t)) t.

Section Views.

(** The database: whether it executes a statement, after those committed
    before it. *)
Variable executes : list string -> string -> bool.

(** [cursor.execute(sql)], then [transaction.commit()]. *)
Definition execute (sql : string) : ST (list string) unit :=
  fun committed =>
    if executes committed sql then ((committed ++ [sql])%list, Ok tt)
    else (committed, Raise DatabaseError).

(** Lines 408-447. *)
Definition create_views (s : Store) : ST (list string) unit :=
  execute (create_view "simple_district"
    "SELECT rd.id, rd.district_id, rd.name, rd.version, rd.plan_id, rc.subject_id, rc.number, rd.simple AS geom FROM redistricting_district rd JOIN redistricting_computedcharacteristic rc ON rd.id = rc.district_id WHERE rd.version = (( SELECT max(redistricting_district.version) AS max FROM redistricting_district WHERE redistricting_district.district_id = rd.district_id));") ;;;
  execute (create_view "identify_geounit"
    "SELECT rg.id, rg.name, rg.geolevel_id, rg.geom, rc.number, rc.percentage, rc.subject_id FROM redistricting_geounit rg JOIN redistricting_characteristic rc ON rg.id = rc.geounit_id;") ;;;
  for_each (objects_all (geolevels s)) (fun geolevel =>
    execute (create_view ("simple_" ++ fmt_s (ge_name (snd geolevel)))
      ("SELECT id, name, geolevel_id, simple as geom FROM redistricting_geounit WHERE geolevel_id = "
       ++ pk_text (fst geolevel) ++ ";")) ;;;
    for_each (objects_all (subjects s)) (fun subject =>
      execute (create_view
        ("demo_" ++ fmt_s (ge_name (snd geolevel)) ++ "_" ++ fmt_s (su_name (snd subject)))
        ("SELECT rg.id, rg.name, rg.geolevel_id, rg.geom, rc.number, rc.percentage FROM redistricting_geounit rg JOIN redistricting_characteristic rc ON rg.id = rc.geounit_id WHERE rc.subject_id = "
         ++ pk_text (fst subject) ++ " AND rg.geolevel_id = "
         ++ pk_text (fst geolevel) ++ ";")))).

End Views.

(** A view of that name is among the statements committed. *)
Definition has_view (committed : list string) (name : string) : Prop :=
  exists select, In (create_view name select) committed.

(** The table a feature type is published from: its native name, or its
    own. *)
Definition native_name (name : string) (native : option string) : string :=
  match native with Some n => n | None => name end.

(** A call that, when it posts a feature type, posts one whose table is a
    view committed. *)
Definition backed (namespace : string) (e : extent) (committed : list string)
    (rq : request) : Prop :=
  rq_url rq = featuretypes_url namespace ->
  exists name native,
    feature_type name native e = Ok (rq_data rq)
    /\ has_view committed (native_name name native).

(** ** Two imports of the same layers *)

(** The characteristics [k], of geounits [n] positions further on. *)
Definition shifted (n : nat) (k : list Characteristic) : list Characteristic :=
  map (fun ch => mkCharacteristic (ch_subject ch) (ch_number ch)
                                  (ch_geounit ch + n)) k.

(** The store [t] has the subjects and the geolevels of [s], and [n]
    geounits more. *)
Definition agree (n : nat) (s t : Store) : Prop :=
  subjects t = subjects s /\ geolevels t = geolevels s
  /\ List.length (geounits t) = (List.length (geounits s) + n)%nat.

(** The step from [t] to [t'] repeats the step from [s] to [s']: it adds
    the same geounits, and the same characteristics for them; subjects and
    geolevels stay. *)
Definition replays (n : nat) (s s' t t' : Store) : Prop :=
  exists kg kc,
    geounits s' = (geounits s ++ kg)%list
    /\ geounits t' = (geounits t ++ kg)%list
    /\ characteristics s' = (characteristics s ++ kc)%list
    /\ characteristics t' = (characteristics t ++ shifted n kc)%list
    /\ subjects s' = subjects s /\ geolevels s' = geolevels s
    /\ subjects t' = subjects t /\ geolevels t' = geolevels t.

(** * Properties *)

(** ** The state monad *)

Section AlwaysRules.

Context {S : Type} (R : S -> S -> Prop).
Hypothesis R_refl : forall s, R s s.
Hypothesis R_trans : forall a b c, R a b -> R b c -> R a c.

Lemma always_ret {A} (a : A) : always R (ret a).
Proof. intros s s' r H. inversion H. apply R_refl. Qed.

Lemma always_raise {A} (e : exn) : always R (@raise S A e).
Proof. intros s s' r H. inversion H. apply R_refl. Qed.

Lemma always_lift {A} (x : result A) : always R (lift x).
Proof. intros s s' r H. inversion H. apply R_refl. Qed.

Lemma always_bind {A B} (m : ST S A) (f : A -> ST S B) :
  always R m -> (forall a, always R (f a)) -> always R (bind m f).
Proof.
  intros Hm Hf s s' r H. unfold bind in H.
  destruct (m s) as [s1 [a|e]] eqn:E.
  - eapply R_trans; [eapply Hm; eauto | eapply Hf; eauto].
  - inversion H; subst. eapply Hm; eauto.
Qed.

Lemma always_for_each {A} (xs : list A) (body : A -> ST S unit) :
  (forall x, In x xs -> always R (body x)) -> always R (for_each xs body).
Proof.
  induction xs as [|x xs IH]; intros Hb; simpl.
  - apply always_ret.
  - apply always_bind.
    + apply Hb. now left.
    + intros _. apply IH. intros y Hy. apply Hb. now right.
Qed.

End AlwaysRules.

Lemma always_query {A} (R : Store -> Store -> Prop) (f : Store -> result A) :
  (forall s, R s s) -> always R (query f).
Proof. intros HR s s' r H. inversion H. apply HR. Qed.

Lemma always_get_or_create_in {Row} (R : Store -> Store -> Prop)
    (tbl : Store -> list Row) (set : list Row -> Store -> Store) m p new :
  (forall s, R s (set (tbl s) s)) ->
  (forall s, R s (set (tbl s ++ [new])%list s)) ->
  always R (get_or_create_in tbl set m p new).
Proof.
  intros H1 H2 s s' r H. unfold get_or_create_in, objects_get_or_create in H.
  destruct (positions p 0 (tbl s)) as [|i [|j l]]; inversion H; subst; auto.
Qed.

(** ** Bind inversion *)

Lemma bind_ok {S A B} (m : ST S A) (f : A -> ST S B) s s' b :
  bind m f s = (s', Ok b) ->
  exists a s1, m s = (s1, Ok a) /\ f a s1 = (s', Ok b).
Proof.
  unfold bind. destruct (m s) as [s1 [a|e]]; intros H.
  - eauto.
  - discriminate.
Qed.

Lemma bind_run {S A B} (m : ST S A) (f : A -> ST S B) s s1 a :
  m s = (s1, Ok a) -> bind m f s = f a s1.
Proof. intros H. unfold bind. now rewrite H. Qed.

Lemma bind_raise {S A B} (m : ST S A) (f : A -> ST S B) s s1 e :
  m s = (s1, Raise e) -> bind m f s = (s1, Raise e).
Proof. intros H. unfold bind. now rewrite H. Qed.

(** Decomposition of a command along its binds, loops and branches; [side]
    closes the facts about the relation itself. *)
Ltac always_tac side :=
  repeat (intros; cbv zeta;
    match goal with
    | |- always _ (ret _) => apply always_ret
    | |- always _ (lift _) => apply always_lift
    | |- always _ (query _) => apply always_query
    | |- always _ (bind _ _) => apply always_bind
    | |- always _ (for_each _ _) => apply always_for_each
    | |- always _ (get_or_create_in _ _ _ _ _) => apply always_get_or_create_in
    | |- always _ (if ?b then _ else _) => destruct b
    | |- always _ (match ?x with _ => _ end) => destruct x
    | |- always _ (fun _ => _) =>
        let H := fresh in intros ? ? ? H; inversion H; subst; clear H
    | |- always _ (import_body _) => unfold import_body
    | |- always _ (import_subject _ _) => unfold import_subject
    | |- always _ (import_target _ _) => unfold import_target
    | |- always _ (set_default _ _) => unfold set_default
    | |- always _ (find_parent _ _ _ _) => unfold find_parent
    | |- always _ (resolve_target _ _) => unfold resolve_target
    | |- always _ (import_level _ _ _ _ _) => unfold import_level
    | |- always _ (import_lbody _ _ _) => unfold import_lbody
    | |- always _ (import_geolevel_row _ _) => unfold import_geolevel_row
    | |- always _ (import_anonymous) => unfold import_anonymous
    end); side.

(** ** The users table *)

Lemma same_users_refl s : same_users s s.
Proof. reflexivity. Qed.

Lemma same_users_trans a b c : same_users a b -> same_users b c -> same_users a c.
Proof. unfold same_users. congruence. Qed.

Ltac same_users_side :=
  try solve [ apply same_users_refl | exact same_users_trans
            | intros; reflexivity ].

Lemma import_body_users body : always same_users (import_body body).
Proof. always_tac same_users_side. Qed.

Lemma import_subject_users c i : always same_users (import_subject c i).
Proof. always_tac same_users_side. Qed.

Lemma import_target_users c targ : always same_users (import_target c targ).
Proof. always_tac same_users_side. Qed.

Lemma import_geolevel_row_users c node :
  always same_users (import_geolevel_row c node).
Proof. always_tac same_users_side. Qed.

(** The four phases before the anonymous user leave the users alone. *)
Lemma catalog_phases_users c :
  always same_users
    (for_each (xpath_bodies_with_id c) import_body ;;;
     for_each (xpath_subjects_with_id c) (import_subject c) ;;;
     for_each (cfg_targets c) (import_target c) ;;;
     for_each (cfg_geolevels c) (import_geolevel_row c)).
Proof. always_tac same_users_side. Qed.

Lemma import_prereq_split c s s' r :
  import_prereq c s = (s', r) ->
  (exists e, r = Raise e /\ same_users s s') \/
  (exists s4, same_users s s4 /\ import_anonymous s4 = (s', r)).
Proof.
  unfold import_prereq. intros H.
  destruct ((for_each (xpath_bodies_with_id c) import_body ;;;
             for_each (xpath_subjects_with_id c) (import_subject c) ;;;
             for_each (cfg_targets c) (import_target c) ;;;
             for_each (cfg_geolevels c) (import_geolevel_row c)) s)
    as [s4 r4] eqn:E.
  pose proof (catalog_phases_users c _ _ _ E) as Hu.
  assert (Hassoc :
    (for_each (xpath_bodies_with_id c) import_body ;;;
     for_each (xpath_subjects_with_id c) (import_subject c) ;;;
     for_each (cfg_targets c) (import_target c) ;;;
     for_each (cfg_geolevels c) (import_geolevel_row c) ;;;
     import_anonymous) s =
    match r4 with Ok _ => import_anonymous s4 | Raise e => (s4, Raise e) end).
  { revert E. unfold bind.
    destruct (for_each (xpath_bodies_with_id c) import_body s) as [s1 [[]|e1]];
      [|intros E; inversion E; reflexivity].
    destruct (for_each (xpath_subjects_with_id c) (import_subject c) s1) as [s2 [[]|e2]];
      [|intros E; inversion E; reflexivity].
    destruct (for_each (cfg_targets c) (import_target c) s2) as [s3 [[]|e3]];
      [|intros E; inversion E; reflexivity].
    intros E; rewrite E. reflexivity. }
  rewrite Hassoc in H. destruct r4 as [[]|e].
  - right. exists s4. split; assumption.
  - left. inversion H; subst. exists e. split; [reflexivity | assumption].
Qed.

(** C10. A successful [import_prereq] on a store without a user named
    'anonymous' adds that user with no password set; on a store that has
    the user already, it sets the password of that user to 'anonymous'. *)
Theorem anonymous_password c s s' :
  import_prereq c s = (s', Ok tt) ->
  (positions (user_named "anonymous") 0 (users s) = [] ->
   users s' = (users s ++ [mkUser "anonymous" None])%list) /\
  (forall i, positions (user_named "anonymous") 0 (users s) = [i] ->
   users s' = update_nth i (fun u => mkUser (us_username u) (Some "anonymous"))
                         (users s)).
Proof.
  intros H. apply import_prereq_split in H.
  destruct H as [[e [He _]]|[s4 [Hu H]]]; [discriminate|].
  unfold same_users in Hu. rewrite <- Hu.
  unfold import_anonymous, bind, get_or_create_in, objects_get_or_create in H.
  split.
  - intros Hp. rewrite Hp in H. simpl in H. inversion H. reflexivity.
  - intros i Hp. rewrite Hp in H. simpl in H. inversion H. reflexivity.
Qed.

Lemma anonymous_password_witness :
  users (fst (import_prereq Sample.config empty_store))
  = [mkUser "anonymous" None]
  /\ users (fst (import_prereq Sample.config
                   (fst (import_prereq Sample.config empty_store))))
     = [mkUser "anonymous" (Some "anonymous")].
Proof.
  split.
  - refine (proj1 (anonymous_password Sample.config empty_store
                     (fst (import_prereq Sample.config empty_store)) _) _);
      vm_compute; reflexivity.
  - refine (proj2 (anonymous_password Sample.config
                     (fst (import_prereq Sample.config empty_store))
                     (fst (import_prereq Sample.config
                             (fst (import_prereq Sample.config empty_store))))
                     _) 0%nat _);
      vm_compute; reflexivity.
Defined.

(** ** The characteristic quantizer *)

(** Whatever the text, the rounding of line 720 is that of the default
    context, half-even: the [ROUND_DOWN] it names plays no part. *)
Lemma characteristic_value_half_even raw :
  characteristic_value raw
  = (v <~ PyDecimal.of_string raw None ;;
     PyDecimal.quantize v (PyDecimal.Finite false 0 (-4))
       (Some PyDecimal.ROUND_HALF_EVEN) PyDecimal.DefaultContext).
Proof.
  unfold characteristic_value, rbind.
  destruct (PyDecimal.of_string raw None) as [v|e]; reflexivity.
Qed.

(** C1. On the text "1.23456" line 720 gives 1.2346: the value is rounded
    half-even, the rounding of the default context, where truncation
    toward zero at four fractional digits gives 1.2345. *)
Theorem characteristic_value_rounds :
  characteristic_value "1.23456" = Ok (PyDecimal.Finite false 12346 (-4))
  /\ truncated_value "1.23456" = Ok (PyDecimal.Finite false 12345 (-4)).
Proof. split; vm_compute; reflexivity. Qed.

(** ** The provisioning sequence *)

Lemma issue_app server plan1 : forall issued plan2,
  issue server issued (plan1 ++ plan2) =
  if snd (issue server issued plan1)
  then issue server (fst (issue server issued plan1)) plan2
  else issue server issued plan1.
Proof.
  induction plan1 as [|rq plan1 IH]; intros issued plan2; simpl.
  - reflexivity.
  - destruct (accepted (server issued rq)); [apply IH | reflexivity].
Qed.

Lemma issue_accepting plan : forall issued,
  issue accepting issued plan = ((issued ++ plan)%list, true).
Proof.
  induction plan as [|rq plan IH]; intros issued; simpl.
  - now rewrite app_nil_r.
  - rewrite IH, <- app_assoc. reflexivity.
Qed.

Lemma follows_plan_accepting m issued :
  follows_plan m ->
  m accepting issued = ((issued ++ fst (m accepting []))%list, snd (m accepting [])).
Proof.
  intros H. rewrite (H accepting issued). cbv zeta.
  rewrite issue_accepting. reflexivity.
Qed.

Lemma follows_plan_ret b : follows_plan (fun _ => ret b).
Proof. intros server issued. reflexivity. Qed.

Lemma follows_plan_rest_config method host url data credentials content_type :
  follows_plan (fun server =>
    rest_config server method host url data credentials content_type).
Proof.
  intros server issued. unfold rest_config. cbn.
  destruct (server issued _) as [code|]; cbn; [|reflexivity].
  destruct (code =? 201) eqn:E1, (code =? 200) eqn:E2; reflexivity.
Qed.

Lemma follows_plan_and_then call rest :
  follows_plan call -> follows_plan rest ->
  follows_plan (fun server => and_then (call server) (rest server)).
Proof.
  intros Hc Hr server issued. unfold and_then, bind.
  rewrite (Hc server issued). cbv zeta.
  destruct (call accepting []) as [p1 r1] eqn:E1. cbn [fst snd].
  destruct r1 as [[|]|e].
  - rewrite (follows_plan_accepting rest p1 Hr).
    destruct (rest accepting []) as [p2 r2] eqn:E2. cbn [fst snd].
    rewrite issue_app.
    destruct (issue server issued p1) as [i1 [|]] eqn:Ei; cbn [fst snd].
    + rewrite (Hr server i1). cbv zeta. rewrite E2. reflexivity.
    + reflexivity.
  - cbn. destruct (issue server issued p1) as [i1 [|]]; reflexivity.
  - cbn. destruct (issue server issued p1) as [i1 [|]]; reflexivity.
Qed.

Lemma follows_plan_lift {A} (x : result A) k :
  (forall a, follows_plan (fun server => k server a)) ->
  follows_plan (fun server => bind (lift x) (k server)).
Proof.
  intros Hk. destruct x as [a|e].
  - exact (Hk a).
  - intros server issued. reflexivity.
Qed.

Section PlanOfLayers.

Variable read_file : string -> option string.
Variables (host : option string) (namespace credentials styledir : string).
Variable e : extent.

Lemma follows_plan_post_feature_type name native :
  follows_plan (fun server =>
    post_feature_type server host namespace credentials e name native).
Proof.
  unfold post_feature_type. apply follows_plan_lift.
  intros data. apply follows_plan_rest_config.
Qed.

Lemma follows_plan_style_layer g style layer rest :
  follows_plan rest ->
  follows_plan (fun server =>
    style_layer server read_file host namespace credentials styledir
                g style layer (rest server)).
Proof.
  intros Hr. unfold style_layer, with_style.
  destruct (get_style_contents read_file styledir g style) as [sld|].
  - repeat (apply follows_plan_and_then; [apply follows_plan_rest_config|]).
    exact Hr.
  - apply follows_plan_ret.
Qed.

Lemma follows_plan_subject_layers g s firstsubj :
  follows_plan (fun server =>
    subject_layers server read_file host namespace credentials styledir e
                   g s firstsubj).
Proof.
  unfold subject_layers.
  apply follows_plan_and_then; [apply follows_plan_post_feature_type|].
  apply follows_plan_style_layer.
  destruct firstsubj; [|apply follows_plan_ret].
  apply follows_plan_and_then; [apply follows_plan_post_feature_type|].
  apply follows_plan_style_layer.
  apply follows_plan_and_then; [apply follows_plan_post_feature_type|].
  apply follows_plan_style_layer.
  apply follows_plan_ret.
Qed.

Lemma follows_plan_subjects_layers g subjs : forall firstsubj,
  follows_plan (fun server =>
    subjects_layers server read_file host namespace credentials styledir e
                    g subjs firstsubj).
Proof.
  induction subjs as [|s subjs IH]; intros firstsubj; simpl.
  - apply follows_plan_ret.
  - apply follows_plan_and_then; [apply follows_plan_subject_layers | apply IH].
Qed.

Lemma follows_plan_geolevels_layers gls subjs :
  follows_plan (fun server =>
    geolevels_layers server read_file host namespace credentials styledir e
                     gls subjs).
Proof.
  induction gls as [|gl gls IH]; simpl.
  - apply follows_plan_ret.
  - apply follows_plan_and_then; [apply follows_plan_post_feature_type|].
    apply follows_plan_and_then; [apply follows_plan_subjects_layers | apply IH].
Qed.

End PlanOfLayers.

Lemma follows_plan_configure_geoserver read_file c e s :
  follows_plan (fun server => configure_geoserver server read_file c e s).
Proof.
  unfold configure_geoserver. apply follows_plan_lift. intros mapconfig.
  apply follows_plan_and_then; [apply follows_plan_rest_config|].
  apply follows_plan_lift. intros dbconfig.
  apply follows_plan_and_then; [apply follows_plan_rest_config|].
  apply follows_plan_and_then; [apply follows_plan_post_feature_type|].
  apply follows_plan_and_then; [apply follows_plan_post_feature_type|].
  apply follows_plan_geolevels_layers.
Qed.

(** C9, as the code has it. Against any server, [configure_geoserver]
    issues the calls of its sequence in order and goes on to the next call
    exactly when the response status is 200 or 201; the first call answered
    otherwise (another status, or a connection failure) is the last one
    issued, the calls issued before it stay issued, and the command
    answers [False]. *)
Theorem configure_geoserver_sequence server read_file c e s issued :
  configure_geoserver server read_file c e s issued =
  let full := configure_geoserver accepting read_file c e s [] in
  let i := issue server issued (fst full) in
  (fst i, if snd i then snd full else Ok false).
Proof. exact (follows_plan_configure_geoserver read_file c e s server issued). Qed.

(** C9, as stated, fails: a server that answers 204, a success status, to
    every call gets the namespace call and nothing after it. *)
Lemma configure_geoserver_204_aborts :
  let server := fun (_ : list request) (_ : request) => Status 204 in
  let run := configure_geoserver server (fun _ => Some "<sld/>") Sample.config
               (Some ("0.0", "0.0", "1.0", "1.0"))
               (fst (import_prereq Sample.config empty_store)) [] in
  is_2xx (Status 204) = true
  /\ map rq_url (fst run) = ["/geoserver/rest/namespaces"]
  /\ snd run = Ok false
  /\ List.length (fst (configure_geoserver accepting (fun _ => Some "<sld/>")
                         Sample.config (Some ("0.0", "0.0", "1.0", "1.0"))
                         (fst (import_prereq Sample.config empty_store)) []))
     = 30%nat.
Proof. vm_compute. repeat split. Qed.

(** ** Tables and lookups *)

Lemma positions_app {R} (p : R -> bool) l : forall n k,
  positions p n (l ++ k) = (positions p n l ++ positions p (n + List.length l) k)%list.
Proof.
  induction l as [|r l IH]; intros n k; simpl.
  - now rewrite Nat.add_0_r.
  - rewrite IH, Nat.add_succ_r. simpl. destruct (p r); reflexivity.
Qed.

Lemma positions_map {R Q} (g : R -> Q) (q : Q -> bool) l : forall n,
  positions (fun r => q (g r)) n l = positions q n (map g l).
Proof.
  induction l as [|r l IH]; intros n; simpl.
  - reflexivity.
  - rewrite IH. reflexivity.
Qed.

Lemma positions_in {R} (p : R -> bool) l : forall n i,
  In i (positions p n l) ->
  exists r, nth_error l (i - n) = Some r /\ p r = true /\ (n <= i)%nat.
Proof.
  induction l as [|r l IH]; intros n i H; simpl in H.
  - contradiction.
  - destruct (p r) eqn:E.
    + destruct H as [H|H].
      * subst. exists r. rewrite Nat.sub_diag. auto.
      * apply IH in H. destruct H as [r' [H1 [H2 H3]]].
        exists r'. replace (i - n)%nat with (S (i - S n)) by lia. simpl.
        repeat split; auto; lia.
    + apply IH in H. destruct H as [r' [H1 [H2 H3]]].
      exists r'. replace (i - n)%nat with (S (i - S n)) by lia. simpl.
      repeat split; auto; lia.
Qed.

Lemma positions_created {R} (p : R -> bool) l new :
  p new = true -> positions p 0 l = [] ->
  positions p 0 (l ++ [new]) = [List.length l].
Proof.
  intros Hn Hl. rewrite positions_app, Hl. simpl. now rewrite Hn.
Qed.

Lemma prefix_refl {A} (l : list A) : prefix l l.
Proof. exists []. now rewrite app_nil_r. Qed.

Lemma prefix_trans {A} (a b c : list A) : prefix a b -> prefix b c -> prefix a c.
Proof.
  intros [k ->] [k' ->]. exists (k ++ k')%list. now rewrite app_assoc.
Qed.

Lemma prefix_app {A} (l k : list A) : prefix l (l ++ k).
Proof. now exists k. Qed.

(** A lookup that finds one row in a table finds the same row, or more
    than one, in a table that starts with it. *)
Lemma positions_prefix {R} (p : R -> bool) l l' i :
  prefix l l' -> positions p 0 l = [i] ->
  exists more, positions p 0 l' = i :: more.
Proof.
  intros [k ->] H. rewrite positions_app, H. simpl. eauto.
Qed.

Lemma objects_get_prefix {R} m (p : R -> bool) l l' i i' :
  prefix l l' -> objects_get m p l = Ok i -> objects_get m p l' = Ok i' -> i' = i.
Proof.
  unfold objects_get. intros Hp H H'.
  destruct (positions p 0 l) as [|j [|? ?]] eqn:E; inversion H; subst.
  destruct (positions_prefix p l l' i Hp E) as [more Hm]. rewrite Hm in H'.
  destruct more; inversion H'. reflexivity.
Qed.

Lemma objects_filter_0_prefix {R} (p : R -> bool) l l' i i' :
  prefix l l' -> objects_filter_0 p l = Ok i -> objects_filter_0 p l' = Ok i' ->
  i' = i.
Proof.
  unfold objects_filter_0, index0. intros [k ->] H H'.
  rewrite positions_app in H'.
  destruct (positions p 0 l) as [|j ?]; inversion H; subst.
  simpl in H'. inversion H'. reflexivity.
Qed.

Lemma update_nth_map {R Q} (g : R -> Q) (f : R -> R) :
  (forall r, g (f r) = g r) ->
  forall l i, map g (update_nth i f l) = map g l.
Proof.
  intros Hg. induction l as [|r l IH]; intros [|i]; simpl; try reflexivity.
  - now rewrite Hg.
  - now rewrite IH.
Qed.

Lemma update_nth_length {R} (f : R -> R) : forall l i,
  List.length (update_nth i f l) = List.length l.
Proof.
  induction l as [|r l IH]; intros [|i]; simpl; try reflexivity.
  now rewrite IH.
Qed.

(** ** Replaying a command *)

Lemma extends_refl s : extends s s.
Proof. unfold extends. repeat split; apply prefix_refl. Qed.

Lemma extends_trans a b c : extends a b -> extends b c -> extends a c.
Proof.
  unfold extends. intros (A1 & A2 & A3 & A4 & A5 & A6) (B1 & B2 & B3 & B4 & B5 & B6).
  repeat split; eapply prefix_trans; eauto.
Qed.

Lemma same_catalog_refl s : same_catalog s s.
Proof. unfold same_catalog. repeat split. Qed.

Lemma same_catalog_trans a b c :
  same_catalog a b -> same_catalog b c -> same_catalog a c.
Proof.
  unfold same_catalog.
  intros (A1 & A2 & A3 & A4 & A5 & A6) (B1 & B2 & B3 & B4 & B5 & B6).
  repeat split; congruence.
Qed.

Lemma same_catalog_extends s t : same_catalog s t -> extends s t.
Proof.
  unfold same_catalog, extends. intros (A1 & A2 & A3 & A4 & A5 & A6).
  rewrite A1, A2, A3, A4, A5, A6. repeat split; apply prefix_refl.
Qed.

Lemma extends_same_catalog s t t' :
  extends s t -> same_catalog t t' -> extends s t'.
Proof.
  intros H1 H2. eapply extends_trans; [exact H1 | now apply same_catalog_extends].
Qed.

Lemma replayable_ret {A} (a : A) : replayable (ret a).
Proof.
  intros s s1 a0 H. inversion H; subst. split; [apply extends_refl|].
  intros t _ t' r Ht. inversion Ht; subst. split; [apply same_catalog_refl|].
  intros a' Ha. now inversion Ha.
Qed.

Lemma replayable_lift {A} (x : result A) : replayable (lift x).
Proof.
  intros s s1 a H. inversion H; subst. split; [apply extends_refl|].
  intros t _ t' r Ht. inversion Ht; subst. split; [apply same_catalog_refl|].
  intros a' Ha. now inversion Ha.
Qed.

Lemma replayable_bind {A B} (m : M A) (f : A -> M B) :
  replayable m -> (forall a, replayable (f a)) -> replayable (bind m f).
Proof.
  intros Hm Hf s s2 b H. apply bind_ok in H. destruct H as (a & s1 & H1 & H2).
  destruct (Hm _ _ _ H1) as [E1 R1]. destruct (Hf a _ _ _ H2) as [E2 R2].
  split; [eapply extends_trans; eauto|].
  intros t Et t' r Ht. unfold bind in Ht.
  destruct (m t) as [t1 r1] eqn:Emt.
  destruct (R1 t (extends_trans _ _ _ E2 Et) _ _ Emt) as [C1 O1].
  destruct r1 as [a1|e].
  - rewrite (O1 a1 eq_refl) in Ht.
    destruct (R2 t1 (extends_same_catalog _ _ _ Et C1) _ _ Ht) as [C2 O2].
    split; [eapply same_catalog_trans; eauto | exact O2].
  - inversion Ht; subst. split; [exact C1 | intros a' Ha; discriminate].
Qed.

Lemma replayable_for_each {A} (xs : list A) (body : A -> M unit) :
  (forall x, replayable (body x)) -> replayable (for_each xs body).
Proof.
  intros Hb. induction xs as [|x xs IH]; simpl.
  - apply replayable_ret.
  - apply replayable_bind; [apply Hb | intros _; exact IH].
Qed.

(** A command that never touches the catalog can be replayed. *)
Lemma replayable_unit (m : M unit) : always same_catalog m -> replayable m.
Proof.
  intros Hm s s1 [] H. split; [apply same_catalog_extends; eapply Hm; eauto|].
  intros t _ t' r Ht. split; [eapply Hm; eauto | now intros []].
Qed.

Lemma replayable_query {A} (f : Store -> result A) :
  (forall s t a a', extends s t -> f s = Ok a -> f t = Ok a' -> a' = a) ->
  replayable (query f).
Proof.
  intros Hf s s1 a H. inversion H; subst. split; [apply extends_refl|].
  intros t Et t' r Ht. inversion Ht; subst. split; [apply same_catalog_refl|].
  intros a' Ha. eapply Hf; eauto.
Qed.

(** [get_or_create] followed by a use of the row it gives. *)
Lemma replayable_get_or_create {Row B} (tbl : Store -> list Row)
    (set : list Row -> Store -> Store) m p new (k : nat * bool -> M B) :
  p new = true ->
  (forall s, set (tbl s) s = s) ->
  (forall s x, tbl (set x s) = x) ->
  (forall s t, extends s t -> prefix (tbl s) (tbl t)) ->
  (forall s, extends s (set (tbl s ++ [new])%list s)) ->
  (forall i b b', k (i, b) = k (i, b')) ->
  (forall x, replayable (k x)) ->
  replayable (bind (get_or_create_in tbl set m p new) k).
Proof.
  intros Hnew Hid Hget Hpre Hext Hflag Hk s s2 b H.
  apply bind_ok in H. destruct H as ([i c] & s1 & H1 & H2).
  destruct (Hk _ _ _ _ H2) as [E2 R2].
  unfold get_or_create_in, objects_get_or_create in H1.
  assert (Hs1 : extends s s1 /\ positions p 0 (tbl s1) = [i]).
  { destruct (positions p 0 (tbl s)) as [|j [|? ?]] eqn:E; inversion H1; subst.
    - split; [apply Hext|]. rewrite Hget. now apply positions_created.
    - rewrite Hid. split; [apply extends_refl | exact E]. }
  destruct Hs1 as [E1 P1].
  split; [eapply extends_trans; eauto|].
  intros t Et t' r Ht. unfold bind, get_or_create_in, objects_get_or_create in Ht.
  destruct (positions_prefix p _ _ i (Hpre _ _ (extends_trans _ _ _ E2 Et)) P1)
    as [more Hm].
  rewrite Hm in Ht. destruct more as [|j more].
  - rewrite Hid in Ht. rewrite (Hflag i false c) in Ht.
    exact (R2 t Et _ _ Ht).
  - rewrite Hid in Ht. inversion Ht; subst.
    split; [apply same_catalog_refl | intros a' Ha; discriminate].
Qed.

Lemma opt_eqb_refl a : opt_eqb a a = true.
Proof. destruct a; simpl; [apply String.eqb_refl | reflexivity]. Qed.

Lemma opt_nat_eqb_refl a : opt_nat_eqb a a = true.
Proof. destruct a; simpl; [apply Nat.eqb_refl | reflexivity]. Qed.

Lemma body_is_new r : body_is (lb_name r) (lb_member r) (lb_max_districts r) r = true.
Proof. unfold body_is. now rewrite !opt_eqb_refl. Qed.

Lemma subject_is_new r : subject_is r r = true.
Proof. unfold subject_is. rewrite !opt_eqb_refl, Bool.eqb_reflx. reflexivity. Qed.

Lemma target_is_new r : target_is r r = true.
Proof. unfold target_is. rewrite !opt_eqb_refl, Nat.eqb_refl. reflexivity. Qed.

Lemma geolevel_is_new r : geolevel_is r r = true.
Proof. unfold geolevel_is. now rewrite !opt_eqb_refl. Qed.

Lemma level_is_new r : level_is r r = true.
Proof.
  unfold level_is, level_of. rewrite !Nat.eqb_refl, opt_nat_eqb_refl. reflexivity.
Qed.

(** The side conditions of the rules, for each of the tables. *)
Ltac table_side :=
  try solve
    [ apply body_is_new | apply subject_is_new | apply target_is_new
    | apply geolevel_is_new | apply level_is_new
    | intros [] ; reflexivity
    | intros; reflexivity
    | unfold extends; intros ? ? (? & ? & ? & ? & ? & ?); assumption
    | intros; unfold extends, defaults_bodies; simpl; try rewrite map_app;
      repeat split; first [ apply prefix_app | apply prefix_refl ]
    | apply extends_refl | exact extends_trans
    | apply same_catalog_refl | exact same_catalog_trans
    | intros; unfold same_catalog, defaults_bodies; simpl; repeat split ].

Lemma replayable_import_body body : replayable (import_body body).
Proof.
  unfold import_body. cbv zeta.
  apply replayable_get_or_create; table_side. intros; apply replayable_ret.
Qed.

Lemma replayable_import_subject c i : replayable (import_subject c i).
Proof.
  unfold import_subject. cbv zeta. destruct (has_attr _ _).
  - apply replayable_ret.
  - apply replayable_get_or_create; table_side. intros; apply replayable_ret.
Qed.

Lemma replayable_import_target c targ : replayable (import_target c targ).
Proof.
  unfold import_target.
  apply replayable_bind; [apply replayable_lift | intros subconfig].
  apply replayable_bind.
  - apply replayable_query. intros s t a a' (_ & H & _) Ha Ha'.
    eapply objects_filter_0_prefix; eauto.
  - intros subject. cbv zeta.
    apply replayable_get_or_create; table_side. intros; apply replayable_ret.
Qed.

Lemma replayable_set_default legislative_body target :
  replayable (set_default legislative_body target).
Proof.
  unfold set_default. intros s s2 [] H.
  apply bind_ok in H. destruct H as ([i c] & s1 & H1 & H2).
  unfold get_or_create_in, objects_get_or_create in H1.
  inversion H2; subst; clear H2. cbn [fst].
  assert (Hmap : forall (l : list LegislativeDefaults) j,
            map ld_legislative_body
                (update_nth j (fun r => mkLegislativeDefaults
                                          (ld_legislative_body r) (Some target)) l)
            = map ld_legislative_body l)
    by (intros; now apply update_nth_map).
  assert (Hp : forall l, positions (defaults_of legislative_body) 0 l
                         = positions (fun b => Nat.eqb b legislative_body) 0
                                     (map ld_legislative_body l))
    by (intros; apply (positions_map ld_legislative_body
                         (fun b => Nat.eqb b legislative_body))).
  assert (Hs1 : extends s s1
                /\ positions (defaults_of legislative_body) 0 (defaults s1) = [i]).
  { destruct (positions (defaults_of legislative_body) 0 (defaults s))
      as [|j [|? ?]] eqn:E; inversion H1; subst.
    - split; [table_side|]. simpl. apply positions_created; [|exact E].
      unfold defaults_of. simpl. apply Nat.eqb_refl.
    - split; [|exact E]. destruct s; apply extends_refl. }
  destruct Hs1 as [E1 P1]. split.
  - eapply extends_trans; [exact E1|]. apply same_catalog_extends.
    unfold same_catalog, defaults_bodies. simpl. rewrite Hmap. repeat split.
  - intros t Et t' r Ht. split; [|now intros []].
    unfold bind, get_or_create_in, objects_get_or_create in Ht.
    destruct Et as (_ & _ & _ & _ & _ & Ed).
    unfold defaults_bodies in Ed. simpl in Ed. rewrite Hmap in Ed.
    rewrite Hp in P1. rewrite Hp in Ht.
    destruct (positions_prefix _ _ _ i Ed P1) as [more Hm].
    rewrite Hm in Ht. destruct more as [|j more]; inversion Ht; subst.
    + unfold same_catalog, defaults_bodies. simpl. rewrite Hmap. repeat split.
    + destruct t; apply same_catalog_refl.
Qed.

Lemma replayable_find_parent c lbody legislative_body target :
  replayable (find_parent c lbody legislative_body target).
Proof.
  unfold find_parent. destruct (lbr_parents lbody) as [|p ps].
  - apply replayable_ret.
  - apply replayable_bind; [apply replayable_lift | intros pconfig].
    apply replayable_bind.
    { apply replayable_query. intros s t a a' (_ & _ & _ & H & _) Ha Ha'.
      eapply objects_get_prefix; eauto. }
    intros plvl. apply replayable_bind.
    { apply replayable_query. intros s t a a' (_ & _ & _ & _ & H & _) Ha Ha'.
      eapply objects_get_prefix; eauto. }
    intros parent. apply replayable_ret.
Qed.

Lemma replayable_resolve_target c targ : replayable (resolve_target c targ).
Proof.
  unfold resolve_target.
  apply replayable_bind; [apply replayable_lift | intros tconfig].
  apply replayable_bind; [apply replayable_lift | intros sconfig].
  apply replayable_bind.
  { apply replayable_query. intros s t a a' (_ & H & _) Ha Ha'.
    eapply objects_get_prefix; eauto. }
  intros subject.
  apply replayable_query. intros s t a a' (_ & _ & H & _) Ha Ha'.
  eapply objects_get_prefix; eauto.
Qed.

Lemma replayable_import_level c glvl lbody legislative_body targ :
  replayable (import_level c glvl lbody legislative_body targ).
Proof.
  unfold import_level.
  apply replayable_bind; [apply replayable_resolve_target | intros target].
  apply replayable_bind.
  { destruct (has_attr targ "default");
      [apply replayable_set_default | apply replayable_ret]. }
  intros _. apply replayable_bind; [apply replayable_find_parent | intros parent].
  cbv zeta. apply replayable_get_or_create; table_side.
  intros; apply replayable_ret.
Qed.

Lemma replayable_import_lbody c glvl lbody : replayable (import_lbody c glvl lbody).
Proof.
  unfold import_lbody.
  apply replayable_bind; [apply replayable_lift | intros lbconfig].
  apply replayable_bind.
  { apply replayable_query. intros s t a a' (H & _) Ha Ha'.
    eapply objects_get_prefix; eauto. }
  intros legislative_body. apply replayable_for_each.
  intros targ. apply replayable_import_level.
Qed.

Lemma replayable_import_geolevel_row c node :
  replayable (import_geolevel_row c node).
Proof.
  unfold import_geolevel_row. cbv zeta.
  apply replayable_get_or_create; table_side.
  intros [i b]. apply replayable_for_each. intros lbody.
  apply replayable_import_lbody.
Qed.

Lemma import_anonymous_catalog : always same_catalog import_anonymous.
Proof. always_tac table_side. Qed.

Lemma replayable_import_prereq c : replayable (import_prereq c).
Proof.
  unfold import_prereq.
  apply replayable_bind;
    [apply replayable_for_each; intros; apply replayable_import_body | intros _].
  apply replayable_bind;
    [apply replayable_for_each; intros; apply replayable_import_subject | intros _].
  apply replayable_bind;
    [apply replayable_for_each; intros; apply replayable_import_target | intros _].
  apply replayable_bind;
    [apply replayable_for_each; intros; apply replayable_import_geolevel_row
    | intros _].
  apply replayable_unit, import_anonymous_catalog.
Qed.

(** C8. When [import_prereq] has run to its end on a configuration, a
    second run on the same configuration, whether it ends or raises,
    leaves the tables of LegislativeBody, Subject, Target, GeoLevel and
    LegislativeLevel as they are and adds no LegislativeDefaults row. *)
Theorem import_prereq_idempotent c s s1 s2 r :
  import_prereq c s = (s1, Ok tt) ->
  import_prereq c s1 = (s2, r) ->
  bodies s2 = bodies s1 /\ subjects s2 = subjects s1 /\ targets s2 = targets s1
  /\ geolevels s2 = geolevels s1 /\ levels s2 = levels s1
  /\ List.length (defaults s2) = List.length (defaults s1).
Proof.
  intros H1 H2.
  destruct (replayable_import_prereq c _ _ _ H1) as [_ R].
  destruct (R s1 (extends_refl s1) _ _ H2) as [(A1 & A2 & A3 & A4 & A5 & A6) _].
  repeat split; try assumption.
  unfold defaults_bodies in A6.
  rewrite <- (length_map ld_legislative_body (defaults s2)), A6.
  apply length_map.
Qed.

Lemma import_prereq_idempotent_witness :
  let s1 := fst (import_prereq Sample.config empty_store) in
  let s2 := fst (import_prereq Sample.config s1) in
  snd (import_prereq Sample.config s1) = Ok tt
  /\ bodies s2 = bodies s1 /\ subjects s2 = subjects s1 /\ targets s2 = targets s1
  /\ geolevels s2 = geolevels s1 /\ levels s2 = levels s1
  /\ List.length (defaults s2) = List.length (defaults s1).
Proof.
  split; [vm_compute; reflexivity|].
  refine (import_prereq_idempotent Sample.config empty_store
            (fst (import_prereq Sample.config empty_store))
            (fst (import_prereq Sample.config
                    (fst (import_prereq Sample.config empty_store))))
            (Ok tt) _ _);
    vm_compute; reflexivity.
Defined.

(** ** The parent of a legislative level *)

Lemma same_levels_refl s : same_levels s s.
Proof. split; reflexivity. Qed.

Lemma same_levels_trans a b c : same_levels a b -> same_levels b c -> same_levels a c.
Proof. unfold same_levels. intros [] []. split; congruence. Qed.

Ltac same_levels_side :=
  try solve [ apply same_levels_refl | exact same_levels_trans
            | intros; split; reflexivity ].

Lemma set_default_levels legislative_body target :
  always same_levels (set_default legislative_body target).
Proof. always_tac same_levels_side. Qed.

(** The target resolution only reads the store. *)
Lemma resolve_target_reads c targ : always eq (resolve_target c targ).
Proof. always_tac ltac:(try solve [reflexivity | intros; congruence]). Qed.

Lemma find_parent_reads c lbody legislative_body target :
  always eq (find_parent c lbody legislative_body target).
Proof. always_tac ltac:(try solve [reflexivity | intros; congruence]). Qed.

Lemma find_parent_missing c lbody legislative_body target p ps s :
  lbr_parents lbody = p :: ps ->
  ~ parent_processed c p legislative_body target s ->
  exists e, find_parent c lbody legislative_body target s = (s, Raise e)
            /\ missing_parent_error e.
Proof.
  intros Hp Hn. unfold find_parent, missing_parent_error. rewrite Hp.
  unfold bind, lift, query, ret.
  destruct (index0 (xpath_geolevel c (fmt_s (get p "ref")))) as [pconfig|e] eqn:E0.
  2:{ exists e. split; [reflexivity|]. left.
      unfold index0 in E0. destruct (xpath_geolevel _ _); congruence. }
  unfold objects_get at 1.
  destruct (positions (geolevel_named (get pconfig "name")) 0 (geolevels s))
    as [|plvl [|? ?]] eqn:Eg; eauto 6.
  unfold objects_get.
  destruct (positions (level_of legislative_body plvl target) 0 (levels s))
    as [|i rest] eqn:El; eauto 6.
  exfalso. apply Hn.
  destruct (positions_in _ _ 0 plvl ltac:(rewrite Eg; now left)) as (g & Hg & Hpg & _).
  destruct (positions_in _ _ 0 i ltac:(rewrite El; now left)) as (l & Hl & Hpl & _).
  rewrite Nat.sub_0_r in Hg, Hl.
  exists pconfig, plvl, g, l. repeat split; auto. eapply nth_error_In; eauto.
Qed.

(** C6. A mapping with a [Parent] whose level has not been made for the
    same body and target: the parent lookup raises (the reference, the
    geolevel or the level is not found), the mapping raises with it, and
    no [LegislativeLevel] is created. *)
Theorem missing_parent_is_fatal c glvl lbody legislative_body targ p ps s :
  lbr_parents lbody = p :: ps ->
  (forall target, resolve_target c targ s = (s, Ok target) ->
                  ~ parent_processed c p legislative_body target s) ->
  (forall target, resolve_target c targ s = (s, Ok target) ->
     exists e, find_parent c lbody legislative_body target s = (s, Raise e)
               /\ missing_parent_error e)
  /\ exists s' e,
       import_level c glvl lbody legislative_body targ s = (s', Raise e)
       /\ levels s' = levels s.
Proof.
  intros Hp Hn. split.
  - intros target Ht. eapply find_parent_missing; eauto.
  - unfold import_level.
    destruct (resolve_target c targ s) as [s0 r0] eqn:Er.
    pose proof (resolve_target_reads c targ _ _ _ Er) as <-.
    destruct r0 as [target|e].
    2:{ exists s, e. split; [|reflexivity]. now apply bind_raise. }
    rewrite (bind_run _ _ _ _ _ Er).
    destruct ((if has_attr targ "default"
               then set_default legislative_body target else ret tt) s)
      as [sd rd] eqn:Ed.
    assert (Hsd : same_levels s sd).
    { destruct (has_attr targ "default").
      - eapply set_default_levels; eauto.
      - inversion Ed. apply same_levels_refl. }
    destruct Hsd as [Hl Hg].
    destruct rd as [[]|e].
    2:{ exists sd, e. split; [|exact Hl]. now apply bind_raise. }
    rewrite (bind_run _ _ _ _ _ Ed).
    destruct (find_parent_missing c lbody legislative_body target p ps sd Hp)
      as (e & He & _).
    { intros (pconfig & plvl & g & l & H1 & H2 & H3 & H4 & H5).
      apply (Hn target eq_refl). exists pconfig, plvl, g, l.
      rewrite <- Hl, <- Hg. repeat split; assumption. }
    exists sd, e. split; [|exact Hl]. now apply bind_raise.
Qed.

Lemma missing_parent_is_fatal_witness :
  exists s' e,
    import_level Sample.misordered 0 (mkLBodyRef [("ref", "congress")]
                                        [[("ref", "t1")]] [[("ref", "county")]])
                 0 [("ref", "t1")] Sample.catalog0 = (s', Raise e)
    /\ levels s' = levels Sample.catalog0.
Proof.
  refine (proj2 (missing_parent_is_fatal Sample.misordered 0
                   (mkLBodyRef [("ref", "congress")] [[("ref", "t1")]]
                               [[("ref", "county")]])
                   0 [("ref", "t1")] [("ref", "county")] [] Sample.catalog0
                   eq_refl _)).
  intros target _ (pconfig & plvl & g & l & _ & _ & _ & Hin & _).
  vm_compute in Hin. exact Hin.
Defined.

(** The two geolevels of the sample in the wrong order: the run stops at
    the parent lookup and no level is made. *)
Example misordered_run :
  snd (import_prereq Sample.misordered empty_store) = Raise (DoesNotExist MGeolevel)
  /\ levels (fst (import_prereq Sample.misordered empty_store)) = [].
Proof. split; vm_compute; reflexivity. Qed.

(** ** Subject aliases *)

Lemma opt_eqb_eq a b : opt_eqb a b = true -> a = b.
Proof.
  destruct a, b; simpl; intros H; try discriminate; [|reflexivity].
  apply String.eqb_eq in H. now subst.
Qed.

Lemma filter_index0 {A} (p : A -> bool) l x :
  index0 (filter p l) = Ok x -> p x = true /\ In x l.
Proof.
  unfold index0. destruct (filter p l) as [|y l'] eqn:E; intros H; inversion H; subst.
  assert (Hin : In x (filter p l)) by (rewrite E; now left).
  apply filter_In in Hin. tauto.
Qed.

(** Dereferencing gives the element whose [id] is the canonical name. *)
Lemma dereference_subject_canonical c ref sub :
  dereference_subject c ref = Ok sub ->
  exists i, index0 (xpath_subject c (fmt_s ref)) = Ok i
            /\ get sub "id" = canonical_name c i.
Proof.
  unfold dereference_subject, rbind, canonical_name.
  destruct (index0 (xpath_subject c (fmt_s ref))) as [i|e] eqn:Ei; [|discriminate].
  destruct (get (subject_attrib c i) "aliasfor") as [a|] eqn:Ea.
  - destruct (index0 (xpath_subject c (fmt_s (Some a)))) as [j|e] eqn:Ej;
      [|discriminate].
    intros H. inversion H; subst. exists i. split; [reflexivity|].
    apply filter_index0 in Ej. destruct Ej as [Hid _].
    unfold id_is, subject_attrib in *. simpl in Hid.
    destruct (get (node_attrib (cfg_subjects c) j) "id") as [x|]; [|discriminate].
    apply String.eqb_eq in Hid. rewrite Ea. now subst.
  - intros H. inversion H; subst. exists i. now rewrite Ea.
Qed.

Lemma positions_head {R} (p : R -> bool) l i rest :
  positions p 0 l = i :: rest ->
  exists r, nth_error l i = Some r /\ p r = true.
Proof.
  intros H. destruct (positions_in p l 0 i) as (r & H1 & H2 & _).
  - rewrite H. now left.
  - rewrite Nat.sub_0_r in H1. eauto.
Qed.

Lemma alias_respecting_refl c s : alias_respecting c s s.
Proof.
  split; exists []; rewrite app_nil_r; split; auto.
Qed.

Lemma canonical_target_grows c s s' row :
  prefix (subjects s) (subjects s') ->
  canonical_target c s row -> canonical_target c s' row.
Proof.
  intros [k Hk] (targ & Hin & i & srow & H1 & H2 & H3).
  exists targ. split; [exact Hin|]. exists i, srow. repeat split; auto.
  rewrite Hk. rewrite nth_error_app1; [exact H2|].
  apply nth_error_Some. congruence.
Qed.

Lemma alias_respecting_trans c s1 s2 s3 :
  alias_respecting c s1 s2 -> alias_respecting c s2 s3 -> alias_respecting c s1 s3.
Proof.
  intros [(ks & Hs & Fs) (kt & Ht & Ft)] [(ks' & Hs' & Fs') (kt' & Ht' & Ft')].
  split.
  - exists (ks ++ ks')%list. rewrite Hs', Hs, app_assoc. split; [reflexivity|].
    apply Forall_app. now split.
  - exists (kt ++ kt')%list. rewrite Ht', Ht, app_assoc. split; [reflexivity|].
    apply Forall_app. split; [|exact Ft'].
    eapply Forall_impl; [|exact Ft]. intros row.
    apply canonical_target_grows. now exists ks'.
Qed.

(** A command that writes neither subjects nor targets. *)
Lemma alias_respecting_frame c s s' :
  subjects s' = subjects s -> targets s' = targets s -> alias_respecting c s s'.
Proof.
  intros Hs Ht. split; exists []; rewrite app_nil_r; split; auto.
Qed.

Lemma import_subject_alias c i :
  In i (xpath_subjects_with_id c) ->
  always (alias_respecting c) (import_subject c i).
Proof.
  intros Hin s s' r H. unfold import_subject in H. cbv zeta in H.
  unfold has_attr in H.
  destruct (get (subject_attrib c i) "aliasfor") as [a|] eqn:Ea.
  - inversion H. apply alias_respecting_refl.
  - unfold bind, get_or_create_in, objects_get_or_create, ret in H.
    destruct (positions _ 0 (subjects s)) as [|j [|? ?]]; inversion H; subst;
      try (apply alias_respecting_frame; reflexivity).
    split.
    + exists [subject_row (subject_attrib c i)]. split; [reflexivity|].
      constructor; [|constructor]. exists i. auto.
    + exists []. simpl. rewrite app_nil_r. split; auto.
Qed.

Lemma import_target_alias c targ :
  In targ (cfg_targets c) ->
  always (alias_respecting c) (import_target c targ).
Proof.
  intros Hin s s' r H. unfold import_target in H.
  unfold bind, lift, query, get_or_create_in, objects_get_or_create, ret in H.
  destruct (dereference_subject c (get targ "subjectref")) as [sub|e] eqn:Ed;
    [|inversion H; apply alias_respecting_refl].
  destruct (objects_filter_0 (subject_named (get sub "id")) (subjects s))
    as [subject|e] eqn:Ef; [|inversion H; apply alias_respecting_refl].
  cbv zeta in H.
  destruct (positions _ 0 (targets s)) as [|j [|? ?]]; inversion H; subst;
    try (apply alias_respecting_frame; reflexivity).
  split.
  - exists []. simpl. rewrite app_nil_r. split; auto.
  - eexists. split; [reflexivity|]. constructor; [|constructor].
    exists targ. split; [exact Hin|].
    destruct (dereference_subject_canonical _ _ _ Ed) as (i & Hi & Hid).
    unfold objects_filter_0, index0 in Ef.
    destruct (positions (subject_named (get sub "id")) 0 (subjects s))
      as [|k rest] eqn:Ep; inversion Ef; subst.
    destruct (positions_head _ _ _ _ Ep) as (row & Hrow & Hname).
    exists i, row. simpl. repeat split; auto.
    rewrite <- Hid. now apply opt_eqb_eq.
Qed.

Ltac alias_side c :=
  try solve [ apply alias_respecting_refl | exact (alias_respecting_trans c)
            | intros; apply alias_respecting_frame; reflexivity ].

Lemma import_body_alias c body : always (alias_respecting c) (import_body body).
Proof. always_tac ltac:(alias_side c). Qed.

Lemma import_geolevel_row_alias c node :
  always (alias_respecting c) (import_geolevel_row c node).
Proof. always_tac ltac:(alias_side c). Qed.

Lemma import_anonymous_alias c : always (alias_respecting c) import_anonymous.
Proof. always_tac ltac:(alias_side c). Qed.

Lemma import_prereq_alias c : always (alias_respecting c) (import_prereq c).
Proof.
  unfold import_prereq.
  apply always_bind; [exact (alias_respecting_trans c) | | intros _].
  { apply always_for_each; [apply alias_respecting_refl
                           | exact (alias_respecting_trans c) |].
    intros; apply import_body_alias. }
  apply always_bind; [exact (alias_respecting_trans c) | | intros _].
  { apply always_for_each; [apply alias_respecting_refl
                           | exact (alias_respecting_trans c) |].
    intros; now apply import_subject_alias. }
  apply always_bind; [exact (alias_respecting_trans c) | | intros _].
  { apply always_for_each; [apply alias_respecting_refl
                           | exact (alias_respecting_trans c) |].
    intros; now apply import_target_alias. }
  apply always_bind; [exact (alias_respecting_trans c) | | intros _].
  { apply always_for_each; [apply alias_respecting_refl
                           | exact (alias_respecting_trans c) |].
    intros; apply import_geolevel_row_alias. }
  apply import_anonymous_alias.
Qed.

(** *** The configuration tree under [append] *)

Lemma nth_update_nth {R} (f : R -> R) d : forall l i j,
  nth j (update_nth i f l) d
  = if (Nat.eqb i j && Nat.ltb j (List.length l))%bool then f (nth j l d)
    else nth j l d.
Proof.
  induction l as [|r l IH]; intros [|i] [|j]; simpl; try reflexivity.
  - now rewrite Bool.andb_false_r.
  - rewrite IH. reflexivity.
Qed.

Lemma nth_removed child l i :
  nth i (map (fun n => mkSubjectNode (sn_attrib n) (remove_nat child (sn_kids n))) l)
      (mkSubjectNode [] [])
  = mkSubjectNode (sn_attrib (nth i l (mkSubjectNode [] [])))
                  (remove_nat child (sn_kids (nth i l (mkSubjectNode [] [])))).
Proof.
  exact (map_nth (fun n => mkSubjectNode (sn_attrib n) (remove_nat child (sn_kids n)))
                 l (mkSubjectNode [] []) i).
Qed.

Lemma append_attrib f parent child f' i :
  append f parent child = Ok f' -> node_attrib f' i = node_attrib f i.
Proof.
  unfold append. destruct (is_ancestor_or_same _ _ _ _); [discriminate|].
  intros H. inversion H; subst; clear H. unfold node_attrib. simpl.
  rewrite nth_update_nth, nth_removed. destruct (_ && _)%bool; reflexivity.
Qed.

Lemma append_kids f parent child f' p kid :
  append f parent child = Ok f' ->
  In kid (node_kids f' p) ->
  In kid (node_kids f p) \/ (p = parent /\ kid = child).
Proof.
  unfold append. destruct (is_ancestor_or_same _ _ _ _); [discriminate|].
  intros H. inversion H; subst; clear H. unfold node_kids. simpl.
  rewrite nth_update_nth, nth_removed.
  destruct (Nat.eqb parent p && _)%bool eqn:E; simpl.
  - apply andb_true_iff in E. destruct E as [E _]. apply Nat.eqb_eq in E. subst.
    intros Hin. apply in_app_or in Hin. destruct Hin as [Hin|[Hin|[]]].
    + left. unfold remove_nat in Hin. apply filter_In in Hin. tauto.
    + right. auto.
  - intros Hin. left. unfold remove_nat in Hin. apply filter_In in Hin. tauto.
Qed.

Lemma subject_field_forest c tref c' r :
  subject_field c tref = (c', r) ->
  forest_ok (cfg_subjects c) ->
  forest_ok (cfg_subjects c')
  /\ forall i, subject_attrib c' i = subject_attrib c i.
Proof.
  unfold subject_field. intros H Hok.
  destruct (index0 (xpath_target c _)) as [tconfig|e]; [|inversion H; subst; auto].
  destruct (index0 (xpath_subject c (fmt_s (get tconfig "subjectref"))))
    as [sconfig|e]; [|inversion H; subst; auto].
  destruct (get (subject_attrib c sconfig) "aliasfor") as [a|] eqn:Ea;
    [|inversion H; subst; auto].
  destruct (index0 (xpath_subject c (fmt_s (Some a)))) as [salconfig|e] eqn:Es;
    [|inversion H; subst; auto].
  destruct (append (cfg_subjects c) sconfig salconfig) as [f|e] eqn:Eapp;
    [|inversion H; subst; auto].
  inversion H; subst; clear H. simpl. split.
  - intros parent kid Hin.
    rewrite !(append_attrib _ _ _ _ _ Eapp).
    destruct (append_kids _ _ _ _ _ _ Eapp Hin) as [Hold|[-> ->]].
    + now apply Hok.
    + exists a. split; [exact Ea|].
      apply filter_index0 in Es. destruct Es as [Hid _].
      unfold id_is in Hid. simpl in Hid.
      destruct (get (node_attrib (cfg_subjects c) salconfig) "id") as [x|];
        [|discriminate].
      apply String.eqb_eq in Hid. now subst.
  - intros i. unfold subject_attrib. simpl. eapply append_attrib; eauto.
Qed.

Lemma subject_fields_forest trefs : forall c c' r,
  subject_fields c trefs = (c', r) ->
  forest_ok (cfg_subjects c) ->
  forest_ok (cfg_subjects c')
  /\ forall i, subject_attrib c' i = subject_attrib c i.
Proof.
  induction trefs as [|tref trefs IH]; intros c c' r H Hok; simpl in H.
  - inversion H; subst. auto.
  - destruct (subject_field c tref) as [c1 r1] eqn:E1.
    destruct (subject_field_forest _ _ _ _ E1 Hok) as [Hok1 Hat1].
    destruct r1 as [sconfig|e]; [|inversion H; subst; auto].
    destruct (subject_fields c1 trefs) as [c2 r2] eqn:E2.
    destruct (IH _ _ _ E2 Hok1) as [Hok2 Hat2].
    assert (Hat : forall i, subject_attrib c2 i = subject_attrib c i)
      by (intros i; now rewrite Hat2, Hat1).
    destruct r2; inversion H; subst; auto.
Qed.

(** *** The subjects of the configured fields *)

Lemma objects_get_row {R} m (p : R -> bool) l i :
  objects_get m p l = Ok i -> exists r, nth_error l i = Some r /\ p r = true.
Proof.
  unfold objects_get. destruct (positions p 0 l) as [|j [|? ?]] eqn:E;
    intros H; inversion H; subst.
  eapply positions_head; eauto.
Qed.

Lemma alias_subject_last c kids : forall acc s s' r,
  alias_subject c kids acc s = (s', Ok r) ->
  s' = s /\
  ((kids = [] /\ r = acc) \/
   exists kid sub row,
     In kid kids /\ r = Some sub /\ nth_error (subjects s) sub = Some row
     /\ su_name row = get (subject_attrib c kid) "id").
Proof.
  induction kids as [|kid kids IH]; intros acc s s' r H; simpl in H.
  - inversion H; subst. auto.
  - unfold bind, query in H.
    destruct (objects_get MSubject _ (subjects s)) as [found|e] eqn:Eg;
      [|discriminate].
    destruct (IH _ _ _ _ H) as [-> Hr]. split; [reflexivity|]. right.
    destruct Hr as [[-> ->]|(kid' & sub & row & Hin & -> & Hrow & Hname)].
    + destruct (objects_get_row _ _ _ _ Eg) as (row & Hrow & Hname).
      exists kid, found, row. repeat split; auto; [now left|].
      now apply opt_eqb_eq.
    + exists kid', sub, row. repeat split; auto. now right.
Qed.

Lemma subject_object_canonical c sconfig s s' sub :
  forest_ok (cfg_subjects c) -> no_alias_rows c s ->
  subject_object c sconfig s = (s', Ok sub) ->
  s' = s /\ exists row, nth_error (subjects s) sub = Some row
                        /\ su_name row = canonical_name c sconfig.
Proof.
  intros Hok Hno H. unfold subject_object in H.
  apply bind_ok in H. destruct H as (aliased & s1 & H1 & H2).
  destruct (alias_subject_last _ _ _ _ _ _ H1) as [-> Hr].
  destruct Hr as [[Hk ->]|(kid & found & row & Hin & -> & Hrow & Hname)].
  - unfold query in H2. inversion H2 as [[Hs Hg]]. subst s'. split; [reflexivity|].
    destruct (objects_get_row _ _ _ _ Hg) as (row & Hrow & Hname).
    exists row. split; [exact Hrow|]. apply opt_eqb_eq in Hname.
    unfold canonical_name.
    destruct (get (subject_attrib c sconfig) "aliasfor") as [a|] eqn:Ea;
      [|exact Hname].
    exfalso. eapply (Hno sconfig a row Ea); [eapply nth_error_In; eauto | exact Hname].
  - inversion H2; subst. split; [reflexivity|].
    exists row. split; [exact Hrow|].
    destruct (Hok sconfig kid Hin) as (a & Ha & Hid).
    unfold canonical_name, subject_attrib in *. now rewrite Ha, Hname, Hid.
Qed.

Lemma dict_set_Forall (Q : option string * nat -> Prop) d k v :
  Forall Q d -> Q (k, v) -> Forall Q (dict_set d k v).
Proof.
  intros Hd Hq. induction Hd as [|[k' v'] d Hx Hd IH]; simpl.
  - constructor; [exact Hq | constructor].
  - destruct (opt_eqb k' k); constructor; auto.
Qed.

Lemma subject_objects_of_canonical c all nodes : forall d s s' d',
  forest_ok (cfg_subjects c) -> no_alias_rows c s ->
  incl nodes all ->
  Forall (fun entry => canonical_subject c all s (snd entry)) d ->
  subject_objects_of c nodes d s = (s', Ok d') ->
  s' = s /\ Forall (fun entry => canonical_subject c all s (snd entry)) d'.
Proof.
  induction nodes as [|sconfig nodes IH]; intros d s s' d' Hok Hno Hincl Hd H;
    simpl in H.
  - inversion H; subst. auto.
  - apply bind_ok in H. destruct H as (sub & s1 & H1 & H2).
    destruct (subject_object_canonical _ _ _ _ _ Hok Hno H1)
      as [-> (row & Hrow & Hname)].
    refine (IH _ s s' d' Hok Hno _ _ H2).
    + intros x Hx. apply Hincl. now right.
    + apply dict_set_Forall; [exact Hd|].
      exists sconfig, row. repeat split; auto. apply Hincl. now left.
Qed.

(** *** The rows [import_shape] adds *)

Lemma adds_characteristics_refl subs s : adds_characteristics subs s s.
Proof.
  split; [apply same_catalog_refl|]. split; [reflexivity|].
  split; [apply prefix_refl|]. exists []. rewrite app_nil_r. auto.
Qed.

Lemma adds_characteristics_trans subs a b c :
  adds_characteristics subs a b -> adds_characteristics subs b c ->
  adds_characteristics subs a c.
Proof.
  intros (A1 & U1 & G1 & k1 & C1 & F1) (A2 & U2 & G2 & k2 & C2 & F2).
  split; [eapply same_catalog_trans; eauto|]. split; [congruence|].
  split; [eapply prefix_trans; eauto|].
  exists (k1 ++ k2)%list. rewrite C2, C1, app_assoc. split; [reflexivity|].
  apply Forall_app. now split.
Qed.

(** Saving a geounit, or printing. *)
Lemma adds_characteristics_geounit subs s t :
  same_catalog s t -> users t = users s ->
  prefix (geounits s) (geounits t) ->
  characteristics t = characteristics s ->
  adds_characteristics subs s t.
Proof.
  intros H1 H2 H3 H4. split; [exact H1|]. split; [exact H2|]. split; [exact H3|].
  exists []. rewrite app_nil_r. auto.
Qed.

Section ImportShapeRows.

Variable simplify : geometry -> result geometry.
Variable centroid : geometry -> result geometry.
Variable within : geometry -> geometry -> result bool.
Variable intersection : geometry -> geometry -> result geometry.
Variable DataSource : option string -> result (list Feature).
Variable number_storable : PyDecimal.t -> bool.
Variable geounit_storable : Geounit -> bool.
Variable iteritems : list (option string * nat) -> list (option string * nat).

Lemma import_characteristic_adds subs cfg feat g entry :
  In (snd entry) subs ->
  always (adds_characteristics subs)
         (import_characteristic number_storable cfg feat g entry).
Proof.
  intros Hin s s' r H. unfold import_characteristic in H.
  destruct entry as [attr obj]. simpl in Hin.
  unfold bind, lift in H.
  destruct (feat_get feat attr) as [raw|e];
    [|inversion H; apply adds_characteristics_refl].
  destruct (characteristic_value (str raw)) as [value|e];
    [|inversion H; apply adds_characteristics_refl].
  assert (Hadd : forall n t,
            same_catalog s t -> users t = users s -> geounits t = geounits s ->
            characteristics t = (characteristics s ++ [mkCharacteristic obj n g])%list ->
            adds_characteristics subs s t).
  { intros n t Hs Hu Hg Hc. split; [exact Hs|]. split; [exact Hu|].
    split; [rewrite Hg; apply prefix_refl|]. eexists. split; [exact Hc|].
    constructor; [exact Hin | constructor]. }
  destruct (number_storable value).
  - inversion H; subst. eapply Hadd; try reflexivity. repeat split.
  - destruct (rbind _ _); inversion H; subst;
      (eapply Hadd; try reflexivity; repeat split).
Qed.

Lemma import_features_adds cfg level so lyr : forall my_geom,
  always (adds_characteristics (map snd (iteritems so)))
         (import_features simplify centroid within intersection
                  number_storable geounit_storable iteritems
                          cfg level so lyr my_geom).
Proof.
  induction lyr as [|feat lyr IH]; intros my_geom s s' r H; simpl in H.
  - inversion H. apply adds_characteristics_refl.
  - assert (Hfailed : forall mg,
      import_features simplify centroid within intersection
        number_storable geounit_storable iteritems cfg level so lyr mg
        (set_printed (printed s ++ [FailedGeometry (fid feat)])%list s) = (s', r) ->
      adds_characteristics (map snd (iteritems so)) s s').
    { intros mg Hmg. eapply adds_characteristics_trans; [|eapply IH; eauto].
      apply adds_characteristics_geounit; try reflexivity;
        [repeat split | apply prefix_refl]. }
    destruct (feature_geounit _ _ _ _ _ _ _ _) as [my_geom' [row|e]];
      [|eapply Hfailed; eauto].
    destruct (geounit_storable row); [|eapply Hfailed; eauto].
    destruct (for_each (iteritems so) _ _) as [s2 r2] eqn:Ec.
    assert (H2 : adds_characteristics (map snd (iteritems so)) s s2).
    { eapply adds_characteristics_trans;
        [|eapply (always_for_each (adds_characteristics (map snd (iteritems so)))
                    (adds_characteristics_refl _)
                    (adds_characteristics_trans _)); [|exact Ec]].
      - apply adds_characteristics_geounit; try reflexivity;
          [repeat split | apply prefix_app].
      - intros entry He. apply import_characteristic_adds.
        now apply in_map. }
    destruct r2 as [[]|e].
    + eapply adds_characteristics_trans; [exact H2 | eapply IH; eauto].
    + inversion H; subst. exact H2.
Qed.

End ImportShapeRows.

Lemma eq_store_trans (a b c : Store) : a = b -> b = c -> a = c.
Proof. congruence. Qed.

Lemma alias_subject_reads c kids : forall acc, always eq (alias_subject c kids acc).
Proof.
  induction kids as [|kid kids IH]; intros acc; simpl.
  - apply always_ret. reflexivity.
  - apply always_bind; [exact eq_store_trans | apply always_query; reflexivity
                       | intros; apply IH].
Qed.

Lemma subject_object_reads c sconfig : always eq (subject_object c sconfig).
Proof.
  unfold subject_object.
  apply always_bind; [exact eq_store_trans | apply alias_subject_reads|].
  intros [sub|]; [apply always_ret | apply always_query]; reflexivity.
Qed.

Lemma subject_objects_of_reads c nodes : forall d,
  always eq (subject_objects_of c nodes d).
Proof.
  induction nodes as [|sconfig nodes IH]; intros d; simpl.
  - apply always_ret. reflexivity.
  - apply always_bind; [exact eq_store_trans | apply subject_object_reads
                       | intros; apply IH].
Qed.

Section ImportShapeAliases.

Variable simplify : geometry -> result geometry.
Variable centroid : geometry -> result geometry.
Variable within : geometry -> geometry -> result bool.
Variable intersection : geometry -> geometry -> result geometry.
Variable DataSource : option string -> result (list Feature).
Variable number_storable : PyDecimal.t -> bool.
Variable geounit_storable : Geounit -> bool.
Variable iteritems : list (option string * nat) -> list (option string * nat).

Lemma import_shape_adds c cfg s s' r :
  import_shape simplify centroid within intersection DataSource
               number_storable geounit_storable iteritems
               c cfg s = (s', r) ->
  s' = s \/
  exists so, subject_objects_of c (subject_field_nodes cfg) [] s = (s, Ok so)
             /\ adds_characteristics (map snd (iteritems so)) s s'.
Proof.
  intros H. unfold import_shape in H.
  unfold bind at 1 in H. unfold lift in H.
  destruct (DataSource (shapepath cfg)) as [lyr|e]; [|inversion H; subst; now left].
  unfold bind at 1 in H. unfold query in H.
  destruct (objects_get MGeolevel _ (geolevels s)) as [level|e];
    [|inversion H; subst; now left].
  unfold bind in H.
  destruct (subject_objects_of c (subject_field_nodes cfg) [] s) as [s1 r1] eqn:Eso.
  pose proof (subject_objects_of_reads _ _ _ _ _ _ Eso) as <-.
  destruct r1 as [so|e]; [|inversion H; subst; now left].
  right. exists so. split; [reflexivity|].
  eapply import_features_adds; eauto.
Qed.

Lemma adds_characteristics_imports subs s s' :
  adds_characteristics subs s s' -> imports s s'.
Proof.
  intros (H1 & H2 & H3 & k & H4 & _). repeat split; try apply H1; auto.
  now exists k.
Qed.

Lemma imports_refl s : imports s s.
Proof.
  split; [apply same_catalog_refl|]. split; [reflexivity|].
  split; apply prefix_refl.
Qed.

Lemma imports_trans a b c : imports a b -> imports b c -> imports a c.
Proof.
  intros (A1 & A2 & A3 & A4) (B1 & B2 & B3 & B4).
  split; [eapply same_catalog_trans; eauto|]. split; [congruence|].
  split; eapply prefix_trans; eauto.
Qed.

Lemma import_shape_imports c cfg s s' r :
  import_shape simplify centroid within intersection DataSource
               number_storable geounit_storable iteritems
               c cfg s = (s', r) ->
  imports s s'.
Proof.
  intros H. destruct (import_shape_adds _ _ _ _ _ H) as [->|(so & _ & Ha)].
  - apply imports_refl.
  - eapply adds_characteristics_imports; eauto.
Qed.

End ImportShapeAliases.

(** *** Aliases across the whole command *)

Lemma same_units_refl s : same_units s s.
Proof. split; reflexivity. Qed.

Lemma same_units_trans a b c : same_units a b -> same_units b c -> same_units a c.
Proof. unfold same_units. intros [] []. split; congruence. Qed.

Lemma import_prereq_units c : always same_units (import_prereq c).
Proof.
  unfold import_prereq.
  always_tac ltac:(try solve [ apply same_units_refl | exact same_units_trans
                             | intros; split; reflexivity ]).
Qed.

Lemma no_alias_rows_kept c s s' :
  alias_ids_distinct c -> no_alias_rows c s -> alias_respecting c s s' ->
  no_alias_rows c s'.
Proof.
  intros Hd Hno [(ks & Hs & Fs) _] i a row Ha Hin.
  rewrite Hs in Hin. apply in_app_or in Hin. destruct Hin as [Hin|Hin].
  - eapply Hno; eauto.
  - rewrite Forall_forall in Fs. destruct (Fs _ Hin) as (j & _ & Hj & ->).
    simpl. intros Heq. eapply (Hd i j a Ha Hj). now symmetry.
Qed.


(** The sample run: five geounits (one feature of six is skipped) and
    nine characteristics, all of the one subject row, although four of
    them come from the field of the alias. *)
Example sample_run :
  let s' := fst (Sample.run_handle Sample.config (Some []) empty_store) in
  snd (Sample.run_handle Sample.config (Some []) empty_store) = Ok tt
  /\ List.length (subjects s') = 1%nat
  /\ List.length (geounits s') = 5%nat
  /\ map ch_subject (characteristics s') = repeat 0%nat 9
  /\ printed s' = [FailedGeometry 3].
Proof. vm_compute. repeat split. Qed.

(** ** Running the command again *)

Lemma user_positions (l : list User) :
  positions (user_named "anonymous") 0 l
  = positions (fun n => String.eqb n "anonymous") 0 (map us_username l).
Proof.
  exact (positions_map us_username (fun n => String.eqb n "anonymous") l 0).
Qed.

Lemma update_password_names i (l : list User) :
  map us_username
      (update_nth i (fun u => mkUser (us_username u) (Some "anonymous")) l)
  = map us_username l.
Proof. now apply update_nth_map. Qed.

Lemma anonymous_exists c s sa :
  import_prereq c s = (sa, Ok tt) ->
  exists i more, positions (user_named "anonymous") 0 (users sa) = i :: more.
Proof.
  intros H. apply import_prereq_split in H.
  destruct H as [(e & He & _)|(s4 & _ & H)]; [discriminate|].
  unfold import_anonymous, bind, get_or_create_in, objects_get_or_create in H.
  destruct (positions (user_named "anonymous") 0 (users s4)) as [|i [|? ?]] eqn:E;
    simpl in H; inversion H; subst; clear H; simpl.
  - exists (List.length (users s4)), []. now apply positions_created.
  - exists i, []. now rewrite user_positions, update_password_names, <- user_positions.
Qed.

Lemma anonymous_rerun t t' r i more :
  positions (user_named "anonymous") 0 (users t) = i :: more ->
  import_anonymous t = (t', r) ->
  List.length (users t') = List.length (users t).
Proof.
  intros Hp H.
  unfold import_anonymous, bind, get_or_create_in, objects_get_or_create in H.
  rewrite Hp in H. destruct more; simpl in H; inversion H; subst; simpl.
  - apply update_nth_length.
  - reflexivity.
Qed.

Lemma import_prereq_users_rerun c t t' r i more :
  positions (user_named "anonymous") 0 (users t) = i :: more ->
  import_prereq c t = (t', r) ->
  List.length (users t') = List.length (users t).
Proof.
  intros Hp H. apply import_prereq_split in H.
  destruct H as [(e & _ & Hu)|(s4 & Hu & H)].
  - unfold same_users in Hu. now rewrite Hu.
  - unfold same_users in Hu. rewrite <- Hu.
    eapply anonymous_rerun; [|exact H]. rewrite Hu. exact Hp.
Qed.

(** ** The import depends on the store through subjects and geolevels only *)

Lemma shifted_app n k1 k2 :
  shifted n (k1 ++ k2) = (shifted n k1 ++ shifted n k2)%list.
Proof. apply map_app. Qed.

Lemma replays_refl n s t : replays n s s t t.
Proof. exists [], []. simpl. rewrite !app_nil_r. repeat split. Qed.

Lemma replays_trans n s s1 s2 t t1 t2 :
  replays n s s1 t t1 -> replays n s1 s2 t1 t2 -> replays n s s2 t t2.
Proof.
  intros (kg & kc & A1 & A2 & A3 & A4 & A5 & A6 & A7 & A8)
         (kg' & kc' & B1 & B2 & B3 & B4 & B5 & B6 & B7 & B8).
  exists (kg ++ kg')%list, (kc ++ kc')%list.
  rewrite B1, B2, B3, B4, A1, A2, A3, A4, shifted_app, <- !app_assoc.
  repeat split; congruence.
Qed.

Lemma replays_agree n s s' t t' :
  agree n s t -> replays n s s' t t' -> agree n s' t'.
Proof.
  intros (A1 & A2 & A3) (kg & kc & B1 & B2 & _ & _ & B5 & B6 & B7 & B8).
  split; [congruence|]. split; [congruence|].
  rewrite B1, B2, !length_app, A3. lia.
Qed.

Section Replay.

Variable simplify : geometry -> result geometry.
Variable centroid : geometry -> result geometry.
Variable within : geometry -> geometry -> result bool.
Variable intersection : geometry -> geometry -> result geometry.
Variable DataSource : option string -> result (list Feature).
Variable number_storable : PyDecimal.t -> bool.
Variable geounit_storable : Geounit -> bool.
Variable iteritems : list (option string * nat) -> list (option string * nat).

Variable n : nat.

Lemma import_characteristic_replays cfg feat g entry s s' r t :
  import_characteristic number_storable cfg feat g entry s = (s', r) ->
  exists t',
    import_characteristic number_storable cfg feat (g + n) entry t = (t', r)
    /\ replays n s s' t t'.
Proof.
  unfold import_characteristic. destruct entry as [attr obj].
  unfold bind, lift.
  destruct (feat_get feat attr) as [raw|e];
    [|intros H; inversion H; subst; eexists; split;
      [reflexivity | apply replays_refl]].
  destruct (characteristic_value (str raw)) as [value|e];
    [|intros H; inversion H; subst; eexists; split;
      [reflexivity | apply replays_refl]].
  destruct (number_storable value).
  - intros H. inversion H; subst. eexists. split; [reflexivity|].
    exists [], [mkCharacteristic obj value g]. simpl. rewrite !app_nil_r.
    repeat split.
  - destruct (rbind _ _); intros H; inversion H; subst;
      (eexists; split; [reflexivity|]);
      exists [], [mkCharacteristic obj (PyDecimal.Finite false 0 (-1)) g];
      simpl; rewrite !app_nil_r; repeat split.
Qed.

Lemma import_characteristics_replays cfg feat g so : forall s s' r t,
  for_each so (import_characteristic number_storable cfg feat g) s = (s', r) ->
  exists t',
    for_each so (import_characteristic number_storable cfg feat (g + n)) t = (t', r)
    /\ replays n s s' t t'.
Proof.
  induction so as [|entry so IH]; intros s s' r t H; simpl in H |- *.
  - inversion H; subst. exists t. split; [reflexivity | apply replays_refl].
  - unfold bind in H |- *.
    destruct (import_characteristic number_storable cfg feat g entry s)
      as [s1 r1] eqn:E1.
    destruct (import_characteristic_replays _ _ _ _ _ _ _ t E1) as (t1 & Et1 & R1).
    rewrite Et1. destruct r1 as [[]|e].
    + destruct (IH _ _ _ t1 H) as (t' & Et' & R2).
      exists t'. split; [exact Et' | eapply replays_trans; eauto].
    + inversion H; subst. exists t1. split; [reflexivity | exact R1].
Qed.

Lemma import_features_replays cfg level so lyr : forall my_geom s s' r t,
  List.length (geounits t) = (List.length (geounits s) + n)%nat ->
  import_features simplify centroid within intersection
                  number_storable geounit_storable iteritems
                  cfg level so lyr my_geom s = (s', r) ->
  exists t',
    import_features simplify centroid within intersection
                    number_storable geounit_storable iteritems
                    cfg level so lyr my_geom t = (t', r)
    /\ replays n s s' t t'.
Proof.
  induction lyr as [|feat lyr IH]; intros my_geom s s' r t Hlen H;
    simpl in H |- *.
  - inversion H; subst. exists t. split; [reflexivity | apply replays_refl].
  - assert (Hfailed : forall mg,
      import_features simplify centroid within intersection
        number_storable geounit_storable iteritems cfg level so lyr mg
        (set_printed (printed s ++ [FailedGeometry (fid feat)])%list s) = (s', r) ->
      exists t',
        import_features simplify centroid within intersection
          number_storable geounit_storable iteritems cfg level so lyr mg
          (set_printed (printed t ++ [FailedGeometry (fid feat)])%list t) = (t', r)
        /\ replays n s s' t t').
    { intros mg Hmg.
      destruct (IH mg
                  (set_printed (printed s ++ [FailedGeometry (fid feat)])%list s)
                  s' r
                  (set_printed (printed t ++ [FailedGeometry (fid feat)])%list t)
                  Hlen Hmg) as (t' & Et' & R).
      exists t'. split; [exact Et' | exact R]. }
    destruct (feature_geounit _ _ _ _ _ _ _ _) as [my_geom' [row|e]];
      [|now apply Hfailed].
    destruct (geounit_storable row); [|now apply Hfailed].
    rewrite Hlen.
    destruct (for_each (iteritems so) _ (set_geounits _ s)) as [s2 r2] eqn:Ec.
    destruct (import_characteristics_replays _ _ _ _ _ _ _
                (set_geounits (geounits t ++ [row])%list t) Ec)
      as (t2 & Et2 & R2).
    rewrite Et2.
    assert (R1 : replays n s s2 t t2).
    { destruct R2 as (kg & kc & B1 & B2 & B3 & B4 & B5 & B6 & B7 & B8).
      simpl in *. exists (row :: kg), kc.
      rewrite B1, B2, <- !app_assoc. repeat split; assumption. }
    destruct r2 as [[]|e].
    + assert (Hlen2 : List.length (geounits t2)
                      = (List.length (geounits s2) + n)%nat).
      { destruct R1 as (kg & kc & B1 & B2 & _). rewrite B1, B2, !length_app. lia. }
      destruct (IH PyNone _ _ _ t2 Hlen2 H) as (t' & Et' & R3).
      exists t'. split; [exact Et' | eapply replays_trans; eauto].
    + inversion H; subst. exists t2. split; [reflexivity | exact R1].
Qed.

Lemma alias_subject_agree c kids : forall acc s t r,
  subjects t = subjects s ->
  alias_subject c kids acc s = (s, r) -> alias_subject c kids acc t = (t, r).
Proof.
  induction kids as [|kid kids IH]; intros acc s t r Hs H; simpl in H |- *.
  - inversion H. reflexivity.
  - unfold bind, query in H |- *. rewrite Hs.
    destruct (objects_get MSubject _ (subjects s)) as [found|e].
    + now apply (IH _ s).
    + inversion H. reflexivity.
Qed.

Lemma subject_object_agree c sconfig s t r :
  subjects t = subjects s ->
  subject_object c sconfig s = (s, r) -> subject_object c sconfig t = (t, r).
Proof.
  intros Hs H. unfold subject_object, bind in H |- *.
  destruct (alias_subject c _ None s) as [s1 r1] eqn:E1.
  pose proof (alias_subject_reads _ _ _ _ _ _ E1) as <-.
  rewrite (alias_subject_agree _ _ _ _ _ _ Hs E1).
  destruct r1 as [[sub|]|e].
  - inversion H. reflexivity.
  - unfold query in H |- *. rewrite Hs. inversion H. reflexivity.
  - inversion H. reflexivity.
Qed.

Lemma subject_objects_of_agree c nodes : forall d s t r,
  subjects t = subjects s ->
  subject_objects_of c nodes d s = (s, r) ->
  subject_objects_of c nodes d t = (t, r).
Proof.
  induction nodes as [|sconfig nodes IH]; intros d s t r Hs H; simpl in H |- *.
  - inversion H. reflexivity.
  - unfold bind in H |- *.
    destruct (subject_object c sconfig s) as [s1 r1] eqn:E1.
    pose proof (subject_object_reads _ _ _ _ _ E1) as <-.
    rewrite (subject_object_agree _ _ _ _ _ Hs E1).
    destruct r1 as [sub|e]; [now apply (IH _ s) | inversion H; reflexivity].
Qed.

Lemma import_shape_replays c cfg s s' r t :
  agree n s t ->
  import_shape simplify centroid within intersection DataSource
               number_storable geounit_storable iteritems c cfg s = (s', r) ->
  exists t',
    import_shape simplify centroid within intersection DataSource
                 number_storable geounit_storable iteritems c cfg t = (t', r)
    /\ replays n s s' t t'.
Proof.
  intros (As & Ag & Al) H. unfold import_shape in H |- *.
  unfold bind at 1 in H. unfold bind at 1. unfold lift in H |- *.
  destruct (DataSource (shapepath cfg)) as [lyr|e];
    [|inversion H; subst; exists t; split; [reflexivity | apply replays_refl]].
  unfold bind at 1 in H. unfold bind at 1. unfold query in H |- *. rewrite Ag.
  destruct (objects_get MGeolevel _ (geolevels s)) as [level|e];
    [|inversion H; subst; exists t; split; [reflexivity | apply replays_refl]].
  unfold bind in H |- *.
  destruct (subject_objects_of c (subject_field_nodes cfg) [] s) as [s1 r1] eqn:Eso.
  pose proof (subject_objects_of_reads _ _ _ _ _ _ Eso) as <-.
  rewrite (subject_objects_of_agree _ _ _ _ _ _ As Eso).
  destruct r1 as [so|e];
    [|inversion H; subst; exists t; split; [reflexivity | apply replays_refl]].
  eapply import_features_replays; eauto.
Qed.

Lemma import_geolevel_replays c node s c' s' r t :
  agree n s t ->
  import_geolevel simplify centroid within intersection DataSource
                  number_storable geounit_storable iteritems
                  c node s = (c', (s', r)) ->
  exists t',
    import_geolevel simplify centroid within intersection DataSource
                    number_storable geounit_storable iteritems
                    c node t = (c', (t', r))
    /\ replays n s s' t t'.
Proof.
  intros Ha. unfold import_geolevel. cbv zeta.
  destruct (subject_fields c _) as [c1 [nodes|e]]; intros H.
  - inversion H as [[Hc Hrun]]. subst c'.
    destruct (import_shape_replays _ _ _ _ _ _ Ha Hrun) as (t' & Et' & R).
    exists t'. rewrite Et'. split; [reflexivity | exact R].
  - inversion H; subst. exists t. split; [reflexivity | apply replays_refl].
Qed.

Lemma import_geolevels_replays optlevels nodes : forall c i s c' s' r t,
  agree n s t ->
  import_geolevels simplify centroid within intersection DataSource
                   number_storable geounit_storable iteritems
                   c optlevels i nodes s = (c', (s', r)) ->
  exists t',
    import_geolevels simplify centroid within intersection DataSource
                     number_storable geounit_storable iteritems
                     c optlevels i nodes t = (c', (t', r))
    /\ replays n s s' t t'.
Proof.
  induction nodes as [|node nodes IH]; intros c i s c' s' r t Ha H;
    simpl in H |- *.
  - inversion H; subst. exists t. split; [reflexivity | apply replays_refl].
  - destruct (_ || _)%bool; [|eapply IH; eauto].
    destruct (import_geolevel _ _ _ _ _ _ _ _ c node s) as [c1 [s1 r1]] eqn:E1.
    destruct (import_geolevel_replays _ _ _ _ _ _ _ Ha E1) as (t1 & Et1 & R1).
    rewrite Et1. destruct r1 as [[]|e].
    + destruct (IH _ _ _ _ _ _ t1 (replays_agree _ _ _ _ _ Ha R1) H)
        as (t' & Et' & R2).
      exists t'. split; [exact Et' | eapply replays_trans; eauto].
    + inversion H; subst. exists t1. split; [reflexivity | exact R1].
Qed.

End Replay.

Section Rerun.

Variable simplify : geometry -> result geometry.
Variable centroid : geometry -> result geometry.
Variable within : geometry -> geometry -> result bool.
Variable intersection : geometry -> geometry -> result geometry.
Variable DataSource : option string -> result (list Feature).
Variable number_storable : PyDecimal.t -> bool.
Variable geounit_storable : Geounit -> bool.
Variable iteritems : list (option string * nat) -> list (option string * nat).

Lemma import_geolevel_imports c node s c' s' r :
  import_geolevel simplify centroid within intersection DataSource
               number_storable geounit_storable iteritems
                  c node s = (c', (s', r)) ->
  imports s s'.
Proof.
  unfold import_geolevel. cbv zeta. destruct (subject_fields c _) as [c1 [nodes|e]].
  - intros H. inversion H as [[Hc Hrun]]. eapply import_shape_imports; eauto.
  - intros H. inversion H; subst. apply imports_refl.
Qed.

Lemma import_geolevels_imports optlevels nodes : forall c i s c' s' r,
  import_geolevels simplify centroid within intersection DataSource
               number_storable geounit_storable iteritems
                   c optlevels i nodes s = (c', (s', r)) ->
  imports s s'.
Proof.
  induction nodes as [|node nodes IH]; intros c i s c' s' r H; simpl in H.
  - inversion H; subst. apply imports_refl.
  - destruct (_ || _)%bool; [|eapply IH; eauto].
    destruct (import_geolevel _ _ _ _ _ _ _ _ c node s) as [c1 [s1 r1]] eqn:E1.
    pose proof (import_geolevel_imports _ _ _ _ _ _ E1) as H1.
    destruct r1 as [[]|e].
    + eapply imports_trans; [exact H1 | eapply IH; eauto].
    + inversion H; subst. exact H1.
Qed.

(** What [handle] does after [import_prereq]. *)
Lemma handle_split c optlevels s s' r :
  handle simplify centroid within intersection DataSource
               number_storable geounit_storable iteritems
         c optlevels s = (s', r) ->
  exists sa ra, import_prereq c s = (sa, ra) /\ imports sa s'
                /\ (r = Ok tt -> ra = Ok tt).
Proof.
  unfold handle. destruct (import_prereq c s) as [sa [[]|e]] eqn:E.
  - destruct optlevels as [l|].
    + destruct (import_geolevels _ _ _ _ _ _ _ _ c l 0 (cfg_geolevels c) sa)
        as [c' [s2 r2]] eqn:E2.
      simpl. intros H. inversion H; subst. exists sa, (Ok tt).
      repeat split; auto. all: try (eapply import_geolevels_imports; eauto).
    + intros H. inversion H; subst. exists s', (Ok tt).
      split; [reflexivity|]. split; [apply imports_refl | auto].
  - intros H. inversion H; subst. exists s', (Raise e).
    split; [reflexivity|]. split; [apply imports_refl | discriminate].
Qed.

(** What a second run keeps. *)
Lemma handle_rerun_keeps c optlevels s s1 s2 r :
  handle simplify centroid within intersection DataSource
               number_storable geounit_storable iteritems
         c optlevels s = (s1, Ok tt) ->
  handle simplify centroid within intersection DataSource
               number_storable geounit_storable iteritems
         c optlevels s1 = (s2, r) ->
  bodies s2 = bodies s1 /\ subjects s2 = subjects s1 /\ targets s2 = targets s1
  /\ geolevels s2 = geolevels s1 /\ levels s2 = levels s1
  /\ List.length (defaults s2) = List.length (defaults s1)
  /\ List.length (users s2) = List.length (users s1)
  /\ prefix (geounits s1) (geounits s2)
  /\ prefix (characteristics s1) (characteristics s2).
Proof.
  intros H1 H2.
  destruct (handle_split _ _ _ _ _ H1) as (sa & ra & Ea & Ia & Hra).
  rewrite (Hra eq_refl) in Ea.
  destruct (handle_split _ _ _ _ _ H2) as (ta & rb & Eb & Ib & _).
  destruct (replayable_import_prereq c _ _ _ Ea) as [_ R].
  destruct Ia as (Ca & Ua & Ga & Cha).
  destruct (R s1 (same_catalog_extends _ _ Ca) _ _ Eb) as [Cb _].
  destruct (anonymous_exists _ _ _ Ea) as (i & more & Hp).
  rewrite <- Ua in Hp.
  pose proof (import_prereq_users_rerun _ _ _ _ _ _ Hp Eb) as Ub.
  pose proof (import_prereq_units c _ _ _ Eb) as [Gb Chb].
  destruct Ib as (Cc & Uc & Gc & Chc).
  destruct (same_catalog_trans _ _ _ Cb Cc) as (A1 & A2 & A3 & A4 & A5 & A6).
  repeat split; try assumption.
  - unfold defaults_bodies in A6.
    rewrite <- (length_map ld_legislative_body (defaults s2)), A6.
    apply length_map.
  - now rewrite Uc.
  - now rewrite <- Gb.
  - now rewrite <- Chb.
Qed.

(** C2, as the code has it. When the command has run to its end, a second
    run on the same configuration and shapefiles, however it ends, adds no
    row of LegislativeBody, Subject, Target, GeoLevel, LegislativeLevel,
    LegislativeDefaults or User, and keeps the geounits and characteristics
    of the first run.  Geounits are not looked up before they are created:
    unless the second run stops in the reconciliation, where it adds none,
    it runs to its end and creates every geounit that the first run created
    once more, with the same characteristics for the new rows. *)
Theorem handle_rerun c optlevels s s1 s2 r :
  handle simplify centroid within intersection DataSource
         number_storable geounit_storable iteritems
         c optlevels s = (s1, Ok tt) ->
  handle simplify centroid within intersection DataSource
         number_storable geounit_storable iteritems
         c optlevels s1 = (s2, r) ->
  bodies s2 = bodies s1 /\ subjects s2 = subjects s1 /\ targets s2 = targets s1
  /\ geolevels s2 = geolevels s1 /\ levels s2 = levels s1
  /\ List.length (defaults s2) = List.length (defaults s1)
  /\ List.length (users s2) = List.length (users s1)
  /\ prefix (geounits s1) (geounits s2)
  /\ prefix (characteristics s1) (characteristics s2)
  /\ exists kg kc,
       geounits s1 = (geounits s ++ kg)%list
       /\ characteristics s1 = (characteristics s ++ kc)%list
       /\ ((r = Ok tt
            /\ geounits s2 = (geounits s1 ++ kg)%list
            /\ characteristics s2
               = (characteristics s1 ++ shifted (List.length kg) kc)%list)
           \/ (exists e, import_prereq c s1 = (s2, Raise e) /\ r = Raise e
                         /\ geounits s2 = geounits s1
                         /\ characteristics s2 = characteristics s1)).
Proof.
  intros H1 H2.
  pose proof (handle_rerun_keeps _ _ _ _ _ _ H1 H2)
    as (K1 & K2 & K3 & K4 & K5 & K6 & K7 & K8 & K9).
  repeat (split; [assumption|]).
  destruct (handle_split _ _ _ _ _ H1) as (sa & ra & Ea & Ia & Hra).
  rewrite (Hra eq_refl) in Ea.
  pose proof (import_prereq_units c _ _ _ Ea) as [Ga Cha].
  unfold handle in H1, H2. rewrite Ea in H1.
  destruct (import_prereq c s1) as [ta rb] eqn:Eb.
  pose proof (import_prereq_units c _ _ _ Eb) as [Gb Chb].
  destruct rb as [[]|e].
  2:{ inversion H2; subst.
      destruct Ia as (_ & _ & [kg Hg] & [kc Hc]).
      exists kg, kc. rewrite <- Ga, <- Cha. split; [exact Hg|]. split; [exact Hc|].
      right. exists e. auto. }
  destruct optlevels as [l|].
  2:{ inversion H1; inversion H2; subst. exists [], [].
      rewrite !app_nil_r. split; [now symmetry|]. split; [now symmetry|].
      left. auto. }
  destruct (import_geolevels _ _ _ _ _ _ _ _ c l 0 (cfg_geolevels c) sa)
    as [c1 [s1' r1]] eqn:E1.
  simpl in H1. inversion H1; subst s1' r1; clear H1.
  destruct (import_geolevels _ _ _ _ _ _ _ _ c l 0 (cfg_geolevels c) ta)
    as [c2 [s2' r2]] eqn:E2.
  simpl in H2. inversion H2; subst s2' r2; clear H2.
  destruct (replayable_import_prereq c _ _ _ Ea) as [_ R].
  destruct Ia as (Ca & Ua & [kg0 Hg0] & Cha0).
  destruct (R s1 (same_catalog_extends _ _ Ca) _ _ Eb) as [Cb _].
  destruct Ca as (_ & Cs & _ & Cg & _). destruct Cb as (_ & Cs' & _ & Cg' & _).
  assert (Hagree : agree (List.length kg0) sa ta).
  { split; [congruence|]. split; [congruence|].
    rewrite Gb, Hg0, length_app. reflexivity. }
  destruct (import_geolevels_replays _ _ _ _ _ _ _ _ _ _ _ _ _ _ _ _ _ ta Hagree E1)
    as (t' & Et' & (kg & kc & B1 & B2 & B3 & B4 & _)).
  rewrite E2 in Et'. inversion Et'; subst c2 t' r; clear Et'.
  assert (kg = kg0) by (rewrite Hg0 in B1; now apply app_inv_head in B1).
  subst kg0.
  exists kg, kc. rewrite <- Ga, <- Cha.
  split; [exact B1|]. split; [exact B3|]. left.
  split; [reflexivity|]. rewrite B2, B4, Gb, Chb. split; reflexivity.
Qed.

End Rerun.

Lemma handle_rerun_witness :
  let s1 := fst (Sample.run_handle Sample.config (Some []) empty_store) in
  let s2 := fst (Sample.run_handle Sample.config (Some []) s1) in
  bodies s2 = bodies s1 /\ subjects s2 = subjects s1 /\ targets s2 = targets s1
  /\ geolevels s2 = geolevels s1 /\ levels s2 = levels s1
  /\ List.length (defaults s2) = List.length (defaults s1)
  /\ List.length (users s2) = List.length (users s1)
  /\ prefix (geounits s1) (geounits s2)
  /\ prefix (characteristics s1) (characteristics s2)
  /\ exists kg kc,
       geounits s1 = (geounits empty_store ++ kg)%list
       /\ characteristics s1 = (characteristics empty_store ++ kc)%list
       /\ ((Ok tt = Ok tt
            /\ geounits s2 = (geounits s1 ++ kg)%list
            /\ characteristics s2
               = (characteristics s1 ++ shifted (List.length kg) kc)%list)
           \/ (exists e, import_prereq Sample.config s1 = (s2, Raise e)
                         /\ Ok tt = Raise e
                         /\ geounits s2 = geounits s1
                         /\ characteristics s2 = characteristics s1)).
Proof.
  refine (handle_rerun Sample.simplify Sample.centroid Sample.within
            Sample.intersection Sample.DataSource Sample.number_storable
            Sample.geounit_storable Sample.iteritems
            Sample.config (Some []) empty_store
            (fst (Sample.run_handle Sample.config (Some []) empty_store))
            (fst (Sample.run_handle Sample.config (Some [])
                    (fst (Sample.run_handle Sample.config (Some []) empty_store))))
            (Ok tt) _ _);
    vm_compute; reflexivity.
Defined.

(** C2, as stated, fails: the second run of the sample creates the five
    geounits of the first run once more. *)
Lemma rerun_duplicates_geounits :
  let s1 := fst (Sample.run_handle Sample.config (Some []) empty_store) in
  let s2 := fst (Sample.run_handle Sample.config (Some []) s1) in
  snd (Sample.run_handle Sample.config (Some []) empty_store) = Ok tt
  /\ snd (Sample.run_handle Sample.config (Some []) s1) = Ok tt
  /\ List.length (geounits s1) = 5%nat
  /\ List.length (geounits s2) = 10%nat
  /\ geounits s2 = (geounits s1 ++ geounits s1)%list.
Proof. vm_compute. repeat split. Qed.

(** ** The feature loop *)

Lemma same_geounits_refl s : same_geounits s s.
Proof. split; reflexivity. Qed.

Lemma same_geounits_trans a b c :
  same_geounits a b -> same_geounits b c -> same_geounits a c.
Proof. unfold same_geounits. intros [] []. split; congruence. Qed.

Lemma geometry_failures_app l k :
  geometry_failures (l ++ k) = (geometry_failures l ++ geometry_failures k)%list.
Proof.
  induction l as [|[i|a n] l IH]; simpl; [reflexivity| |exact IH].
  now rewrite IH.
Qed.

Section FeatureLoop.

Variable simplify : geometry -> result geometry.
Variable centroid : geometry -> result geometry.
Variable within : geometry -> geometry -> result bool.
Variable intersection : geometry -> geometry -> result geometry.
Variable DataSource : option string -> result (list Feature).
Variable number_storable : PyDecimal.t -> bool.
Variable geounit_storable : Geounit -> bool.
Variable iteritems : list (option string * nat) -> list (option string * nat).

Local Abbreviation feature_geounit' :=
  (feature_geounit simplify centroid within intersection).
Local Abbreviation geounit_of' := (geounit_of simplify centroid within intersection).
Local Abbreviation geounit_row' := (geounit_row simplify centroid within intersection).
Local Abbreviation repair' := (repair simplify centroid within intersection).
Local Abbreviation stale' := (stale simplify centroid within intersection).
Local Abbreviation imported_rows' :=
  (imported_rows simplify centroid within intersection).
Local Abbreviation skipped' := (skipped simplify centroid within intersection).


Lemma geounit_row_repair cfg level feat g :
  is_ok (repair' g) = false -> is_ok (geounit_row' cfg level feat g) = false.
Proof.
  unfold geounit_row, rbind.
  destruct (repair' g); [discriminate | reflexivity].
Qed.

Lemma geounit_row_fields cfg level feat g :
  is_ok (feat_get feat (name_field cfg)) = true ->
  (truthy (supplemental_id_field cfg) = true ->
   is_ok (feat_get feat (supplemental_id_field cfg)) = true) ->
  is_ok (geounit_row' cfg level feat g) = false -> is_ok (repair' g) = false.
Proof.
  intros Hname Hsupp. unfold geounit_row, rbind.
  destruct (repair' g) as [rep|e]; [|reflexivity].
  destruct (feat_get feat (name_field cfg)) as [name|e]; [|discriminate].
  destruct (truthy (supplemental_id_field cfg)); [|discriminate].
  destruct (feat_get feat (supplemental_id_field cfg)) as [v|e]; [discriminate|].
  specialize (Hsupp eq_refl). discriminate.
Qed.

(** A value left in [my_geom] by an earlier feature does not change
    whether a feature gives a geounit, nor the geounit. *)
Lemma feature_geounit_stale cfg level my_geom feat :
  is_ok (feat_get feat (name_field cfg)) = true ->
  (truthy (supplemental_id_field cfg) = true ->
   is_ok (feat_get feat (supplemental_id_field cfg)) = true) ->
  stale' my_geom ->
  match snd (feature_geounit' cfg level my_geom feat) with
  | Ok row => geounit_of' cfg level feat = Ok row
  | Raise _ => is_ok (geounit_of' cfg level feat) = false
               /\ stale' (fst (feature_geounit' cfg level my_geom feat))
  end.
Proof.
  intros Hname Hsupp Hstale.
  unfold geounit_of, feature_geounit.
  destruct (feat_geom feat) as [geos|e]; cbn [fst snd]; [|auto].
  assert (Hother :
    coerce my_geom geos = my_geom -> coerce Unbound geos = Unbound ->
    match rbind (deref (coerce my_geom geos)) (geounit_row' cfg level feat) with
    | Ok row => rbind (deref (coerce Unbound geos)) (geounit_row' cfg level feat)
                = Ok row
    | Raise _ =>
        is_ok (rbind (deref (coerce Unbound geos)) (geounit_row' cfg level feat))
        = false
        /\ stale' (coerce my_geom geos)
    end).
  { intros -> ->. destruct my_geom as [| |g]; cbn; auto.
    pose proof (geounit_row_repair cfg level feat g Hstale) as Hr.
    destruct (geounit_row' cfg level feat g); [discriminate | auto]. }
  assert (Hpoly : forall g,
    coerce my_geom geos = Bound g -> coerce Unbound geos = Bound g ->
    match rbind (deref (coerce my_geom geos)) (geounit_row' cfg level feat) with
    | Ok row => rbind (deref (coerce Unbound geos)) (geounit_row' cfg level feat)
                = Ok row
    | Raise _ =>
        is_ok (rbind (deref (coerce Unbound geos)) (geounit_row' cfg level feat))
        = false
        /\ stale' (coerce my_geom geos)
    end).
  { intros g -> ->. cbn.
    pose proof (geounit_row_fields cfg level feat g Hname Hsupp) as Hr.
    destruct (geounit_row' cfg level feat g); [reflexivity|].
    split; [reflexivity | now apply Hr]. }
  destruct geos; try (apply Hother; reflexivity).
  - apply (Hpoly (MultiPolygon [p])); reflexivity.
  - apply (Hpoly (MultiPolygon ps)); reflexivity.
Qed.

Lemma import_characteristic_geounits cfg feat g entry :
  always same_geounits (import_characteristic number_storable cfg feat g entry).
Proof.
  intros s s' r H. unfold import_characteristic in H. destruct entry as [attr obj].
  unfold bind, lift in H.
  destruct (feat_get feat attr) as [raw|e]; [|inversion H; apply same_geounits_refl].
  destruct (characteristic_value (str raw)) as [value|e];
    [|inversion H; apply same_geounits_refl].
  destruct (number_storable value); [inversion H; subst; split; reflexivity|].
  destruct (rbind _ _); inversion H; subst; split; try reflexivity.
  simpl. rewrite geometry_failures_app. simpl. apply app_nil_r.
Qed.

Lemma import_features_geounits cfg level so lyr : forall my_geom s s',
  (forall row, geounit_storable row = true) ->
  fields_present cfg lyr -> stale' my_geom ->
  import_features simplify centroid within intersection
                  number_storable geounit_storable iteritems
                  cfg level so lyr my_geom s = (s', Ok tt) ->
  geounits s' = (geounits s ++ imported_rows' cfg level lyr)%list
  /\ geometry_failures (printed s')
     = (geometry_failures (printed s) ++ skipped' cfg level lyr)%list.
Proof.
  intros my_geom s s' Hsave. revert my_geom s s'.
  induction lyr as [|feat lyr IH]; intros my_geom s s' Hf Hst H; simpl in H.
  - inversion H; subst. simpl. now rewrite !app_nil_r.
  - assert (Hf' : fields_present cfg lyr)
      by (intros x Hx; apply Hf; now right).
    destruct (Hf feat (or_introl eq_refl)) as [Hname Hsupp].
    pose proof (feature_geounit_stale cfg level my_geom feat Hname Hsupp Hst) as Hs.
    unfold imported_rows, skipped. simpl.
    destruct (feature_geounit'
                cfg level my_geom feat) as [my_geom' [row|e]]; cbn [fst snd] in Hs.
    + rewrite Hs. rewrite Hsave in H.
      destruct (for_each (iteritems so) _ _) as [s2 r2] eqn:Ec.
      destruct r2 as [[]|e]; [|discriminate].
      pose proof (always_for_each same_geounits same_geounits_refl
                    same_geounits_trans (iteritems so) _
                    (fun x _ => import_characteristic_geounits cfg feat _ x)
                    _ _ _ Ec) as [Hg Hp].
      destruct (IH PyNone s2 s' Hf' I H) as [Hg' Hp'].
      simpl in Hg, Hp. rewrite Hg', Hp', Hg, Hp, <- app_assoc. split; reflexivity.
    + destruct Hs as [Hbad Hst'].
      destruct (geounit_of' cfg level feat);
        [discriminate|].
      destruct (IH my_geom' _ s' Hf' Hst' H) as [Hg' Hp'].
      simpl in Hg', Hp'. rewrite Hg', Hp', geometry_failures_app, <- app_assoc.
      split; reflexivity.
Qed.

(** While the database takes every geounit, what the claim says holds of a
    layer whose features carry the name field and whose import runs to its
    end: a feature whose geometry block fails is skipped, with its failure
    printed, and every other feature gets its geounit, in file order. *)
Lemma import_shape_geounits c cfg lyr level s s' :
  (forall row, geounit_storable row = true) ->
  DataSource (shapepath cfg) = Ok lyr ->
  objects_get MGeolevel (geolevel_named (geolevel cfg)) (geolevels s) = Ok level ->
  fields_present cfg lyr ->
  import_shape simplify centroid within intersection DataSource
               number_storable geounit_storable iteritems
               c cfg s = (s', Ok tt) ->
  geounits s' = (geounits s ++ imported_rows' cfg level lyr)%list
  /\ geometry_failures (printed s')
     = (geometry_failures (printed s) ++ skipped' cfg level lyr)%list.
Proof.
  intros Hsave Hds Hlevel Hf H. unfold import_shape in H.
  unfold bind at 1 in H. unfold lift in H. rewrite Hds in H.
  unfold bind at 1 in H. unfold query in H. rewrite Hlevel in H.
  unfold bind in H.
  destruct (subject_objects_of c (subject_field_nodes cfg) [] s) as [s1 r1] eqn:Eso.
  pose proof (subject_objects_of_reads _ _ _ _ _ _ Eso) as <-.
  destruct r1 as [so|e]; [|discriminate].
  eapply import_features_geounits; eauto. exact I.
Qed.

Lemma coerce_unsupported my_geom geos :
  geom_type geos <> KPolygon -> geom_type geos <> KMultiPolygon ->
  coerce my_geom geos = my_geom.
Proof. destruct geos; simpl; intros H1 H2; congruence. Qed.

(** The row of a feature that carries its fields, for a geometry that the
    repair takes: the geometry, the name of the feature, and the repair. *)
Lemma geounit_row_of cfg level feat g simple center name :
  repair' g = Ok (simple, center) ->
  feat_get feat (name_field cfg) = Ok name ->
  (truthy (supplemental_id_field cfg) = true ->
   is_ok (feat_get feat (supplemental_id_field cfg)) = true) ->
  exists supplemental,
    geounit_row' cfg level feat g
    = Ok (mkGeounit g name level simple center supplemental).
Proof.
  intros Hr Hn Hs. unfold geounit_row, rbind. rewrite Hr, Hn. simpl.
  destruct (truthy (supplemental_id_field cfg)); [|eauto].
  specialize (Hs eq_refl).
  destruct (feat_get feat (supplemental_id_field cfg)); [eauto | discriminate].
Qed.

(** C5. A layer of two features that carry their fields: the first has a
    polygon or a multipolygon that passes the geometry block, but the
    database refuses its row, so that [g.save()] raises and the reset of
    line 711 is passed over; the second has a geometry of an unsupported
    type.  The first feature is skipped and its failure printed.  The
    second is not: lines 667-670 leave [my_geom] as the first feature left
    it, and the second feature gets a geounit under its own name with the
    geometry of the first; no failure is printed for it. *)
Theorem unsupported_geometry_is_imported c cfg level so s
    feat1 feat2 geos1 g1 simple center name1 geos2 name2 :
  DataSource (shapepath cfg) = Ok [feat1; feat2] ->
  objects_get MGeolevel (geolevel_named (geolevel cfg)) (geolevels s) = Ok level ->
  subject_objects_of c (subject_field_nodes cfg) [] s = (s, Ok so) ->
  fields_present cfg [feat1; feat2] ->
  feat_geom feat1 = Ok geos1 ->
  coerce Unbound geos1 = Bound g1 ->
  repair' g1 = Ok (simple, center) ->
  feat_get feat1 (name_field cfg) = Ok name1 ->
  (forall row, gu_name row = name1 -> geounit_storable row = false) ->
  feat_geom feat2 = Ok geos2 ->
  geom_type geos2 <> KPolygon -> geom_type geos2 <> KMultiPolygon ->
  feat_get feat2 (name_field cfg) = Ok name2 ->
  (forall row, gu_name row = name2 -> geounit_storable row = true) ->
  let run := import_shape simplify centroid within intersection DataSource
                          number_storable geounit_storable iteritems c cfg s in
  exists supplemental,
    geounits (fst run)
    = (geounits s ++ [mkGeounit g1 name2 level simple center supplemental])%list
    /\ geometry_failures (printed (fst run))
       = (geometry_failures (printed s) ++ [fid feat1])%list.
Proof.
  intros Hds Hlevel Hso Hf Hg1 Hc1 Hr1 Hn1 Hno1 Hg2 Hk1 Hk2 Hn2 Hyes2. cbv zeta.
  destruct (Hf feat1 (or_introl eq_refl)) as [_ Hs1].
  destruct (Hf feat2 (or_intror (or_introl eq_refl))) as [_ Hs2].
  destruct (geounit_row_of cfg level feat1 g1 simple center name1 Hr1 Hn1 Hs1)
    as [supp1 Hrow1].
  destruct (geounit_row_of cfg level feat2 g1 simple center name2 Hr1 Hn2 Hs2)
    as [supp2 Hrow2].
  exists supp2.
  destruct (import_shape _ _ _ _ _ _ _ _ c cfg s) as [s' r] eqn:H. cbn [fst].
  unfold import_shape in H.
  unfold bind at 1 in H. unfold lift in H. rewrite Hds in H.
  unfold bind at 1 in H. unfold query in H. rewrite Hlevel in H.
  unfold bind at 1 in H. rewrite Hso in H.
  cbn [import_features] in H. cbv zeta in H.
  unfold feature_geounit at 1 in H. rewrite Hg1, Hc1 in H.
  cbn [deref rbind] in H.
  rewrite Hrow1, (Hno1 (mkGeounit g1 name1 level simple center supp1) eq_refl) in H.
  unfold feature_geounit at 1 in H.
  rewrite Hg2, (coerce_unsupported _ _ Hk1 Hk2) in H.
  cbn [deref rbind] in H.
  rewrite Hrow2, (Hyes2 (mkGeounit g1 name2 level simple center supp2) eq_refl) in H.
  match type of H with context [for_each ?xs ?body ?s0] =>
    destruct (for_each xs body s0) as [s2 r2] eqn:Ec;
    pose proof (always_for_each same_geounits same_geounits_refl
                  same_geounits_trans xs body
                  (fun x _ => import_characteristic_geounits cfg feat2 _ x)
                  _ _ _ Ec) as [Hg Hp]
  end.
  simpl in Hg, Hp. rewrite geometry_failures_app in Hp. simpl in Hp.
  destruct r2 as [[]|e]; inversion H; subst; split; assumption.
Qed.

End FeatureLoop.

Lemma unsupported_geometry_is_imported_witness :
  let run := Sample.run_import_shape Sample.config (Sample.shape "stale.shp")
                                     Sample.catalog in
  exists supplemental,
    geounits (fst run)
    = (geounits Sample.catalog
       ++ [mkGeounit (MultiPolygon [Sample.square 1 0]) (OFTString "unit") 0
                     (MultiPolygon [Sample.square 1 0])
                     (Point (Some (inject_Z 1, inject_Z 0))) supplemental])%list
    /\ geometry_failures (printed (fst run))
       = (geometry_failures (printed Sample.catalog) ++ [1])%list.
Proof.
  refine (unsupported_geometry_is_imported Sample.simplify Sample.centroid
            Sample.within Sample.intersection Sample.DataSource
            Sample.number_storable Sample.geounit_storable Sample.iteritems
            Sample.config (Sample.shape "stale.shp") 0 [(Some "POPTOT", 0%nat)]
            Sample.catalog Sample.overlong
            (Sample.feature 2 (Ok (Point (Some (inject_Z 9, inject_Z 9))))
                            (OFTInteger 7))
            (Polygon (Sample.square 1 0)) (MultiPolygon [Sample.square 1 0])
            (MultiPolygon [Sample.square 1 0])
            (Point (Some (inject_Z 1, inject_Z 0)))
            (OFTString Sample.long_name)
            (Point (Some (inject_Z 9, inject_Z 9))) (OFTString "unit")
            _ _ _ _ _ _ _ _ _ _ _ _ _ _).
  - reflexivity.
  - vm_compute. reflexivity.
  - vm_compute. reflexivity.
  - intros feat Hin. split; [|discriminate].
    simpl in Hin. repeat (destruct Hin as [<-|Hin]; [reflexivity|]). contradiction.
  - reflexivity.
  - reflexivity.
  - reflexivity.
  - reflexivity.
  - intros row Hrow. unfold Sample.geounit_storable. rewrite Hrow.
    vm_compute. reflexivity.
  - reflexivity.
  - discriminate.
  - discriminate.
  - reflexivity.
  - intros row Hrow. unfold Sample.geounit_storable. rewrite Hrow.
    vm_compute. reflexivity.
Defined.

(** Five features, the third with a geometry that cannot be read: four
    geounits, of features 1, 2, 4 and 5, and the failure of feature 3. *)
Example five_features :
  let s' := fst (Sample.run_import_shape Sample.config (Sample.shape "county.shp")
                                         Sample.catalog) in
  List.length (geounits s') = 4%nat
  /\ map gu_geom (geounits s')
     = map (fun i => MultiPolygon [Sample.square i 0]) [1; 2; 4; 5]
  /\ printed s' = [FailedGeometry 3].
Proof. vm_compute. repeat split. Qed.

(** ** A value that does not parse *)

Section Characteristics.

Variable number_storable : PyDecimal.t -> bool.
Variable geounit_storable : Geounit -> bool.
Variable iteritems : list (option string * nat) -> list (option string * nat).

(** The conversion of line 720 is made before the [try] of line 721: its
    exception leaves [import_characteristic] with nothing saved. *)
Lemma import_characteristic_raises cfg feat g attr obj raw e s :
  feat_get feat attr = Ok raw ->
  characteristic_value (str raw) = Raise e ->
  import_characteristic number_storable cfg feat g (attr, obj) s = (s, Raise e).
Proof.
  intros Hraw Hval. unfold import_characteristic, bind, lift.
  now rewrite Hraw, Hval.
Qed.

End Characteristics.

(** C3. A layer of two features, the first with the text "N/A" in the
    subject field: the geounit of the first feature is saved, then the
    conversion raises [InvalidOperation] out of [import_shape]; no
    characteristic is saved, of zero or otherwise, nothing is printed, and
    the second feature is not imported. *)
Theorem unparsable_value_is_fatal :
  let run := Sample.run_import_shape Sample.config (Sample.shape "text.shp")
                                     Sample.catalog in
  snd run = Raise InvalidOperation
  /\ map gu_geom (geounits (fst run)) = [MultiPolygon [Sample.square 1 0]]
  /\ characteristics (fst run) = []
  /\ printed (fst run) = [].
Proof. vm_compute. repeat split. Qed.

(** What the handler of lines 724-730 does cover: a value that the
    [number] column does not take. *)
Example unstorable_value_is_zeroed :
  let run := Sample.run_import_shape Sample.config (Sample.shape "large.shp")
                                     Sample.catalog in
  snd run = Ok tt
  /\ map ch_number (characteristics (fst run))
     = [PyDecimal.Finite false 0 (-1); PyDecimal.Finite false 12346 (-4)]
  /\ printed (fst run) = [FailedValue (Some "POPTOT") (OFTString "unit")].
Proof. vm_compute. repeat split. Qed.

(** ** The centre of a geometry *)

Section Centre.

Variable simplify : geometry -> result geometry.
Variable centroid : geometry -> result geometry.
Variable within : geometry -> geometry -> result bool.
Variable intersection : geometry -> geometry -> result geometry.

(** A centroid inside the geometry is kept. *)
Lemma repaired_center_inside g center :
  centroid g = Ok center -> within center g = Ok true ->
  repaired_center centroid within intersection g = Ok center.
Proof.
  intros Hc Hw. unfold repaired_center, rbind. now rewrite Hc, Hw.
Qed.

(** A centroid outside the geometry is replaced by the centroid of the
    first part of the first member's centre line. *)
Lemma repaired_center_outside g center first_poly min_x max_x c1 my_y crossing part :
  centroid g = Ok center -> within center g = Ok false ->
  first_member g = Ok first_poly ->
  extent_x first_poly = Ok (min_x, max_x) ->
  centroid (Polygon first_poly) = Ok c1 ->
  point_y c1 = Ok my_y ->
  intersection (LineString [(min_x, my_y); (max_x, my_y)]) (Polygon first_poly)
  = Ok crossing ->
  first_part crossing = Ok part ->
  repaired_center centroid within intersection g = centroid part.
Proof.
  intros Hc Hw Hf He Hc1 Hy Hi Hp. unfold repaired_center, rbind.
  rewrite Hc, Hw, Hf, He, Hc1, Hy. cbn [fst snd]. now rewrite Hi, Hp.
Qed.

End Centre.

(** * Further properties of the command *)

(** ** Rules for specifications *)

Lemma hoare_ret {S A} (P : S -> Prop) (a : A) Q E :
  (forall s, P s -> Q a s) -> hoare P (ret a) Q E.
Proof. intros H s s' r Hp Hr. inversion Hr; subst. now apply H. Qed.

Lemma hoare_lift {S A} (P : S -> Prop) (x : result A) (Q : A -> S -> Prop) E :
  (forall a s, x = Ok a -> P s -> Q a s) ->
  (forall e s, x = Raise e -> P s -> E s) ->
  hoare P (lift x) Q E.
Proof.
  intros H1 H2 s s' r Hp Hr. unfold lift in Hr. injection Hr as <- <-.
  destruct x; [eapply H1 | eapply H2]; eauto.
Qed.

Lemma hoare_query {A} (P : Store -> Prop) (f : Store -> result A)
    (Q : A -> Store -> Prop) E :
  (forall a s, f s = Ok a -> P s -> Q a s) ->
  (forall e s, f s = Raise e -> P s -> E s) ->
  hoare P (query f) Q E.
Proof.
  intros H1 H2 s s' r Hp Hr. unfold query in Hr. injection Hr as <- <-.
  destruct (f s) eqn:Ef; [eapply H1 | eapply H2]; eauto.
Qed.

Lemma hoare_bind {S A B} (P : S -> Prop) (m : ST S A) (f : A -> ST S B)
    (Q1 : A -> S -> Prop) (Q : B -> S -> Prop) E :
  hoare P m Q1 E -> (forall a, hoare (Q1 a) (f a) Q E) ->
  hoare P (bind m f) Q E.
Proof.
  intros Hm Hf s s' r Hp Hr. unfold bind in Hr.
  destruct (m s) as [s1 [a|e]] eqn:Em.
  - exact (Hf a s1 s' r (Hm _ _ _ Hp Em) Hr).
  - inversion Hr; subst. exact (Hm _ _ _ Hp Em).
Qed.

Lemma hoare_conseq {S A} (P P' : S -> Prop) (m : ST S A)
    (Q Q' : A -> S -> Prop) (E E' : S -> Prop) :
  hoare P' m Q' E' ->
  (forall s, P s -> P' s) -> (forall a s, Q' a s -> Q a s) ->
  (forall s, E' s -> E s) ->
  hoare P m Q E.
Proof.
  intros H HP HQ HE s s' r Hp Hr. specialize (H s s' r (HP _ Hp) Hr).
  destruct r; auto.
Qed.

(** A loop with an invariant that knows what has been processed. *)
Lemma hoare_for_each_done {S A} (Inv : list A -> S -> Prop) (E : S -> Prop)
    (body : A -> ST S unit) (xs : list A) :
  (forall done x rest, xs = (done ++ x :: rest)%list ->
     hoare (Inv done) (body x) (fun _ => Inv (done ++ [x])%list) E) ->
  hoare (Inv []) (for_each xs body) (fun _ => Inv xs) E.
Proof.
  intros Hb.
  assert (G : forall rest done, xs = (done ++ rest)%list ->
            hoare (Inv done) (for_each rest body) (fun _ => Inv xs) E).
  { induction rest as [|x rest IH]; intros done Hx; simpl.
    - apply hoare_ret. intros s Hs. rewrite Hx, app_nil_r. exact Hs.
    - eapply hoare_bind; [eapply Hb; eauto|].
      intros []. apply IH. rewrite Hx, <- app_assoc. reflexivity. }
  exact (G xs [] eq_refl).
Qed.

Lemma hoare_for_each {S A} (I : S -> Prop) (body : A -> ST S unit) (xs : list A) :
  (forall x, In x xs -> hoare I (body x) (fun _ => I) I) ->
  hoare I (for_each xs body) (fun _ => I) I.
Proof.
  intros Hb. induction xs as [|x xs IH]; simpl.
  - apply hoare_ret. auto.
  - eapply hoare_bind; [apply Hb; now left|].
    intros []. apply IH. intros y Hy. apply Hb. now right.
Qed.

Lemma hoare_get_or_create_in {Row} (P : Store -> Prop) (tbl : Store -> list Row)
    (set : list Row -> Store -> Store) m p new
    (Q : nat * bool -> Store -> Prop) (E : Store -> Prop) :
  (forall s, set (tbl s) s = s) ->
  (forall s i, P s -> positions p 0 (tbl s) = [i] -> Q (i, false) s) ->
  (forall s, P s -> positions p 0 (tbl s) = [] ->
             Q (List.length (tbl s), true) (set (tbl s ++ [new])%list s)) ->
  (forall s, P s -> E s) ->
  hoare P (get_or_create_in tbl set m p new) Q E.
Proof.
  intros Hid H1 H2 H3 s s' r Hp Hr.
  unfold get_or_create_in, objects_get_or_create in Hr.
  destruct (positions p 0 (tbl s)) as [|i [|j l]] eqn:Epos;
    inversion Hr; subst; try rewrite Hid; auto.
Qed.

(** ** Referential integrity *)

Lemma prefix_length {A} (l l' : list A) :
  prefix l l' -> (List.length l <= List.length l')%nat.
Proof. intros [k ->]. rewrite length_app. lia. Qed.

Lemma prefix_nth_error {A} (l l' : list A) i x :
  prefix l l' -> nth_error l i = Some x -> nth_error l' i = Some x.
Proof.
  intros [k ->] H. rewrite nth_error_app1; [exact H|].
  apply nth_error_Some. congruence.
Qed.

Lemma level_wf_grows s s' l :
  prefix (bodies s) (bodies s') -> prefix (geolevels s) (geolevels s') ->
  prefix (targets s) (targets s') -> prefix (levels s) (levels s') ->
  level_wf s l -> level_wf s' l.
Proof.
  intros Hb Hg Ht Hl (H1 & H2 & H3 & H4).
  apply prefix_length in Hb, Hg, Ht.
  unfold level_wf. repeat split; try lia.
  destruct (ll_parent l) as [p|]; [|exact I].
  destruct H4 as (pl & Hp & E1 & E2). exists pl.
  repeat split; auto. eapply prefix_nth_error; eauto.
Qed.

Lemma default_wf_grows s s' d :
  prefix (bodies s) (bodies s') -> prefix (targets s) (targets s') ->
  default_wf s d -> default_wf s' d.
Proof.
  intros Hb Ht (H1 & H2). apply prefix_length in Hb, Ht.
  unfold default_wf. split; [lia|]. destruct (ld_target d); [lia | exact I].
Qed.

(** Rows may be added to a well-formed catalog if the new targets and
    levels refer to rows that exist. *)
Lemma catalog_wf_extend s s' :
  catalog_wf s ->
  prefix (bodies s) (bodies s') -> prefix (subjects s) (subjects s') ->
  prefix (geolevels s) (geolevels s') ->
  (exists kt, targets s' = (targets s ++ kt)%list
              /\ Forall (fun t => (ta_subject t < List.length (subjects s'))%nat) kt) ->
  (exists kl, levels s' = (levels s ++ kl)%list /\ Forall (level_wf s') kl) ->
  (exists kd, defaults s' = (defaults s ++ kd)%list /\ Forall (default_wf s') kd) ->
  catalog_wf s'.
Proof.
  intros (Wt & Wl & Wd) Hb Hs Hg (kt & Et & Ft) (kl & El & Fl) (kd & Ed & Fd).
  assert (Pt : prefix (targets s) (targets s')) by (exists kt; exact Et).
  assert (Pl : prefix (levels s) (levels s')) by (exists kl; exact El).
  split; [|split].
  - rewrite Et. apply Forall_app. split; [|exact Ft].
    eapply Forall_impl; [|exact Wt]. intros t Ht. simpl in Ht.
    apply prefix_length in Hs. lia.
  - rewrite El. apply Forall_app. split; [|exact Fl].
    eapply Forall_impl; [|exact Wl]. intros l. now apply level_wf_grows.
  - rewrite Ed. apply Forall_app. split; [|exact Fd].
    eapply Forall_impl; [|exact Wd]. intros d. now apply default_wf_grows.
Qed.

Lemma no_new_rows {A} (P : A -> Prop) (l : list A) :
  exists k, l = (l ++ k)%list /\ Forall P k.
Proof. exists []. rewrite app_nil_r. auto. Qed.

Lemma one_new_row {A} (P : A -> Prop) (l : list A) x :
  P x -> exists k, (l ++ [x])%list = (l ++ k)%list /\ Forall P k.
Proof. intros H. exists [x]. auto. Qed.

Ltac wf_extend H :=
  apply (catalog_wf_extend _ _ H); simpl;
  try solve [ apply prefix_refl | apply prefix_app | apply no_new_rows ].

Lemma objects_get_lt {R} m (p : R -> bool) l i :
  objects_get m p l = Ok i -> (i < List.length l)%nat.
Proof.
  intros H. destruct (objects_get_row _ _ _ _ H) as (r & Hr & _).
  apply nth_error_Some. congruence.
Qed.

Lemma positions_lt {R} (p : R -> bool) l i rest :
  positions p 0 l = i :: rest -> (i < List.length l)%nat.
Proof.
  intros H. destruct (positions_head _ _ _ _ H) as (r & Hr & _).
  apply nth_error_Some. congruence.
Qed.

Lemma set_tables_id s :
  set_bodies (bodies s) s = s /\ set_subjects (subjects s) s = s
  /\ set_targets (targets s) s = s /\ set_geolevels (geolevels s) s = s
  /\ set_levels (levels s) s = s /\ set_defaults (defaults s) s = s
  /\ set_users (users s) s = s.
Proof. destruct s. repeat split. Qed.

Lemma import_body_wf body :
  hoare catalog_wf (import_body body) (fun _ => catalog_wf) catalog_wf.
Proof.
  unfold import_body. cbv zeta.
  eapply hoare_bind; [|intros x; apply hoare_ret; intros s Hs; exact Hs].
  apply hoare_get_or_create_in; auto.
  - intros s; apply set_tables_id.
  - intros s H _. wf_extend H.
Qed.

Lemma import_subject_wf c i :
  hoare catalog_wf (import_subject c i) (fun _ => catalog_wf) catalog_wf.
Proof.
  unfold import_subject. cbv zeta. destruct (has_attr _ _).
  - apply hoare_ret. auto.
  - eapply hoare_bind; [|intros x; apply hoare_ret; intros s Hs; exact Hs].
    apply hoare_get_or_create_in; auto.
    + intros s; apply set_tables_id.
    + intros s H _. wf_extend H.
Qed.

Lemma import_target_wf c targ :
  hoare catalog_wf (import_target c targ) (fun _ => catalog_wf) catalog_wf.
Proof.
  unfold import_target.
  eapply hoare_bind; [apply hoare_lift with (Q := fun _ => catalog_wf); auto|].
  intros subconfig.
  eapply hoare_bind.
  { apply hoare_query
      with (Q := fun subject s => catalog_wf s
                                  /\ (subject < List.length (subjects s))%nat).
    - intros a s Hq Hs. split; [exact Hs|].
      unfold objects_filter_0, index0 in Hq.
      destruct (positions _ 0 (subjects s)) as [|j rest] eqn:Ep; inversion Hq; subst.
      eapply positions_lt; eauto.
    - auto. }
  intros subject. cbv zeta.
  eapply hoare_bind; [|intros x; apply hoare_ret; intros s Hs; exact Hs].
  apply hoare_get_or_create_in.
  - intros s; apply set_tables_id.
  - intros s i [H _] _. exact H.
  - intros s [H Hlt] _. wf_extend H.
    apply one_new_row. exact Hlt.
  - intros s [H _]. exact H.
Qed.

Lemma Forall_update_nth {R} (P : R -> Prop) (f : R -> R) :
  (forall r, P r -> P (f r)) ->
  forall l i, Forall P l -> Forall P (update_nth i f l).
Proof.
  intros Hf. induction l as [|r l IH]; intros [|i] H; simpl; auto;
    inversion H; subst; constructor; auto.
Qed.

Lemma level_of_true b g t l :
  level_of b g t l = true ->
  ll_legislative_body l = b /\ ll_geolevel l = g /\ ll_target l = t.
Proof.
  unfold level_of. intros H.
  apply andb_true_iff in H. destruct H as [H H3].
  apply andb_true_iff in H. destruct H as [H1 H2].
  apply Nat.eqb_eq in H1, H2, H3. auto.
Qed.

Section LevelIntegrity.

Variables (glvl legislative_body : nat).

(** What is known while a mapping is imported. *)
Let known (s : Store) : Prop :=
  catalog_wf s
  /\ (glvl < List.length (geolevels s))%nat
  /\ (legislative_body < List.length (bodies s))%nat.

Lemma set_default_wf target :
  hoare (fun s => known s /\ (target < List.length (targets s))%nat)
        (set_default legislative_body target)
        (fun _ s => known s /\ (target < List.length (targets s))%nat)
        catalog_wf.
Proof.
  unfold set_default.
  eapply hoare_bind.
  { apply hoare_get_or_create_in
      with (Q := fun _ s => known s /\ (target < List.length (targets s))%nat).
    - intros s; apply set_tables_id.
    - intros s i H _. exact H.
    - intros s [(H & Hg & Hb) Ht] _. split; [split; [|split]|]; auto.
      wf_extend H. apply one_new_row. split; simpl; auto.
    - intros s [(H & _) _]. exact H. }
  intros created s s' r [((Wt & Wl & Wd) & Hg & Hb) Ht] Hr.
  inversion Hr; subst; clear Hr. simpl.
  split; [split; [|split]|]; auto.
  split; [exact Wt|]. split; [exact Wl|]. simpl.
  apply Forall_update_nth; [|exact Wd].
  intros d [D1 _]. split; simpl; auto.
Qed.

Lemma find_parent_wf c lbody target :
  hoare (fun s => known s /\ (target < List.length (targets s))%nat)
        (find_parent c lbody legislative_body target)
        (fun parent s =>
           known s /\ (target < List.length (targets s))%nat
           /\ match parent with
              | None => True
              | Some p => exists pl, nth_error (levels s) p = Some pl
                                     /\ ll_legislative_body pl = legislative_body
                                     /\ ll_target pl = target
              end)
        catalog_wf.
Proof.
  intros s s' r Hpre Hr.
  pose proof (find_parent_reads c lbody legislative_body target _ _ _ Hr) as <-.
  destruct r as [parent|e]; [|apply Hpre].
  destruct Hpre as [Hk Ht]. split; [exact Hk|]. split; [exact Ht|].
  unfold find_parent in Hr. destruct (lbr_parents lbody) as [|p ps].
  - inversion Hr. exact I.
  - unfold bind, lift, query, ret in Hr.
    destruct (index0 _) as [pconfig|e]; [|discriminate].
    destruct (objects_get MGeolevel _ _) as [plvl|e]; [|discriminate].
    destruct (objects_get MLegislativeLevel _ _) as [found|e] eqn:Eg; [|discriminate].
    inversion Hr; subst.
    destruct (objects_get_row _ _ _ _ Eg) as (pl & Hpl & Hof).
    apply level_of_true in Hof. destruct Hof as (E1 & _ & E3).
    exists pl. auto.
Qed.

Lemma resolve_target_wf c targ :
  hoare known (resolve_target c targ)
        (fun target s => known s /\ (target < List.length (targets s))%nat)
        catalog_wf.
Proof.
  intros s s' r Hpre Hr.
  pose proof (resolve_target_reads c targ _ _ _ Hr) as <-.
  destruct r as [target|e]; [|apply Hpre]. split; [exact Hpre|].
  unfold resolve_target, bind, lift, query in Hr.
  destruct (index0 _) as [tconfig|e]; [|discriminate].
  destruct (dereference_subject _ _) as [sconfig|e]; [|discriminate].
  destruct (objects_get MSubject _ _) as [subject|e]; [|discriminate].
  inversion Hr as [Hg]. eapply objects_get_lt; eauto.
Qed.

Lemma import_level_wf c lbody targ :
  hoare known (import_level c glvl lbody legislative_body targ)
        (fun _ => known) catalog_wf.
Proof.
  unfold import_level.
  eapply hoare_bind; [apply resolve_target_wf|]. intros target.
  eapply hoare_bind.
  { destruct (has_attr targ "default").
    - apply set_default_wf.
    - apply hoare_ret
        with (Q := fun _ s => known s /\ (target < List.length (targets s))%nat).
      auto. }
  intros []. eapply hoare_bind; [apply find_parent_wf|]. intros parent. cbv zeta.
  eapply hoare_bind; [|intros x; apply hoare_ret; intros s Hs; exact Hs].
  apply hoare_get_or_create_in.
  - intros s; apply set_tables_id.
  - intros s i [H _] _. exact H.
  - intros s [(H & Hg & Hb) [Ht Hp]] _. split; [|split]; auto.
    wf_extend H. apply one_new_row. unfold level_wf. simpl.
    repeat split; auto.
    destruct parent as [p|]; [|exact I].
    destruct Hp as (pl & Hpl & E1 & E2). exists pl.
    split; [|auto]. rewrite nth_error_app1; [exact Hpl|].
    apply nth_error_Some. congruence.
  - intros s [(H & _) _]. exact H.
Qed.

End LevelIntegrity.

Lemma import_lbody_wf c glvl lbody :
  hoare (fun s => catalog_wf s /\ (glvl < List.length (geolevels s))%nat)
        (import_lbody c glvl lbody)
        (fun _ s => catalog_wf s /\ (glvl < List.length (geolevels s))%nat)
        catalog_wf.
Proof.
  unfold import_lbody.
  eapply hoare_bind.
  { apply hoare_lift
      with (Q := fun _ s => catalog_wf s /\ (glvl < List.length (geolevels s))%nat).
    - auto.
    - intros e s _ [H _]. exact H. }
  intros lbconfig. eapply hoare_bind.
  { apply hoare_query
      with (Q := fun b s => catalog_wf s /\ (glvl < List.length (geolevels s))%nat
                            /\ (b < List.length (bodies s))%nat).
    - intros b s Hq [H Hg]. split; [exact H|]. split; [exact Hg|].
      eapply objects_get_lt; eauto.
    - intros e s _ [H _]. exact H. }
  intros legislative_body.
  assert (L : forall targs,
    hoare (fun s => catalog_wf s /\ (glvl < List.length (geolevels s))%nat
                    /\ (legislative_body < List.length (bodies s))%nat)
          (for_each targs (import_level c glvl lbody legislative_body))
          (fun _ s => catalog_wf s /\ (glvl < List.length (geolevels s))%nat)
          catalog_wf).
  { induction targs as [|targ targs IH]; simpl.
    - apply hoare_ret. intros s (H & Hg & _). auto.
    - eapply hoare_bind; [apply import_level_wf|]. intros []. exact IH. }
  apply L.
Qed.

Lemma import_geolevel_row_wf c node :
  hoare catalog_wf (import_geolevel_row c node) (fun _ => catalog_wf) catalog_wf.
Proof.
  unfold import_geolevel_row. cbv zeta.
  eapply hoare_bind.
  { apply hoare_get_or_create_in
      with (Q := fun x s => catalog_wf s
                            /\ (fst x < List.length (geolevels s))%nat).
    - intros s; apply set_tables_id.
    - intros s i H Hp. split; [exact H|]. simpl. eapply positions_lt; eauto.
    - intros s H _. split; [wf_extend H|]. simpl. rewrite length_app. simpl. lia.
    - auto. }
  intros [glvl created]. simpl.
  assert (L : forall lbodies,
    hoare (fun s => catalog_wf s /\ (glvl < List.length (geolevels s))%nat)
          (for_each lbodies (import_lbody c glvl))
          (fun _ => catalog_wf) catalog_wf).
  { induction lbodies as [|lbody lbodies IH]; simpl.
    - apply hoare_ret. intros s [H _]. exact H.
    - eapply hoare_bind; [apply import_lbody_wf|]. intros []. exact IH. }
  apply L.
Qed.

Lemma import_anonymous_wf :
  hoare catalog_wf import_anonymous (fun _ => catalog_wf) catalog_wf.
Proof.
  intros s s' r H Hr.
  pose proof (import_anonymous_catalog _ _ _ Hr) as (E1 & E2 & E3 & E4 & E5 & E6).
  assert (W : catalog_wf s').
  { destruct H as (Wt & Wl & Wd). unfold catalog_wf, level_wf, default_wf.
    rewrite E1, E2, E3, E4, E5. split; [exact Wt|]. split; [exact Wl|].
    unfold import_anonymous, bind, get_or_create_in, objects_get_or_create in Hr.
    destruct (positions _ 0 (users s)) as [|i [|? ?]]; simpl in Hr;
      inversion Hr; subst; exact Wd. }
  destruct r; exact W.
Qed.

(** X1. [import_prereq] keeps the references of the catalog intact,
    however it ends: every target refers to a subject row, every level to
    rows of its body, geolevel and target and to a parent level of the same
    body and target, every default to rows of its body and target. *)
Theorem import_prereq_keeps_references c s s' r :
  catalog_wf s -> import_prereq c s = (s', r) -> catalog_wf s'.
Proof.
  intros H Hr.
  assert (G : hoare catalog_wf (import_prereq c) (fun _ => catalog_wf) catalog_wf).
  { unfold import_prereq.
    eapply hoare_bind;
      [apply hoare_for_each; intros; apply import_body_wf | intros []].
    eapply hoare_bind;
      [apply hoare_for_each; intros; apply import_subject_wf | intros []].
    eapply hoare_bind;
      [apply hoare_for_each; intros; apply import_target_wf | intros []].
    eapply hoare_bind;
      [apply hoare_for_each; intros; apply import_geolevel_row_wf | intros []].
    apply import_anonymous_wf. }
  specialize (G s s' r H Hr). destruct r; exact G.
Qed.

Lemma import_prereq_keeps_references_witness :
  catalog_wf (fst (import_prereq Sample.config empty_store)).
Proof.
  refine (import_prereq_keeps_references Sample.config empty_store
            (fst (import_prereq Sample.config empty_store))
            (snd (import_prereq Sample.config empty_store)) _ _).
  - repeat split; constructor.
  - destruct (import_prereq Sample.config empty_store); reflexivity.
Defined.

(** ** One row for each natural key *)

Ltac unchanged_side :=
  try solve [ reflexivity | intros; reflexivity
            | unfold unchanged; intros; congruence ].

Lemma positions_ext {R} (p q : R -> bool) l :
  (forall r, p r = q r) -> forall n, positions p n l = positions q n l.
Proof.
  intros H. induction l as [|r l IH]; intros n; simpl; [reflexivity|].
  now rewrite H, IH.
Qed.

Lemma found_once_get_or_create {Row} (key : Row -> Row -> bool) m new done l l' x :
  (forall a b, key a b = true -> forall r, key b r = key a r) ->
  key new new = true ->
  found_once key done l ->
  objects_get_or_create m (key new) new l = (l', Ok x) ->
  found_once key (done ++ [new]) l'.
Proof.
  intros Hkey Hnew Hdone H. unfold objects_get_or_create in H.
  unfold found_once. apply Forall_app.
  destruct (positions (key new) 0 l) as [|i [|? ?]] eqn:E; inversion H; subst.
  - split.
    + eapply Forall_impl; [|exact Hdone]. intros d [j Hj]. exists j.
      rewrite positions_app, Hj. simpl.
      destruct (key d new) eqn:Ed; [|reflexivity].
      exfalso. rewrite (positions_ext _ _ l (Hkey d new Ed) 0) in E.
      rewrite Hj in E. discriminate.
    + constructor; [|constructor]. exists (List.length l).
      now apply positions_created.
  - split; [exact Hdone|]. constructor; [|constructor]. eauto.
Qed.

Lemma body_key_eq a b : body_key a b = true -> forall r, body_key b r = body_key a r.
Proof.
  unfold body_key, body_is. intros H r.
  apply andb_true_iff in H. destruct H as [H H3].
  apply andb_true_iff in H. destruct H as [H1 H2].
  apply opt_eqb_eq in H1, H2, H3. now rewrite H1, H2, H3.
Qed.

Lemma subject_is_eq a b :
  subject_is a b = true -> forall r, subject_is b r = subject_is a r.
Proof.
  unfold subject_is. intros H r.
  repeat (apply andb_true_iff in H; destruct H as [H ?]).
  repeat match goal with
         | E : opt_eqb _ _ = true |- _ => apply opt_eqb_eq in E
         | E : Bool.eqb _ _ = true |- _ => apply Bool.eqb_prop in E
         end.
  congruence.
Qed.

Lemma geolevel_is_eq a b :
  geolevel_is a b = true -> forall r, geolevel_is b r = geolevel_is a r.
Proof.
  unfold geolevel_is. intros H r.
  apply andb_true_iff in H. destruct H as [H H3].
  apply andb_true_iff in H. destruct H as [H1 H2].
  apply opt_eqb_eq in H1, H2, H3. now rewrite H1, H2, H3.
Qed.

Lemma bodies_found_once xs : forall s s',
  for_each xs import_body s = (s', Ok tt) ->
  forall done, found_once body_key done (bodies s) ->
  found_once body_key (done ++ map body_row xs) (bodies s').
Proof.
  induction xs as [|x xs IH]; intros s s' H done Hd; simpl in *.
  - inversion H; subst. now rewrite app_nil_r.
  - apply bind_ok in H. destruct H as ([] & s1 & H1 & H2).
    unfold import_body in H1. cbv zeta in H1.
    apply bind_ok in H1. destruct H1 as (y & s0 & H0 & Hret).
    inversion Hret; subst s0. clear Hret.
    unfold get_or_create_in in H0.
    destruct (objects_get_or_create _ _ _ (bodies s)) as [t r] eqn:Eg.
    inversion H0; subst. clear H0.
    replace (done ++ body_row x :: map body_row xs)%list
      with ((done ++ [body_row x]) ++ map body_row xs)%list
      by (rewrite <- app_assoc; reflexivity).
    eapply IH; [exact H2|]. simpl.
    eapply (found_once_get_or_create body_key); eauto.
    + exact body_key_eq.
    + apply body_is_new.
Qed.

Lemma subjects_found_once c xs : forall s s',
  for_each xs (import_subject c) s = (s', Ok tt) ->
  forall done, found_once subject_is done (subjects s) ->
  found_once subject_is
    (done ++ map (fun i => subject_row (subject_attrib c i))
                 (filter (fun i => negb (has_attr (subject_attrib c i) "aliasfor")) xs))
    (subjects s').
Proof.
  induction xs as [|x xs IH]; intros s s' H done Hd; simpl in *.
  - inversion H; subst. now rewrite app_nil_r.
  - apply bind_ok in H. destruct H as ([] & s1 & H1 & H2).
    unfold import_subject in H1. cbv zeta in H1.
    destruct (has_attr (subject_attrib c x) "aliasfor"); simpl.
    + inversion H1; subst. eapply IH; eauto.
    + apply bind_ok in H1. destruct H1 as (y & s0 & H0 & Hret).
      inversion Hret; subst s0. clear Hret.
      unfold get_or_create_in in H0.
      destruct (objects_get_or_create _ _ _ (subjects s)) as [t r] eqn:Eg.
      inversion H0; subst. clear H0.
      match goal with
      | |- found_once _ (done ++ ?r :: ?m)%list _ =>
          replace (done ++ r :: m)%list with ((done ++ [r]) ++ m)%list
            by (rewrite <- app_assoc; reflexivity)
      end.
      eapply IH; [exact H2|]. simpl.
      eapply (found_once_get_or_create subject_is); eauto.
      * exact subject_is_eq.
      * apply subject_is_new.
Qed.

Lemma import_lbodies_geolevels c glvl lbodies :
  always (unchanged geolevels) (for_each lbodies (import_lbody c glvl)).
Proof. always_tac unchanged_side. Qed.

Lemma geolevels_found_once c xs : forall s s',
  for_each xs (import_geolevel_row c) s = (s', Ok tt) ->
  forall done, found_once geolevel_is done (geolevels s) ->
  found_once geolevel_is
    (done ++ map (fun node => geolevel_row (gl_attrib node)) xs) (geolevels s').
Proof.
  induction xs as [|x xs IH]; intros s s' H done Hd; simpl in *.
  - inversion H; subst. now rewrite app_nil_r.
  - apply bind_ok in H. destruct H as ([] & s1 & H1 & H2).
    unfold import_geolevel_row in H1. cbv zeta in H1.
    apply bind_ok in H1. destruct H1 as (y & s0 & H0 & Hin).
    pose proof (import_lbodies_geolevels _ _ _ _ _ _ Hin) as Hu.
    unfold unchanged in Hu.
    unfold get_or_create_in in H0.
    destruct (objects_get_or_create _ _ _ (geolevels s)) as [t r] eqn:Eg.
    inversion H0; subst. clear H0. simpl in Hu.
    match goal with
    | |- found_once _ (done ++ ?r :: ?m)%list _ =>
        replace (done ++ r :: m)%list with ((done ++ [r]) ++ m)%list
          by (rewrite <- app_assoc; reflexivity)
    end.
    eapply IH; [exact H2|]. rewrite Hu.
    eapply (found_once_get_or_create geolevel_is); eauto.
    + exact geolevel_is_eq.
    + apply geolevel_is_new.
Qed.

Lemma later_phases_bodies c :
  always (unchanged bodies)
    (for_each (xpath_subjects_with_id c) (import_subject c) ;;;
     for_each (cfg_targets c) (import_target c) ;;;
     for_each (cfg_geolevels c) (import_geolevel_row c) ;;;
     import_anonymous).
Proof. always_tac unchanged_side. Qed.

Lemma later_phases_subjects c :
  always (unchanged subjects)
    (for_each (cfg_targets c) (import_target c) ;;;
     for_each (cfg_geolevels c) (import_geolevel_row c) ;;;
     import_anonymous).
Proof. always_tac unchanged_side. Qed.

Lemma import_anonymous_geolevels : always (unchanged geolevels) import_anonymous.
Proof. always_tac unchanged_side. Qed.

(** X2. After [import_prereq] has run to its end, a lookup by the full key
    of any [LegislativeBody] element, of any [Subject] element that is not
    an alias, and of any [GeoLevel] element finds one row, and one only. *)
Theorem one_row_per_key c s s' :
  import_prereq c s = (s', Ok tt) ->
  (forall body, In body (xpath_bodies_with_id c) ->
     exists i, objects_get MLegislativeBody (body_key (body_row body)) (bodies s')
               = Ok i)
  /\ (forall n, In n (xpath_subjects_with_id c) ->
        get (subject_attrib c n) "aliasfor" = None ->
        exists i, objects_get MSubject (subject_is (subject_row (subject_attrib c n)))
                              (subjects s') = Ok i)
  /\ (forall node, In node (cfg_geolevels c) ->
        exists i, objects_get MGeolevel
                    (geolevel_is (geolevel_row (gl_attrib node))) (geolevels s')
                  = Ok i).
Proof.
  intros H. unfold import_prereq in H.
  apply bind_ok in H. destruct H as ([] & s1 & H1 & H).
  pose proof (later_phases_bodies c _ _ _ H) as Ub.
  apply bind_ok in H. destruct H as ([] & s2 & H2 & H).
  pose proof (later_phases_subjects c _ _ _ H) as Us.
  apply bind_ok in H. destruct H as ([] & s3 & H3 & H).
  apply bind_ok in H. destruct H as ([] & s4 & H4 & H5).
  pose proof (import_anonymous_geolevels _ _ _ H5) as Ug.
  unfold unchanged in *.
  pose proof (bodies_found_once _ _ _ H1 [] (Forall_nil _)) as Fb.
  pose proof (subjects_found_once _ _ _ _ H2 [] (Forall_nil _)) as Fs.
  pose proof (geolevels_found_once _ _ _ _ H4 [] (Forall_nil _)) as Fg.
  simpl in Fb, Fs, Fg. unfold found_once in *. rewrite Forall_forall in Fb, Fs, Fg.
  split; [|split].
  - intros body Hin. destruct (Fb (body_row body) (in_map _ _ _ Hin)) as [j Hj].
    exists j. unfold objects_get. now rewrite Ub, Hj.
  - intros n Hin Ha.
    destruct (Fs (subject_row (subject_attrib c n))) as [j Hj].
    { apply in_map_iff. exists n. split; [reflexivity|].
      apply filter_In. split; [exact Hin|]. unfold has_attr. now rewrite Ha. }
    exists j. unfold objects_get. now rewrite Us, Hj.
  - intros node Hin.
    destruct (Fg (geolevel_row (gl_attrib node))) as [j Hj].
    { apply in_map_iff. exists node. auto. }
    exists j. unfold objects_get. now rewrite Ug, Hj.
Qed.

Lemma one_row_per_key_witness :
  exists i, objects_get MGeolevel
              (geolevel_is (geolevel_row (gl_attrib Sample.block)))
              (geolevels (fst (import_prereq Sample.config empty_store))) = Ok i.
Proof.
  refine (proj2 (proj2 (one_row_per_key Sample.config empty_store
                          (fst (import_prereq Sample.config empty_store)) _))
                Sample.block _).
  - vm_compute; reflexivity.
  - right; left; reflexivity.
Defined.

(** ** Nothing is deleted *)

Lemma extends_update_default s i target :
  extends s (set_defaults
               (update_nth i (fun r => mkLegislativeDefaults
                                         (ld_legislative_body r) (Some target))
                           (defaults s)) s).
Proof.
  unfold extends, defaults_bodies. simpl.
  rewrite update_nth_map by reflexivity.
  repeat split; apply prefix_refl.
Qed.

Ltac extends_side :=
  table_side;
  try solve [ apply extends_update_default
            | unfold extends, defaults_bodies; simpl; repeat split; apply prefix_refl ].

Lemma import_prereq_extends c : always extends (import_prereq c).
Proof. unfold import_prereq. always_tac extends_side. Qed.

Lemma users_kept_refl s : users_kept s s.
Proof. apply prefix_refl. Qed.

Lemma users_kept_trans a b c : users_kept a b -> users_kept b c -> users_kept a c.
Proof. apply prefix_trans. Qed.

Ltac users_kept_side :=
  try solve [ apply users_kept_refl | exact users_kept_trans
            | intros; apply users_kept_refl
            | intros; unfold users_kept; simpl; rewrite map_app; apply prefix_app
            | unfold users_kept; simpl; apply prefix_refl
            | unfold users_kept; simpl; rewrite update_password_names;
              apply prefix_refl ].

Lemma import_prereq_users_kept c : always users_kept (import_prereq c).
Proof. unfold import_prereq. always_tac users_kept_side. Qed.

(** X3. However [import_prereq] ends, it deletes nothing: the rows of the
    five catalog tables are still there, unchanged and at their positions,
    every default still names its body, every user keeps its name, and the
    geounits and characteristics are untouched. *)
Theorem import_prereq_deletes_nothing c s s' r :
  import_prereq c s = (s', r) ->
  prefix (bodies s) (bodies s') /\ prefix (subjects s) (subjects s')
  /\ prefix (targets s) (targets s') /\ prefix (geolevels s) (geolevels s')
  /\ prefix (levels s) (levels s')
  /\ prefix (map ld_legislative_body (defaults s))
            (map ld_legislative_body (defaults s'))
  /\ prefix (map us_username (users s)) (map us_username (users s'))
  /\ geounits s' = geounits s /\ characteristics s' = characteristics s.
Proof.
  intros H.
  destruct (import_prereq_extends c _ _ _ H) as (A1 & A2 & A3 & A4 & A5 & A6).
  pose proof (import_prereq_users_kept c _ _ _ H) as A7.
  destruct (import_prereq_units c _ _ _ H) as [A8 A9].
  repeat split; assumption.
Qed.

Lemma import_prereq_deletes_nothing_witness :
  prefix (levels Sample.catalog0)
         (levels (fst (import_prereq Sample.config Sample.catalog0))).
Proof.
  refine (proj1 (proj2 (proj2 (proj2 (proj2
            (import_prereq_deletes_nothing Sample.config Sample.catalog0
               (fst (import_prereq Sample.config Sample.catalog0))
               (snd (import_prereq Sample.config Sample.catalog0)) _)))))).
  destruct (import_prereq Sample.config Sample.catalog0); reflexivity.
Defined.

(** ** The default target of a body *)

Lemma nth_error_update_nth {R} (f : R -> R) : forall l i j,
  nth_error (update_nth i f l) j
  = if Nat.eqb i j then option_map f (nth_error l j) else nth_error l j.
Proof.
  induction l as [|r l IH]; intros [|i] [|j]; simpl; try reflexivity.
  - now destruct (Nat.eqb i j).
  - apply IH.
Qed.

Lemma defaults_positions b (l : list LegislativeDefaults) :
  positions (defaults_of b) 0 l
  = positions (fun x => Nat.eqb x b) 0 (map ld_legislative_body l).
Proof. exact (positions_map ld_legislative_body (fun x => Nat.eqb x b) l 0). Qed.

(** X4. When [set_default] ends normally for a body and a target, the
    body has one defaults row and one only, that row names the target
    whatever it named before, and every other row is as it was; when it
    raises, the store is as it was. *)
Theorem set_default_overwrites legislative_body target s s' r :
  set_default legislative_body target s = (s', r) ->
  match r with
  | Ok _ =>
      exists i,
        positions (defaults_of legislative_body) 0 (defaults s') = [i]
        /\ nth_error (defaults s') i
           = Some (mkLegislativeDefaults legislative_body (Some target))
        /\ forall j, j <> i -> (j < List.length (defaults s))%nat ->
                     nth_error (defaults s') j = nth_error (defaults s) j
  | Raise e => s' = s /\ e = MultipleObjectsReturned MLegislativeDefaults
  end.
Proof.
  unfold set_default, bind, get_or_create_in, objects_get_or_create.
  destruct (positions (defaults_of legislative_body) 0 (defaults s))
    as [|i [|? ?]] eqn:E; intros H; inversion H; subst; clear H; simpl.
  - exists (List.length (defaults s)). repeat split.
    + rewrite defaults_positions, update_nth_map by reflexivity.
      rewrite <- defaults_positions. apply positions_created; [|exact E].
      unfold defaults_of. simpl. apply Nat.eqb_refl.
    + rewrite nth_error_update_nth, Nat.eqb_refl.
      rewrite nth_error_app2, Nat.sub_diag by lia. reflexivity.
    + intros j Hj Hlt. rewrite nth_error_update_nth.
      destruct (Nat.eqb_spec (List.length (defaults s)) j); [congruence|].
      now rewrite nth_error_app1.
  - exists i. repeat split.
    + rewrite defaults_positions, update_nth_map by reflexivity.
      now rewrite <- defaults_positions.
    + rewrite nth_error_update_nth, Nat.eqb_refl.
      destruct (positions_head _ _ _ _ E) as (d & Hd & Hb).
      rewrite Hd. simpl. unfold defaults_of in Hb. apply Nat.eqb_eq in Hb.
      now rewrite Hb.
    + intros j Hj _. rewrite nth_error_update_nth.
      destruct (Nat.eqb_spec i j); [congruence | reflexivity].
  - destruct s; auto.
Qed.

Lemma set_default_overwrites_witness :
  exists i,
    positions (defaults_of 0) 0
              (defaults (fst (set_default 0 1 Sample.catalog))) = [i]
    /\ nth_error (defaults (fst (set_default 0 1 Sample.catalog))) i
       = Some (mkLegislativeDefaults 0 (Some 1%nat))
    /\ forall j, j <> i -> (j < List.length (defaults Sample.catalog))%nat ->
                 nth_error (defaults (fst (set_default 0 1 Sample.catalog))) j
                 = nth_error (defaults Sample.catalog) j.
Proof.
  exact (set_default_overwrites 0 1 Sample.catalog
           (fst (set_default 0 1 Sample.catalog)) (Ok tt) eq_refl).
Defined.

(** ** The quantised value *)

Lemma quantize_scale v s c e r ctx v' :
  PyDecimal.quantize v (PyDecimal.Finite s c e) r ctx = Ok v' ->
  (exists sign diag, v' = PyDecimal.NaN sign diag)
  \/ exists s' c', v' = PyDecimal.Finite s' c' e
                   /\ PyDecimal.ndigits c' <= Z.max 1 (PyDecimal.prec ctx).
Proof.
  unfold PyDecimal.quantize. destruct v as [vs vc ve| |vs vd|vs vd].
  - destruct (negb _); [discriminate|].
    destruct (vc =? 0)%N.
    { intros H. inversion H; subst. right. exists vs, 0%N. split; [reflexivity|].
      change (PyDecimal.ndigits 0) with 1. lia. }
    destruct (_ <? _); [discriminate|]. destruct (_ <? _); [discriminate|].
    cbv zeta. destruct (_ <? _); [discriminate|].
    destruct (PyDecimal.prec ctx <? _) eqn:E; [discriminate|].
    intros H. inversion H; subst. right. eexists _, _. split; [reflexivity|].
    apply Z.ltb_ge in E. lia.
  - discriminate.
  - intros H. inversion H. left. unfold PyDecimal.fix_nan.
    destruct (_ <? _); eauto.
  - discriminate.
Qed.

(** X5. Whatever the text, a value that line 720 gives is a number with
    exactly four fractional digits and at most 28 digits in all, or a
    quiet NaN; it is never an infinity. *)
Theorem characteristic_value_scale raw v :
  characteristic_value raw = Ok v ->
  (exists sign diag, v = PyDecimal.NaN sign diag)
  \/ exists s c, v = PyDecimal.Finite s c (-4) /\ PyDecimal.ndigits c <= 28.
Proof.
  rewrite characteristic_value_half_even. unfold rbind.
  destruct (PyDecimal.of_string raw None) as [x|e]; [|discriminate].
  intros H. apply quantize_scale in H. exact H.
Qed.

Lemma characteristic_value_scale_witness :
  (exists sign diag, PyDecimal.Finite false 12346 (-4) = PyDecimal.NaN sign diag)
  \/ exists s c, PyDecimal.Finite false 12346 (-4) = PyDecimal.Finite s c (-4)
                 /\ PyDecimal.ndigits c <= 28.
Proof.
  apply (characteristic_value_scale "1.23456"). vm_compute. reflexivity.
Defined.

Lemma round_half_even_close c k :
  let p := (10 ^ Z.to_N k)%N in
  let c' := PyDecimal.round_coeff PyDecimal.ROUND_HALF_EVEN c k in
  (2 * (c' * p) <= 2 * c + p /\ 2 * c <= 2 * (c' * p) + p)%N.
Proof.
  cbv zeta. unfold PyDecimal.round_coeff.
  set (p := (10 ^ Z.to_N k)%N).
  assert (Hp : p <> 0%N) by (apply N.pow_nonzero; discriminate).
  pose proof (N.div_mod c p Hp) as Hd.
  pose proof (N.mod_lt c p Hp) as Hm.
  set (q := (c / p)%N) in *. set (m := (c mod p)%N) in *.
  destruct (N.compare_spec (2 * m) p) as [E|E|E];
    [destruct (N.odd q)| |]; nia.
Qed.

(** X6. The value line 720 gives for a number keeps its sign; a number
    with at most four fractional digits is kept exactly, and any other is
    moved by at most half a unit of the fourth fractional digit. *)
Theorem characteristic_value_close raw s c e s' c' e' :
  PyDecimal.of_string raw None = Ok (PyDecimal.Finite s c e) ->
  characteristic_value raw = Ok (PyDecimal.Finite s' c' e') ->
  s' = s /\ e' = -4
  /\ if -4 <=? e then c' = (c * 10 ^ Z.to_N (e + 4))%N
     else let p := (10 ^ Z.to_N (-4 - e))%N in
          (2 * (c' * p) <= 2 * c + p /\ 2 * c <= 2 * (c' * p) + p)%N.
Proof.
  intros Hparse. rewrite characteristic_value_half_even, Hparse. unfold rbind.
  unfold PyDecimal.quantize.
  destruct (negb _); [discriminate|].
  destruct (c =? 0)%N eqn:Ec.
  { intros H. inversion H; subst. apply N.eqb_eq in Ec. subst.
    repeat split. destruct (-4 <=? e); [reflexivity|]. cbv zeta. lia. }
  destruct (_ <? _); [discriminate|]. destruct (_ <? _); [discriminate|].
  cbv zeta. destruct (_ <? _); [discriminate|]. destruct (_ <? _); [discriminate|].
  intros H. inversion H; subst. repeat split.
  unfold PyDecimal.rescale. simpl PyDecimal.ctx_rounding.
  destruct (-4 <=? e) eqn:E.
  - replace (e - -4) with (e + 4) by lia. reflexivity.
  - apply round_half_even_close.
Qed.

Lemma characteristic_value_close_witness :
  false = false /\ -4 = -4
  /\ if -4 <=? -5 then 12346%N = (123456 * 10 ^ Z.to_N (-5 + 4))%N
     else let p := (10 ^ Z.to_N (-4 - -5))%N in
          (2 * (12346 * p) <= 2 * 123456 + p
           /\ 2 * 123456 <= 2 * (12346 * p) + p)%N.
Proof.
  apply (characteristic_value_close "1.23456"); vm_compute; reflexivity.
Defined.

(** Quantising again a value already quantised to the same scale gives
    the value back. *)
Lemma quantize_idempotent v qs qc qe r ctx v' :
  PyDecimal.quantize v (PyDecimal.Finite qs qc qe) r ctx = Ok v' ->
  PyDecimal.quantize v' (PyDecimal.Finite qs qc qe) r ctx = Ok v'.
Proof.
  intros H. unfold PyDecimal.quantize in H. destruct v as [s c e| |s d|s d].
  - destruct (negb _) eqn:E0; [discriminate|].
    destruct (c =? 0)%N eqn:Ec.
    { inversion H; subst. unfold PyDecimal.quantize. rewrite E0. reflexivity. }
    destruct (_ <? _); [discriminate|]. destruct (_ <? _); [discriminate|].
    cbv zeta in H.
    destruct (PyDecimal.Emax ctx <? PyDecimal.adjusted _ qe) eqn:E3; [discriminate|].
    destruct (PyDecimal.prec ctx <? PyDecimal.ndigits _) eqn:E4; [discriminate|].
    inversion H; subst; clear H.
    set (c' := PyDecimal.rescale _ c e qe) in *.
    unfold PyDecimal.quantize. rewrite E0.
    destruct (c' =? 0)%N eqn:Ec'.
    { apply N.eqb_eq in Ec'. now rewrite Ec'. }
    rewrite E3.
    replace (PyDecimal.adjusted c' qe - qe + 1) with (PyDecimal.ndigits c')
      by (unfold PyDecimal.adjusted; lia).
    rewrite E4. cbv zeta.
    assert (Hr : forall rr, PyDecimal.rescale rr c' qe qe = c').
    { intros rr. unfold PyDecimal.rescale. rewrite Z.leb_refl, Z.sub_diag.
      simpl. lia. }
    rewrite Hr, E3, E4. reflexivity.
  - discriminate.
  - inversion H; subst; clear H. unfold PyDecimal.fix_nan.
    destruct (PyDecimal.prec ctx <? PyDecimal.ndigits d) eqn:E;
      cbv beta iota delta [PyDecimal.quantize]; unfold PyDecimal.fix_nan.
    + rewrite ?N.Div0.mod_mod.
      match goal with |- context [if ?b then _ else _] => destruct b end;
        reflexivity.
    + rewrite E. reflexivity.
  - discriminate.
Qed.

(** X7. A value that line 720 gives is a fixed point of the quantisation:
    quantising it again, as a second import of the stored number would,
    gives the same value. *)
Theorem characteristic_value_fixed raw v :
  characteristic_value raw = Ok v ->
  PyDecimal.quantize v (PyDecimal.Finite false 0 (-4)) None PyDecimal.DefaultContext
  = Ok v.
Proof.
  rewrite characteristic_value_half_even. unfold rbind.
  destruct (PyDecimal.of_string raw None) as [x|e]; [|discriminate].
  intros H. apply quantize_idempotent in H. revert H.
  unfold PyDecimal.quantize. simpl PyDecimal.ctx_rounding. auto.
Qed.

Lemma characteristic_value_fixed_witness :
  PyDecimal.quantize (PyDecimal.Finite false 12346 (-4))
    (PyDecimal.Finite false 0 (-4)) None PyDecimal.DefaultContext
  = Ok (PyDecimal.Finite false 12346 (-4)).
Proof.
  apply (characteristic_value_fixed "1.23456"). vm_compute. reflexivity.
Defined.

(** ** The rows of [import_shape] *)

Lemma catalog_untouched_refl s : catalog_untouched s s.
Proof. repeat split. Qed.

Lemma catalog_untouched_trans a b c :
  catalog_untouched a b -> catalog_untouched b c -> catalog_untouched a c.
Proof.
  unfold catalog_untouched.
  intros (A1 & A2 & A3 & A4 & A5 & A6 & A7) (B1 & B2 & B3 & B4 & B5 & B6 & B7).
  repeat split; congruence.
Qed.

Lemma adds_geounits_refl level s : adds_geounits level s s.
Proof. split; [apply catalog_untouched_refl | apply no_new_rows]. Qed.

Lemma adds_geounits_trans level a b c :
  adds_geounits level a b -> adds_geounits level b c -> adds_geounits level a c.
Proof.
  intros [A (k1 & G1 & F1)] [B (k2 & G2 & F2)].
  split; [eapply catalog_untouched_trans; eauto|].
  exists (k1 ++ k2)%list. rewrite G2, G1, app_assoc. split; [reflexivity|].
  apply Forall_app. now split.
Qed.

Lemma adds_geounits_frame level s s' :
  catalog_untouched s s' -> geounits s' = geounits s -> adds_geounits level s s'.
Proof.
  intros H Hg. split; [exact H|]. rewrite Hg. apply no_new_rows.
Qed.

Section ShapeRows.

Variable simplify : geometry -> result geometry.
Variable centroid : geometry -> result geometry.
Variable within : geometry -> geometry -> result bool.
Variable intersection : geometry -> geometry -> result geometry.
Variable DataSource : option string -> result (list Feature).
Variable number_storable : PyDecimal.t -> bool.
Variable geounit_storable : Geounit -> bool.
Variable iteritems : list (option string * nat) -> list (option string * nat).

Lemma repair_multipolygon g simple center :
  repair simplify centroid within intersection g = Ok (simple, center) ->
  geom_type simple = KMultiPolygon.
Proof.
  unfold repair, rbind. destruct (simplify g) as [sg|e]; [|discriminate].
  destruct (geom_kind_eqb (geom_type sg) KMultiPolygon) eqn:E.
  - destruct (repaired_center _ _ _ _); [|discriminate].
    intros H. inversion H; subst. destruct simple; simpl in E; try discriminate.
    reflexivity.
  - destruct sg; simpl; try discriminate.
    destruct (repaired_center _ _ _ _); [|discriminate].
    intros H. inversion H; subst. reflexivity.
Qed.

Lemma coerce_multipolygon my_geom geos :
  multipolygon_local my_geom -> multipolygon_local (coerce my_geom geos).
Proof. intros H. destruct geos; simpl; auto. Qed.

Lemma feature_geounit_multipolygon cfg level my_geom feat :
  multipolygon_local my_geom ->
  multipolygon_local
    (fst (feature_geounit simplify centroid within intersection
                          cfg level my_geom feat))
  /\ forall row,
       snd (feature_geounit simplify centroid within intersection
                            cfg level my_geom feat) = Ok row ->
       geom_type (gu_geom row) = KMultiPolygon
       /\ geom_type (gu_simple row) = KMultiPolygon
       /\ gu_geolevel row = level.
Proof.
  intros Hm. unfold feature_geounit.
  destruct (feat_geom feat) as [geos|e]; cbn [fst snd];
    [|split; [exact Hm | discriminate]].
  pose proof (coerce_multipolygon my_geom geos Hm) as Hc.
  split; [exact Hc|]. intros row.
  destruct (coerce my_geom geos) as [| |g]; try discriminate.
  cbn. unfold geounit_row, rbind.
  destruct (repair _ _ _ _ g) as [[simple center]|e] eqn:Er; [|discriminate].
  destruct (feat_get feat (name_field cfg)); [|discriminate].
  destruct (if truthy _ then _ else _); [|discriminate].
  intros H. inversion H; subst. simpl.
  repeat split; auto. eapply repair_multipolygon; eauto.
Qed.

Lemma import_characteristic_untouched cfg feat g entry :
  always (fun s s' => catalog_untouched s s' /\ geounits s' = geounits s)
         (import_characteristic number_storable cfg feat g entry).
Proof.
  intros s s' r H. unfold import_characteristic in H. destruct entry as [attr obj].
  unfold bind, lift in H.
  destruct (feat_get feat attr) as [raw|e]; [|inversion H; repeat split].
  destruct (characteristic_value (str raw)) as [value|e];
    [|inversion H; repeat split].
  destruct (number_storable value); [inversion H; subst; repeat split|].
  destruct (rbind _ _); inversion H; subst; repeat split.
Qed.

Lemma import_features_adds_geounits cfg level so lyr : forall my_geom,
  multipolygon_local my_geom ->
  always (adds_geounits level)
         (import_features simplify centroid within intersection
                  number_storable geounit_storable iteritems
                          cfg level so lyr my_geom).
Proof.
  induction lyr as [|feat lyr IH]; intros my_geom Hm s s' r H; simpl in H.
  - inversion H. apply adds_geounits_refl.
  - destruct (feature_geounit_multipolygon cfg level my_geom feat Hm) as [Hm' Hrow].
    destruct (feature_geounit _ _ _ _ _ _ _ _) as [my_geom' r0];
      cbn [fst snd] in *.
    assert (Hfailed :
      import_features simplify centroid within intersection
        number_storable geounit_storable iteritems cfg level so lyr my_geom'
        (set_printed (printed s ++ [FailedGeometry (fid feat)])%list s) = (s', r) ->
      adds_geounits level s s').
    { intros Hf. eapply adds_geounits_trans; [|eapply (IH my_geom'); eauto].
      apply adds_geounits_frame; repeat split. }
    destruct r0 as [row|e]; [|now apply Hfailed].
    destruct (geounit_storable row); [|now apply Hfailed].
    destruct (for_each (iteritems so) _ _) as [s2 r2] eqn:Ec.
    assert (H2 : adds_geounits level s s2).
    { pose proof (always_for_each
                    (fun s s' => catalog_untouched s s' /\ geounits s' = geounits s)
                    (fun s => conj (catalog_untouched_refl s) eq_refl)
                    (fun a b c H1 H2 =>
                       conj (catalog_untouched_trans _ _ _ (proj1 H1) (proj1 H2))
                            (eq_trans (proj2 H2) (proj2 H1)))
                    (iteritems so) _
                    (fun x _ => import_characteristic_untouched cfg feat _ x)
                    _ _ _ Ec) as [Hc Hg].
      split.
      - eapply catalog_untouched_trans; [|exact Hc]. repeat split.
      - exists [row]. rewrite Hg. simpl. split; [reflexivity|].
        constructor; [now apply Hrow | constructor]. }
    destruct r2 as [[]|e].
    + eapply adds_geounits_trans; [exact H2 | eapply (IH PyNone); eauto; exact I].
    + inversion H; subst. exact H2.
Qed.

(** X8. However [import_shape] ends, it leaves the catalog and the users
    exactly as they are, and every geounit it has added is a row of the
    geolevel named in its configuration whose geometry and simplified
    geometry are multipolygons. *)
Theorem import_shape_adds_geounits c cfg s s' r :
  import_shape simplify centroid within intersection DataSource
               number_storable geounit_storable iteritems
               c cfg s = (s', r) ->
  catalog_untouched s s'
  /\ exists k, geounits s' = (geounits s ++ k)%list
               /\ Forall (geounit_wf s (geolevel cfg)) k.
Proof.
  intros H. unfold import_shape in H.
  assert (Hnone : s' = s -> catalog_untouched s s'
                  /\ exists k, geounits s' = (geounits s ++ k)%list
                               /\ Forall (geounit_wf s (geolevel cfg)) k)
    by (intros ->; split; [apply catalog_untouched_refl | apply no_new_rows]).
  unfold bind at 1 in H. unfold lift in H.
  destruct (DataSource (shapepath cfg)) as [lyr|e]; [|apply Hnone; congruence].
  unfold bind at 1 in H. unfold query in H.
  destruct (objects_get MGeolevel _ (geolevels s)) as [level|e] eqn:El;
    [|apply Hnone; congruence].
  unfold bind in H.
  destruct (subject_objects_of c (subject_field_nodes cfg) [] s) as [s1 r1] eqn:Eso.
  pose proof (subject_objects_of_reads _ _ _ _ _ _ Eso) as <-.
  destruct r1 as [so|e]; [|apply Hnone; congruence].
  destruct (import_features_adds_geounits cfg level so lyr Unbound I _ _ _ H)
    as [Hc (k & Hk & Hf)].
  split; [exact Hc|]. exists k. split; [exact Hk|].
  eapply Forall_impl; [|exact Hf]. intros g (G1 & G2 & G3).
  destruct (objects_get_row _ _ _ _ El) as (lvl & Hl & Hn).
  repeat split; auto. exists lvl. rewrite G3. split; [exact Hl|].
  now apply opt_eqb_eq.
Qed.

End ShapeRows.

Lemma import_shape_adds_geounits_witness :
  catalog_untouched Sample.catalog
    (fst (Sample.run_import_shape Sample.config (Sample.shape "county.shp")
                                  Sample.catalog)).
Proof.
  refine (proj1 (import_shape_adds_geounits Sample.simplify Sample.centroid
                   Sample.within Sample.intersection Sample.DataSource
                   Sample.number_storable Sample.geounit_storable Sample.iteritems
              Sample.config
                   (Sample.shape "county.shp") Sample.catalog
                   (fst (Sample.run_import_shape Sample.config
                           (Sample.shape "county.shp") Sample.catalog))
                   (snd (Sample.run_import_shape Sample.config
                           (Sample.shape "county.shp") Sample.catalog)) _)).
  unfold Sample.run_import_shape.
  destruct (import_shape _ _ _ _ _ _ _ _ _). reflexivity.
Defined.

(** ** One characteristic for each subject of each geounit *)

Section CharacteristicRows.

Variable simplify : geometry -> result geometry.
Variable centroid : geometry -> result geometry.
Variable within : geometry -> geometry -> result bool.
Variable intersection : geometry -> geometry -> result geometry.
Variable DataSource : option string -> result (list Feature).
Variable number_storable : PyDecimal.t -> bool.
Variable geounit_storable : Geounit -> bool.
Variable iteritems : list (option string * nat) -> list (option string * nat).

Lemma import_characteristics_keys cfg feat g so : forall s s',
  for_each so (import_characteristic number_storable cfg feat g) s = (s', Ok tt) ->
  geounits s' = geounits s
  /\ exists k, characteristics s' = (characteristics s ++ k)%list
               /\ map characteristic_key k = map (fun entry => (g, snd entry)) so.
Proof.
  induction so as [|[attr obj] so IH]; intros s s' H; simpl in H.
  - inversion H; subst. split; [reflexivity|]. exists []. now rewrite app_nil_r.
  - apply bind_ok in H. destruct H as ([] & s1 & H1 & H2).
    destruct (IH _ _ H2) as [Hg (k & Hk & Hm)].
    assert (H0 : geounits s1 = geounits s
                 /\ exists n, characteristics s1
                              = (characteristics s ++ [mkCharacteristic obj n g])%list).
    { unfold import_characteristic, bind, lift in H1.
      destruct (feat_get feat attr) as [raw|e]; [|discriminate].
      destruct (characteristic_value (str raw)) as [value|e]; [|discriminate].
      destruct (number_storable value).
      - inversion H1; subst. split; [reflexivity|]. eexists. reflexivity.
      - destruct (rbind _ _); inversion H1; subst.
        split; [reflexivity|]. eexists. reflexivity. }
    destruct H0 as [Hg1 [n Hc1]]. split; [congruence|].
    exists (mkCharacteristic obj n g :: k). rewrite Hk, Hc1, <- app_assoc.
    split; [reflexivity|]. simpl. now rewrite Hm.
Qed.

Lemma import_features_keys cfg level so lyr : forall my_geom s s',
  import_features simplify centroid within intersection
                  number_storable geounit_storable iteritems
                  cfg level so lyr my_geom s = (s', Ok tt) ->
  exists kg k,
    geounits s' = (geounits s ++ kg)%list
    /\ characteristics s' = (characteristics s ++ k)%list
    /\ map characteristic_key k
       = expected_keys (iteritems so) (List.length (geounits s)) (List.length kg).
Proof.
  induction lyr as [|feat lyr IH]; intros my_geom s s' H; simpl in H.
  - inversion H; subst. exists [], []. now rewrite !app_nil_r.
  - assert (Hfailed : forall mg,
      import_features simplify centroid within intersection
        number_storable geounit_storable iteritems cfg level so lyr mg
        (set_printed (printed s ++ [FailedGeometry (fid feat)])%list s)
      = (s', Ok tt) ->
      exists kg k,
        geounits s' = (geounits s ++ kg)%list
        /\ characteristics s' = (characteristics s ++ k)%list
        /\ map characteristic_key k
           = expected_keys (iteritems so) (List.length (geounits s))
                           (List.length kg)).
    { intros mg Hmg. destruct (IH _ _ _ Hmg) as (kg & k & Hkg & Hk & Hm).
      exists kg, k. auto. }
    destruct (feature_geounit _ _ _ _ _ _ _ _) as [my_geom' [row|e]];
      [|eapply Hfailed; eauto].
    destruct (geounit_storable row); [|eapply Hfailed; eauto].
    destruct (for_each (iteritems so) _ _) as [s2 [[]|e]] eqn:Ec; [|discriminate].
    destruct (import_characteristics_keys _ _ _ _ _ _ Ec) as [Hg (k1 & Hk1 & Hm1)].
    destruct (IH _ _ _ H) as (kg & k & Hkg & Hk & Hm).
    simpl in Hg, Hk1.
    exists (row :: kg), (k1 ++ k)%list.
    rewrite Hkg, Hk, Hg, Hk1, <- !app_assoc. repeat split.
    rewrite map_app, Hm1, Hm, Hg, length_app. simpl.
    unfold expected_keys. simpl. now rewrite Nat.add_1_r.
Qed.

Lemma expected_keys_walk d d' first n :
  Permutation d' d ->
  Permutation (expected_keys d' first n) (expected_keys d first n).
Proof.
  intros H. unfold expected_keys. induction (seq first n) as [|g l IH]; simpl.
  - constructor.
  - apply Permutation_app; [now apply Permutation_map | exact IH].
Qed.

(** X9. When [import_shape] has run to its end, it has added, for each
    geounit it added and in the same order, one characteristic for each
    entry of the field-to-subject dictionary, referring to that geounit
    and to the subject of the entry; and nothing else.  The characteristics
    of a geounit come in the order in which [iteritems] walks the
    dictionary, whatever that order is: up to the order, they are those of
    the entries of the dictionary. *)
Theorem one_characteristic_per_subject c cfg s s' :
  walks_entries iteritems ->
  import_shape simplify centroid within intersection DataSource
               number_storable geounit_storable iteritems
               c cfg s = (s', Ok tt) ->
  exists so kg k,
    subject_objects_of c (subject_field_nodes cfg) [] s = (s, Ok so)
    /\ geounits s' = (geounits s ++ kg)%list
    /\ characteristics s' = (characteristics s ++ k)%list
    /\ map characteristic_key k
       = expected_keys (iteritems so) (List.length (geounits s)) (List.length kg)
    /\ Permutation (map characteristic_key k)
                   (expected_keys so (List.length (geounits s)) (List.length kg)).
Proof.
  intros Hwalk H. unfold import_shape in H.
  unfold bind at 1 in H. unfold lift in H.
  destruct (DataSource (shapepath cfg)) as [lyr|e]; [|discriminate].
  unfold bind at 1 in H. unfold query in H.
  destruct (objects_get MGeolevel _ (geolevels s)) as [level|e]; [|discriminate].
  unfold bind in H.
  destruct (subject_objects_of c (subject_field_nodes cfg) [] s) as [s1 r1] eqn:Eso.
  pose proof (subject_objects_of_reads _ _ _ _ _ _ Eso) as <-.
  destruct r1 as [so|e]; [|discriminate].
  destruct (import_features_keys _ _ _ _ _ _ _ H) as (kg & k & H1 & H2 & H3).
  exists so, kg, k. split; [reflexivity|]. split; [exact H1|].
  split; [exact H2|]. split; [exact H3|].
  rewrite H3. apply expected_keys_walk. apply Hwalk.
Qed.

End CharacteristicRows.

Lemma sample_iteritems_walks : walks_entries Sample.iteritems.
Proof.
  intros d. unfold Sample.iteritems.
  induction d as [|entry d IH]; simpl; [constructor|].
  destruct (Sample.is_pop3 entry); simpl.
  - now constructor.
  - apply Permutation_sym, Permutation_cons_app, Permutation_sym, IH.
Qed.

Lemma one_characteristic_per_subject_witness :
  exists so kg k,
    subject_objects_of Sample.config [0%nat] [] Sample.catalog
    = (Sample.catalog, Ok so)
    /\ geounits (fst (Sample.run_import_shape Sample.config
                        (Sample.shape "county.shp") Sample.catalog))
       = (geounits Sample.catalog ++ kg)%list
    /\ characteristics (fst (Sample.run_import_shape Sample.config
                               (Sample.shape "county.shp") Sample.catalog))
       = (characteristics Sample.catalog ++ k)%list
    /\ map characteristic_key k
       = expected_keys (Sample.iteritems so)
                       (List.length (geounits Sample.catalog)) (List.length kg)
    /\ Permutation (map characteristic_key k)
                   (expected_keys so (List.length (geounits Sample.catalog))
                                  (List.length kg)).
Proof.
  apply (one_characteristic_per_subject Sample.simplify Sample.centroid
           Sample.within Sample.intersection Sample.DataSource
           Sample.number_storable Sample.geounit_storable Sample.iteritems
           Sample.config (Sample.shape "county.shp") Sample.catalog).
  - exact sample_iteritems_walks.
  - vm_compute. reflexivity.
Defined.

(** ** The dictionary from fields to subjects *)

Lemma opt_eqb_false a b : opt_eqb a b = false -> a <> b.
Proof. intros H E. subst. rewrite opt_eqb_refl in H. discriminate. Qed.

Lemma opt_eqb_neq a b : a <> b -> opt_eqb a b = false.
Proof.
  intros H. destruct (opt_eqb a b) eqn:E; [|reflexivity].
  apply opt_eqb_eq in E. contradiction.
Qed.

Lemma dict_get_set_same d k v : dict_get (dict_set d k v) k = Some v.
Proof.
  induction d as [|[k' v'] d IH]; simpl.
  - now rewrite opt_eqb_refl.
  - destruct (opt_eqb k' k) eqn:E; simpl.
    + now rewrite opt_eqb_refl.
    + now rewrite E.
Qed.

Lemma dict_get_set_other d k v k' :
  k <> k' -> dict_get (dict_set d k v) k' = dict_get d k'.
Proof.
  intros Hn. induction d as [|[k1 v1] d IH]; simpl.
  - now rewrite (opt_eqb_neq _ _ Hn).
  - destruct (opt_eqb k1 k) eqn:E; simpl.
    + apply opt_eqb_eq in E. subst. now rewrite (opt_eqb_neq _ _ Hn).
    + now rewrite IH.
Qed.

Lemma dict_set_keys d k v x :
  In x (map fst (dict_set d k v)) -> x = k \/ In x (map fst d).
Proof.
  induction d as [|[k1 v1] d IH]; simpl.
  - intros [H|[]]; auto.
  - destruct (opt_eqb k1 k) eqn:E; simpl.
    + apply opt_eqb_eq in E. subst. intros [H|H]; auto.
    + intros [H|H]; auto. destruct (IH H); auto.
Qed.

Lemma dict_set_NoDup d k v : NoDup (map fst d) -> NoDup (map fst (dict_set d k v)).
Proof.
  induction d as [|[k1 v1] d IH]; simpl; intros H.
  - constructor; [intros [] | constructor].
  - inversion H as [|? ? Hn Hd]; subst.
    destruct (opt_eqb k1 k) eqn:E; simpl.
    + apply opt_eqb_eq in E. subst. now constructor.
    + constructor; [|now apply IH].
      intros Hin. apply dict_set_keys in Hin. destruct Hin as [->|Hin]; auto.
      rewrite opt_eqb_refl in E. discriminate.
Qed.

Lemma dict_get_In d k v : dict_get d k = Some v -> In (k, v) d.
Proof.
  induction d as [|[k1 v1] d IH]; simpl; [discriminate|].
  destruct (opt_eqb k1 k) eqn:E.
  - apply opt_eqb_eq in E. intros H. inversion H; subst. now left.
  - intros H. right. now apply IH.
Qed.

Lemma In_dict_get d k v : NoDup (map fst d) -> In (k, v) d -> dict_get d k = Some v.
Proof.
  induction d as [|[k1 v1] d IH]; simpl; intros Hd Hin; [contradiction|].
  inversion Hd as [|? ? Hn Hd']; subst.
  destruct Hin as [Hin|Hin].
  - inversion Hin; subst. now rewrite opt_eqb_refl.
  - destruct (opt_eqb k1 k) eqn:E; [|now apply IH].
    apply opt_eqb_eq in E. subst. exfalso. apply Hn.
    apply in_map_iff. exists (k, v). auto.
Qed.

Lemma option_string_dec (a b : option string) : {a = b} + {a <> b}.
Proof.
  destruct (opt_eqb a b) eqn:E; [left; now apply opt_eqb_eq | right].
  now apply opt_eqb_false.
Qed.

(** A field is on none of the nodes, or on a last one. *)
Lemma last_with_field_dec c nodes field :
  (forall x, In x nodes -> field_of c x <> field)
  \/ exists sconfig, last_with_field c nodes field sconfig.
Proof.
  induction nodes as [|x nodes IH].
  - left. intros x [].
  - destruct IH as [Hnone|(sconfig & pre & post & Hn & Hf & Hp)].
    + destruct (option_string_dec (field_of c x) field) as [E|E].
      * right. exists x, [], nodes. auto.
      * left. intros y [<-|Hy]; auto.
    + right. exists sconfig, (x :: pre), post. rewrite Hn. auto.
Qed.

Lemma subject_objects_of_lookup c nodes : forall d s s' d',
  subject_objects_of c nodes d s = (s', Ok d') ->
  NoDup (map fst d) ->
  NoDup (map fst d')
  /\ (forall field, (forall x, In x nodes -> field_of c x <> field) ->
                    dict_get d' field = dict_get d field)
  /\ (forall field sconfig, last_with_field c nodes field sconfig ->
        exists sub, subject_object c sconfig s = (s, Ok sub)
                    /\ dict_get d' field = Some sub).
Proof.
  induction nodes as [|x nodes IH]; intros d s s' d' H Hd; simpl in H.
  - inversion H; subst. split; [exact Hd|]. split; [reflexivity|].
    intros field sconfig (pre & post & Hn & _). destruct pre; discriminate.
  - apply bind_ok in H. destruct H as (sub & s1 & H1 & H2).
    pose proof (subject_object_reads _ _ _ _ _ H1) as <-.
    destruct (IH _ _ _ _ H2 (dict_set_NoDup _ _ sub Hd)) as (N & A & B).
    split; [exact N|]. split.
    + intros field Hnone. rewrite A by (intros y Hy; apply Hnone; now right).
      apply dict_get_set_other. apply Hnone. now left.
    + intros field sconfig (pre & post & Hn & Hf & Hp).
      destruct pre as [|y pre]; simpl in Hn; inversion Hn; subst.
      * exists sub. split; [exact H1|].
        rewrite A by exact Hp. apply dict_get_set_same.
      * apply B. exists pre, post. auto.
Qed.

(** X10. The dictionary that [import_shape] builds has one entry for each
    field: the entry of a field is the subject of the last configured
    subject element with that field, so that of two elements with the same
    field only the later one is imported. *)
Theorem subject_objects_last_wins c nodes s s' d :
  subject_objects_of c nodes [] s = (s', Ok d) ->
  NoDup (map fst d)
  /\ forall field sub,
       In (field, sub) d <->
       exists sconfig, last_with_field c nodes field sconfig
                       /\ subject_object c sconfig s = (s, Ok sub).
Proof.
  intros H.
  destruct (subject_objects_of_lookup _ _ _ _ _ _ H (NoDup_nil _)) as (N & A & B).
  split; [exact N|]. intros field sub. split.
  - intros Hin. apply (In_dict_get _ _ _ N) in Hin.
    destruct (last_with_field_dec c nodes field) as [Hnone|[sconfig Hl]].
    + rewrite (A _ Hnone) in Hin. discriminate.
    + exists sconfig. split; [exact Hl|].
      destruct (B _ _ Hl) as (sub' & Hs & Hg). congruence.
  - intros (sconfig & Hl & Hs). apply dict_get_In.
    destruct (B _ _ Hl) as (sub' & Hs' & Hg). congruence.
Qed.

Lemma subject_objects_last_wins_witness :
  NoDup (map fst [(Some "POPTOT", 0%nat)])
  /\ forall field sub,
       In (field, sub) [(Some "POPTOT", 0%nat)] <->
       exists sconfig,
         last_with_field Sample.config [0%nat; 0%nat] field sconfig
         /\ subject_object Sample.config sconfig Sample.catalog
            = (Sample.catalog, Ok sub).
Proof.
  apply (subject_objects_last_wins Sample.config [0%nat; 0%nat] Sample.catalog
           Sample.catalog).
  vm_compute. reflexivity.
Defined.

(** ** Moving an element of the configuration tree *)

Lemma remove_nat_not_in x l : ~ In x (remove_nat x l).
Proof.
  unfold remove_nat. intros H. apply filter_In in H. destruct H as [_ H].
  rewrite Nat.eqb_refl in H. discriminate.
Qed.

(** [append] moves an element, it does not copy it: when it ends normally
    the element is the last child of its new parent and is found nowhere
    else, neither under another element nor at the top; the other children
    stay in their order, no element is lost and no attribute changes.  An
    element is never put under itself. *)
Lemma append_moves f parent child f' :
  append f parent child = Ok f' ->
  parent <> child
  /\ List.length (sf_nodes f') = List.length (sf_nodes f)
  /\ (forall i, node_attrib f' i = node_attrib f i)
  /\ sf_top f' = remove_nat child (sf_top f)
  /\ ~ In child (sf_top f')
  /\ (forall p, p <> parent ->
        node_kids f' p = remove_nat child (node_kids f p)
        /\ ~ In child (node_kids f' p))
  /\ ((parent < List.length (sf_nodes f))%nat ->
      node_kids f' parent = (remove_nat child (node_kids f parent) ++ [child])%list).
Proof.
  intros H. pose proof H as H0.
  unfold append in H.
  destruct (is_ancestor_or_same _ _ _ _) eqn:Ea; [discriminate|].
  inversion H; subst; clear H.
  split.
  { intros <-. destruct (List.length (sf_nodes f)); simpl in Ea;
      rewrite Nat.eqb_refl in Ea; discriminate. }
  split; [simpl; now rewrite update_nth_length, length_map|].
  split; [intros i; eapply append_attrib; eauto|].
  split; [reflexivity|].
  split; [apply remove_nat_not_in|].
  split.
  - intros p Hp. unfold node_kids at 1 3. simpl.
    rewrite nth_update_nth, nth_removed.
    destruct (Nat.eqb_spec parent p); [congruence|]. simpl.
    split; [reflexivity | apply remove_nat_not_in].
  - intros Hlt. unfold node_kids at 1. simpl.
    rewrite nth_update_nth, nth_removed, Nat.eqb_refl, length_map.
    apply Nat.ltb_lt in Hlt. rewrite Hlt. reflexivity.
Qed.

Lemma id_is_in_range f x i :
  id_is x (node_attrib f i) = true -> (i < List.length (sf_nodes f))%nat.
Proof.
  intros H. destruct (Nat.lt_ge_cases i (List.length (sf_nodes f))) as [L|G];
    [exact L|].
  unfold node_attrib in H. rewrite nth_overflow in H by exact G. discriminate.
Qed.

(** X11. [import_geolevel] on a [LegislativeTarget] whose subject is an
    alias moves the aliased subject element under the alias: afterwards it
    is the last child of the alias and is found nowhere else in the tree
    (so an alias that had it before has lost it); attributes and the rest
    of the configuration are as before.  For a subject that is not an
    alias the tree is not touched. *)
Theorem subject_field_moves c tref c' sconfig :
  subject_field c tref = (c', Ok sconfig) ->
  match get (subject_attrib c sconfig) "aliasfor" with
  | None => c' = c
  | Some a =>
      exists salconfig,
        index0 (xpath_subject c a) = Ok salconfig
        /\ salconfig <> sconfig
        /\ node_kids (cfg_subjects c') sconfig
           = (remove_nat salconfig (node_kids (cfg_subjects c) sconfig)
              ++ [salconfig])%list
        /\ ~ In salconfig (sf_top (cfg_subjects c'))
        /\ (forall p, p <> sconfig -> ~ In salconfig (node_kids (cfg_subjects c') p))
        /\ (forall i, subject_attrib c' i = subject_attrib c i)
        /\ cfg_bodies c' = cfg_bodies c /\ cfg_targets c' = cfg_targets c
        /\ cfg_geolevels c' = cfg_geolevels c
  end.
Proof.
  unfold subject_field.
  destruct (index0 (xpath_target c _)) as [tconfig|e]; [|discriminate].
  destruct (index0 (xpath_subject c (fmt_s (get tconfig "subjectref"))))
    as [i|e] eqn:Ei; [|discriminate].
  destruct (get (subject_attrib c i) "aliasfor") as [a|] eqn:Ea.
  - destruct (index0 (xpath_subject c (fmt_s (Some a)))) as [salconfig|e] eqn:Es;
      [|discriminate].
    destruct (append (cfg_subjects c) i salconfig) as [f|e] eqn:Eapp; [|discriminate].
    intros H. inversion H; subst; clear H. rewrite Ea.
    destruct (append_moves _ _ _ _ Eapp) as (N & L & A & T & NT & K & P).
    exists salconfig. simpl in *.
    split; [exact Es|]. split; [congruence|].
    split.
    { apply P. apply filter_index0 in Ei. destruct Ei as [Hid _].
      eapply id_is_in_range; eauto. }
    split; [exact NT|]. split; [intros p Hp; now apply K|].
    split; [intros j; apply A|]. auto.
  - intros H. inversion H; subst. now rewrite Ea.
Qed.

Lemma subject_field_moves_witness :
  exists salconfig,
    index0 (xpath_subject Sample.config "poptot") = Ok salconfig
    /\ salconfig <> 1%nat
    /\ node_kids (cfg_subjects (fst (subject_field Sample.config [("ref", "t2")]))) 1
       = (remove_nat salconfig (node_kids (cfg_subjects Sample.config) 1)
          ++ [salconfig])%list
    /\ ~ In salconfig
           (sf_top (cfg_subjects (fst (subject_field Sample.config [("ref", "t2")]))))
    /\ (forall p, p <> 1%nat ->
          ~ In salconfig
              (node_kids (cfg_subjects
                            (fst (subject_field Sample.config [("ref", "t2")]))) p))
    /\ (forall i, subject_attrib (fst (subject_field Sample.config [("ref", "t2")])) i
                  = subject_attrib Sample.config i)
    /\ cfg_bodies (fst (subject_field Sample.config [("ref", "t2")]))
       = cfg_bodies Sample.config
    /\ cfg_targets (fst (subject_field Sample.config [("ref", "t2")]))
       = cfg_targets Sample.config
    /\ cfg_geolevels (fst (subject_field Sample.config [("ref", "t2")]))
       = cfg_geolevels Sample.config.
Proof.
  exact (subject_field_moves Sample.config [("ref", "t2")]
           (fst (subject_field Sample.config [("ref", "t2")])) 1 eq_refl).
Defined.

(** ** Two aliases of one subject *)

Lemma positions_none {R} (p : R -> bool) l :
  (forall row, In row l -> p row = false) -> forall n, positions p n l = [].
Proof.
  induction l as [|row l IH]; intros H n; simpl; [reflexivity|].
  rewrite (H row (or_introl eq_refl)). apply IH. intros x Hx. apply H. now right.
Qed.

(** The subject of an alias that has no child is looked up under the [id]
    of the alias, and that finds no row. *)
Lemma subject_object_unresolved c sconfig a s :
  get (subject_attrib c sconfig) "aliasfor" = Some a ->
  node_kids (cfg_subjects c) sconfig = [] ->
  no_alias_rows c s ->
  subject_object c sconfig s = (s, Raise (DoesNotExist MSubject)).
Proof.
  intros Ha Hk Hno. unfold subject_object. rewrite Hk. simpl.
  unfold bind, ret, query, objects_get.
  rewrite positions_none; [reflexivity|].
  intros row Hin. unfold subject_named.
  destruct (opt_eqb (su_name row) (get (subject_attrib c sconfig) "id")) eqn:E;
    [|reflexivity].
  apply opt_eqb_eq in E. exfalso. exact (Hno sconfig a row Ha Hin E).
Qed.

(** The subject element is under the alias [first], whose lookup therefore
    goes by the [id] of the subject.  When [import_geolevel] comes to a
    [LegislativeTarget] of another alias of that subject, [append] takes the
    element away from [first]: from then on the lookup of [first] raises. *)
Lemma second_alias_takes_the_subject c tref c' first second a a' salconfig s :
  subject_field c tref = (c', Ok second) ->
  get (subject_attrib c second) "aliasfor" = Some a ->
  index0 (xpath_subject c a) = Ok salconfig ->
  first <> second ->
  get (subject_attrib c first) "aliasfor" = Some a' ->
  node_kids (cfg_subjects c) first = [salconfig] ->
  no_alias_rows c s ->
  subject_object c first s
  = (s, objects_get MSubject
          (subject_named (get (subject_attrib c salconfig) "id")) (subjects s))
  /\ subject_object c' first s = (s, Raise (DoesNotExist MSubject)).
Proof.
  intros H Ha Hs Hne Ha' Hk Hno. split.
  - unfold subject_object. rewrite Hk. simpl. unfold bind, ret, query.
    destruct (objects_get MSubject _ (subjects s)); reflexivity.
  - unfold subject_field in H.
    destruct (index0 (xpath_target c _)) as [tconfig|e]; [|discriminate].
    destruct (index0 (xpath_subject c (fmt_s (get tconfig "subjectref"))))
      as [i|e]; [|discriminate].
    destruct (get (subject_attrib c i) "aliasfor") as [b|] eqn:Eb.
    2:{ inversion H; subst. congruence. }
    destruct (index0 (xpath_subject c (fmt_s (Some b)))) as [child|e] eqn:Ec;
      [|discriminate].
    destruct (append (cfg_subjects c) i child) as [f|e] eqn:Eapp; [|discriminate].
    inversion H; subst; clear H.
    assert (b = a) by congruence. subst b. simpl in Ec.
    assert (child = salconfig) by congruence. subst child.
    destruct (append_moves _ _ _ _ Eapp) as (_ & _ & A & _ & _ & K & _).
    destruct (K first Hne) as [Kf _].
    apply (subject_object_unresolved _ _ a').
    + unfold subject_attrib. simpl. rewrite A. exact Ha'.
    + simpl. rewrite Kf, Hk. unfold remove_nat. simpl.
      now rewrite Nat.eqb_refl.
    + intros j x row Hj Hin. unfold subject_attrib in *. simpl in *.
      rewrite A in *. eapply Hno; eauto.
Qed.

(** C7. A configuration with two aliases of the subject [poptot], both of
    them fields of the one geolevel.  The reconciliation ends normally: one
    subject row, and the three targets stored against it.  The import does
    not: the [LegislativeTarget] of the second alias takes the [Subject]
    element away from the first.  The second alias is resolved to the
    subject row through that child; the subject of the first alias is
    looked up under the [id] of the alias, not resolved, and the command
    raises [DoesNotExist] with no geounit and no characteristic stored. *)
Theorem second_alias_is_not_resolved :
  let prereq := import_prereq Sample.two_aliases empty_store in
  let fields :=
    subject_fields Sample.two_aliases [[("ref", "t2")]; [("ref", "t3")]] in
  let run := Sample.run_handle Sample.two_aliases (Some []) empty_store in
  snd prereq = Ok tt
  /\ map su_name (subjects (fst prereq)) = [Some "poptot"]
  /\ map ta_subject (targets (fst prereq)) = [0; 0; 0]%nat
  /\ snd fields = Ok [1; 2]%nat
  /\ node_kids (cfg_subjects (fst fields)) 1 = []
  /\ node_kids (cfg_subjects (fst fields)) 2 = [0%nat]
  /\ subject_object (fst fields) 2 (fst prereq) = (fst prereq, Ok 0%nat)
  /\ subject_object (fst fields) 1 (fst prereq)
     = (fst prereq, Raise (DoesNotExist MSubject))
  /\ snd run = Raise (DoesNotExist MSubject)
  /\ geounits (fst run) = [] /\ characteristics (fst run) = [].
Proof. vm_compute. repeat split. Qed.

(** ** The [--geolevel] option *)

Lemma index_in_strings l i : Forall is_string_option l -> index_in i l = false.
Proof.
  intros H. unfold index_in. induction H as [|v l [t ->] Hl IH]; simpl; auto.
Qed.

Section GeolevelOption.

Variable simplify : geometry -> result geometry.
Variable centroid : geometry -> result geometry.
Variable within : geometry -> geometry -> result bool.
Variable intersection : geometry -> geometry -> result geometry.
Variable DataSource : option string -> result (list Feature).
Variable number_storable : PyDecimal.t -> bool.
Variable geounit_storable : Geounit -> bool.
Variable iteritems : list (option string * nat) -> list (option string * nat).

Lemma import_geolevels_strings c l nodes : forall i s,
  l <> [] -> Forall is_string_option l ->
  import_geolevels simplify centroid within intersection DataSource
               number_storable geounit_storable iteritems
                   c l i nodes s = (c, (s, Ok tt)).
Proof.
  induction nodes as [|node nodes IH]; intros i s Hl Hs; simpl; [reflexivity|].
  rewrite (index_in_strings l i Hs).
  destruct l; [contradiction|]. simpl. now apply IH.
Qed.

(** X12. With the values of [--geolevel] as the command line gives them,
    strings, the test [i in optlevels] is never true: [handle] does the
    reconciliation and imports no geolevel at all, whatever the values. *)
Theorem handle_string_levels_import_nothing c l s :
  l <> [] -> Forall is_string_option l ->
  handle simplify centroid within intersection DataSource
               number_storable geounit_storable iteritems
         c (Some l) s = import_prereq c s.
Proof.
  intros Hl Hs. unfold handle.
  destruct (import_prereq c s) as [s1 [[]|e]]; [|reflexivity].
  now rewrite import_geolevels_strings.
Qed.

End GeolevelOption.

Lemma handle_string_levels_import_nothing_witness :
  Sample.run_handle Sample.config (Some [OptStr "0"; OptStr "1"]) empty_store
  = import_prereq Sample.config empty_store.
Proof.
  apply handle_string_levels_import_nothing.
  - discriminate.
  - repeat constructor; eexists; reflexivity.
Defined.

(** ** The calls of the provisioning *)

Lemma issues_refl Q l : issues Q l l.
Proof. exists []. rewrite app_nil_r. auto. Qed.

Lemma issues_trans Q a b c : issues Q a b -> issues Q b c -> issues Q a c.
Proof.
  intros (k1 & -> & F1) (k2 & -> & F2). exists (k1 ++ k2)%list.
  rewrite app_assoc. split; [reflexivity | now apply Forall_app].
Qed.

Section Calls.

Variable server : list request -> request -> response.
Variable read_file : string -> option string.
Variable Q : request -> Prop.

Lemma rest_config_issues method host url data credentials content_type :
  Q (mkRequest method host url data credentials content_type) ->
  always (issues Q) (rest_config server method host url data credentials content_type).
Proof.
  intros Hq issued issued' r H. unfold rest_config in H. inversion H; subst.
  eexists. split; [reflexivity|]. constructor; [exact Hq | constructor].
Qed.

Lemma and_then_issues call rest :
  always (issues Q) call -> always (issues Q) rest ->
  always (issues Q) (and_then call rest).
Proof.
  intros Hc Hr. unfold and_then.
  apply always_bind; [exact (issues_trans Q) | exact Hc|].
  intros [|]; [exact Hr | apply always_ret; apply issues_refl].
Qed.

Lemma lift_issues {A} (x : result A) (k : A -> P bool) :
  (forall a, always (issues Q) (k a)) -> always (issues Q) (bind (lift x) k).
Proof.
  intros Hk. apply always_bind; [exact (issues_trans Q)| |exact Hk].
  apply always_lift. apply issues_refl.
Qed.

Variables (host : option string) (namespace credentials styledir : string).
Variable e : extent.

Hypothesis Q_feature_type : forall data,
  Q (mkRequest "POST" host (featuretypes_url namespace) data credentials xml).
Hypothesis Q_style : forall data,
  Q (mkRequest "POST" host "/geoserver/rest/styles" data credentials xml).
Hypothesis Q_upload : forall name data,
  Q (mkRequest "PUT" host ("/geoserver/rest/styles/" ++ name) data credentials sld_xml).
Hypothesis Q_layer : forall name data,
  Q (mkRequest "PUT" host ("/geoserver/rest/layers/" ++ name) data credentials xml).

Lemma post_feature_type_issues name native :
  always (issues Q)
         (post_feature_type server host namespace credentials e name native).
Proof.
  unfold post_feature_type. apply lift_issues. intros data.
  apply rest_config_issues. apply Q_feature_type.
Qed.

Lemma style_layer_issues g style layer rest :
  always (issues Q) rest ->
  always (issues Q)
         (style_layer server read_file host namespace credentials styledir
                      g style layer rest).
Proof.
  intros Hr. unfold style_layer, with_style.
  destruct (get_style_contents read_file styledir g style) as [sld|];
    [|apply always_ret; apply issues_refl].
  apply and_then_issues; [apply rest_config_issues, Q_style|].
  apply and_then_issues; [apply rest_config_issues, Q_upload|].
  apply and_then_issues; [apply rest_config_issues, Q_layer | exact Hr].
Qed.

Lemma subject_layers_issues g s firstsubj :
  always (issues Q)
         (subject_layers server read_file host namespace credentials styledir e
                         g s firstsubj).
Proof.
  unfold subject_layers.
  apply and_then_issues; [apply post_feature_type_issues|].
  apply style_layer_issues.
  destruct firstsubj; [|apply always_ret; apply issues_refl].
  apply and_then_issues; [apply post_feature_type_issues|].
  apply style_layer_issues.
  apply and_then_issues; [apply post_feature_type_issues|].
  apply style_layer_issues. apply always_ret. apply issues_refl.
Qed.

Lemma subjects_layers_issues g subjs : forall firstsubj,
  always (issues Q)
         (subjects_layers server read_file host namespace credentials styledir e
                          g subjs firstsubj).
Proof.
  induction subjs as [|s subjs IH]; intros firstsubj; simpl.
  - apply always_ret. apply issues_refl.
  - apply and_then_issues; [apply subject_layers_issues | apply IH].
Qed.

Lemma geolevels_layers_issues gls subjs :
  always (issues Q)
         (geolevels_layers server read_file host namespace credentials styledir e
                           gls subjs).
Proof.
  induction gls as [|gl gls IH]; simpl.
  - apply always_ret. apply issues_refl.
  - apply and_then_issues; [apply post_feature_type_issues|].
    apply and_then_issues; [apply subjects_layers_issues | exact IH].
Qed.

End Calls.


Lemma lift_ok_always {S A B} (R : S -> S -> Prop) (a : A) (k : A -> ST S B) :
  always R (k a) -> always R (bind (lift (Ok a)) k).
Proof. intros H. exact H. Qed.

(** X13. While it runs, [configure_geoserver] only adds calls to those
    issued, and every call it adds goes to the host of the first [MapServer]
    element ([localhost] for an empty [hostname]) with its administrator's
    credentials, and is a [POST] or a [PUT] of a resource under
    [/geoserver/rest/]: whatever the server answers, nothing is fetched and
    nothing is deleted. *)
Theorem configure_geoserver_calls server read_file c e s mapconfig
    issued issued' r :
  index0 (cfg_mapserver c) = Ok mapconfig ->
  configure_geoserver server read_file c e s issued = (issued', r) ->
  issues (provisioning_call
            match get mapconfig "hostname" with
            | Some "" => Some "localhost"
            | h => h
            end
            (fmt_s (get mapconfig "adminuser") ++ ":"
             ++ fmt_s (get mapconfig "adminpass")))
         issued issued'.
Proof.
  intros Hm. revert issued issued' r.
  change (always (issues (provisioning_call
            match get mapconfig "hostname" with
            | Some "" => Some "localhost"
            | h => h
            end
            (fmt_s (get mapconfig "adminuser") ++ ":"
             ++ fmt_s (get mapconfig "adminpass"))))
          (configure_geoserver server read_file c e s)).
  unfold configure_geoserver. rewrite Hm. apply lift_ok_always.
  set (host := match get mapconfig "hostname" with
               | Some "" => Some "localhost"
               | h => h
               end).
  set (credentials := fmt_s (get mapconfig "adminuser") ++ ":"
                      ++ fmt_s (get mapconfig "adminpass")).
  assert (Hft : forall data,
    provisioning_call host credentials
      (mkRequest "POST" host (featuretypes_url (fmt_s (get mapconfig "ns")))
                 data credentials xml))
    by (intros; unfold provisioning_call, featuretypes_url; simpl; auto).
  apply and_then_issues.
  { apply rest_config_issues. unfold provisioning_call; simpl; auto. }
  apply lift_issues. intros dbconfig.
  apply and_then_issues.
  { apply rest_config_issues. unfold provisioning_call; simpl; auto. }
  apply and_then_issues; [now apply post_feature_type_issues|].
  apply and_then_issues; [now apply post_feature_type_issues|].
  apply geolevels_layers_issues; try exact Hft;
    intros; unfold provisioning_call; simpl; auto.
Qed.

Lemma configure_geoserver_calls_witness :
  issues (provisioning_call (Some "localhost") "admin:secret") []
         (fst (configure_geoserver (fun _ _ => Status 201) (fun _ => Some "<sld/>")
                 Sample.config (Some ("0.0", "0.0", "1.0", "1.0"))
                 (fst (import_prereq Sample.config empty_store)) [])).
Proof.
  refine (configure_geoserver_calls (fun _ _ => Status 201) (fun _ => Some "<sld/>")
            Sample.config (Some ("0.0", "0.0", "1.0", "1.0"))
            (fst (import_prereq Sample.config empty_store))
            Sample.mapserver [] _ _ _ _).
  - reflexivity.
  - apply surjective_pairing.
Defined.


Lemma rest_config_run server method host url data credentials content_type issued :
  exists ok,
    rest_config server method host url data credentials content_type issued
    = ((issued ++ [mkRequest method host url data credentials content_type])%list,
       Ok ok).
Proof. unfold rest_config. eexists. reflexivity. Qed.

(** X14. With no geounit in the database the bounding box of the feature
    types cannot be written: [configure_geoserver] never succeeds.  It
    raises [IndexError] for a missing [MapServer] or [Database] element,
    answers [False] when the namespace or the data store is not accepted,
    and otherwise raises [TypeError]; in every case at most the namespace
    and the data store calls were issued. *)
Theorem configure_geoserver_needs_geounits server read_file c s issued issued' r :
  configure_geoserver server read_file c None s issued = (issued', r) ->
  (r = Raise IndexError \/ r = Ok false \/ r = Raise TypeError)
  /\ (List.length issued' <= List.length issued + 2)%nat.
Proof.
  unfold configure_geoserver, and_then, bind. intros H.
  destruct (cfg_mapserver c) as [|mapconfig ?];
    cbv beta iota delta [index0 lift] in H.
  { inversion H; subst. split; [auto | lia]. }
  match type of H with context [rest_config ?a ?b ?c ?d ?e ?f ?g ?h] =>
    destruct (rest_config_run a b c d e f g h) as [ok1 E1]; rewrite E1 in H end.
  destruct ok1; [|inversion H; subst; rewrite length_app; simpl; split; [auto | lia]].
  destruct (cfg_database c) as [|dbconfig ?];
    cbv beta iota delta [index0 lift] in H.
  { inversion H; subst. rewrite length_app; simpl. split; [auto | lia]. }
  match type of H with context [rest_config ?a ?b ?c ?d ?e ?f ?g ?h] =>
    destruct (rest_config_run a b c d e f g h) as [ok2 E2]; rewrite E2 in H end.
  destruct ok2; simpl in H; inversion H; subst; rewrite !length_app; simpl;
    (split; [auto | lia]).
Qed.

Lemma configure_geoserver_needs_geounits_witness :
  configure_geoserver (fun _ _ => Status 201) (fun _ => Some "<sld/>")
    Sample.config None empty_store []
  = ([mkRequest "POST" (Some "localhost") "/geoserver/rest/namespaces"
        (xml_decl ++ "<namespace><prefix>pmp</prefix><uri>http://example.org/pmp</uri></namespace>")
        "admin:secret" xml;
      mkRequest "POST" (Some "localhost") "/geoserver/rest/workspaces/pmp/datastores"
        (xml_decl ++ "<dataStore><name>PostGIS</name><connectionParameters><host>localhost</host><port>5432</port><database>publicmapping</database><user>publicmapping</user><passwd>pw</passwd><dbtype>postgis</dbtype><namespace>http://example.org/pmp</namespace><schema>publicmapping</schema></connectionParameters></dataStore>")
        "admin:secret" xml],
     Raise TypeError)
  /\ ((Raise TypeError : result bool) = Raise IndexError
      \/ (Raise TypeError : result bool) = Ok false
      \/ (Raise TypeError : result bool) = Raise TypeError)
  /\ (2 <= 0 + 2)%nat.
Proof.
  assert (E : configure_geoserver (fun _ _ => Status 201) (fun _ => Some "<sld/>")
    Sample.config None empty_store []
  = ([mkRequest "POST" (Some "localhost") "/geoserver/rest/namespaces"
        (xml_decl ++ "<namespace><prefix>pmp</prefix><uri>http://example.org/pmp</uri></namespace>")
        "admin:secret" xml;
      mkRequest "POST" (Some "localhost") "/geoserver/rest/workspaces/pmp/datastores"
        (xml_decl ++ "<dataStore><name>PostGIS</name><connectionParameters><host>localhost</host><port>5432</port><database>publicmapping</database><user>publicmapping</user><passwd>pw</passwd><dbtype>postgis</dbtype><namespace>http://example.org/pmp</namespace><schema>publicmapping</schema></connectionParameters></dataStore>")
        "admin:secret" xml],
     Raise TypeError)) by (vm_compute; reflexivity).
  split; [exact E|].
  exact (configure_geoserver_needs_geounits _ _ _ _ _ _ _ E).
Defined.


(** ** The number of calls of a complete provisioning *)

Section Counting.

Variable server : list request -> request -> response.
Variable read_file : string -> option string.

Lemma counts_rest_config method host url data credentials content_type :
  counts 1 (rest_config server method host url data credentials content_type).
Proof.
  intros issued issued' H. unfold rest_config in H. inversion H; subst.
  now rewrite length_app.
Qed.

Lemma counts_true : counts 0 (ret true).
Proof. intros issued issued' H. inversion H; subst. lia. Qed.

Lemma counts_false n : counts n (ret false).
Proof. intros issued issued' H. inversion H. Qed.

Lemma counts_and_then a b call rest :
  counts a call -> counts b rest -> counts (a + b) (and_then call rest).
Proof.
  intros Hc Hr issued issued' H. unfold and_then, bind in H.
  destruct (call issued) as [mid [[|]|x]] eqn:E; try (inversion H; fail).
  apply Hc in E. apply Hr in H. lia.
Qed.

Lemma counts_lift {A} n (x : result A) (k : A -> P bool) :
  (forall a, counts n (k a)) -> counts n (bind (lift x) k).
Proof.
  intros Hk issued issued' H. unfold bind, lift in H.
  destruct x as [a|x]; [now apply (Hk a) | inversion H].
Qed.

Variables (host : option string) (namespace credentials styledir : string).
Variable e : extent.

Lemma counts_post_feature_type name native :
  counts 1 (post_feature_type server host namespace credentials e name native).
Proof.
  unfold post_feature_type. apply counts_lift. intros data.
  apply counts_rest_config.
Qed.

Lemma counts_style_layer n g style layer rest :
  counts n rest ->
  counts (3 + n)
         (style_layer server read_file host namespace credentials styledir
                      g style layer rest).
Proof.
  intros Hr. unfold style_layer, with_style.
  destruct (get_style_contents read_file styledir g style) as [sld|];
    [|apply counts_false].
  apply (counts_and_then 1 (2 + n)); [apply counts_rest_config|].
  apply (counts_and_then 1 (1 + n)); [apply counts_rest_config|].
  apply (counts_and_then 1 n); [apply counts_rest_config | exact Hr].
Qed.

Lemma counts_subject_layers g s (firstsubj : bool) :
  counts (4 + if firstsubj then 8 else 0)
         (subject_layers server read_file host namespace credentials styledir e
                         g s firstsubj).
Proof.
  unfold subject_layers.
  apply (counts_and_then 1 (3 + if firstsubj then 8 else 0));
    [apply counts_post_feature_type|].
  apply counts_style_layer. destruct firstsubj; [|apply counts_true].
  apply (counts_and_then 1 7); [apply counts_post_feature_type|].
  apply (counts_style_layer 4).
  apply (counts_and_then 1 3); [apply counts_post_feature_type|].
  apply (counts_style_layer 0). apply counts_true.
Qed.

Lemma counts_subjects_layers g subjs : forall firstsubj : bool,
  counts (4 * List.length subjs
          + if firstsubj then match subjs with [] => 0 | _ => 8 end else 0)
         (subjects_layers server read_file host namespace credentials styledir e
                          g subjs firstsubj).
Proof.
  induction subjs as [|s subjs IH]; intros firstsubj.
  - simpl. destruct firstsubj; apply counts_true.
  - intros issued issued' H.
    pose proof (counts_and_then _ _ _ _ (counts_subject_layers g (fmt_s (su_name s)) firstsubj)
                  (IH false) issued issued' H) as L.
    rewrite L. cbn [List.length]. destruct firstsubj; lia.
Qed.

Lemma counts_geolevels_layers gls subjs :
  counts (List.length gls
          * (1 + 4 * List.length subjs + match subjs with [] => 0 | _ => 8 end))
         (geolevels_layers server read_file host namespace credentials styledir e
                           gls subjs).
Proof.
  induction gls as [|gl gls IH].
  - apply counts_true.
  - intros issued issued' H.
    pose proof (counts_and_then _ _ _ _
                  (counts_post_feature_type ("simple_" ++ fmt_s (ge_name gl)) None)
                  (counts_and_then _ _ _ _
                     (counts_subjects_layers (fmt_s (ge_name gl)) subjs true) IH)
                  issued issued' H) as L.
    rewrite L. cbn [List.length]. lia.
Qed.

End Counting.

(** X15. A provisioning that answers [True] has issued the namespace, the
    data store and the two fixed feature types, and for each geolevel its
    feature type, four calls for each subject and, when there is a subject,
    eight more for the geolevel's own two layers: with [g] geolevels and [n]
    subjects in the database, [4 + g * (1 + 4 * n + 8)] calls, whatever the
    server. *)
Theorem configure_geoserver_call_count server read_file c e s issued issued' :
  configure_geoserver server read_file c e s issued = (issued', Ok true) ->
  List.length issued'
  = (List.length issued + calls_of (geolevels s) (subjects s))%nat.
Proof.
  revert issued issued'.
  change (counts (calls_of (geolevels s) (subjects s))
                 (configure_geoserver server read_file c e s)).
  unfold configure_geoserver, calls_of.
  apply counts_lift. intros mapconfig.
  apply (counts_and_then 1); [apply counts_rest_config|].
  apply counts_lift. intros dbconfig.
  apply (counts_and_then 1); [apply counts_rest_config|].
  apply (counts_and_then 1); [apply counts_post_feature_type|].
  apply (counts_and_then 1); [apply counts_post_feature_type|].
  apply counts_geolevels_layers.
Qed.

Lemma configure_geoserver_call_count_witness :
  List.length
    (fst (configure_geoserver (fun _ _ => Status 201) (fun _ => Some "<sld/>")
            Sample.config (Some ("0.0", "0.0", "1.0", "1.0"))
            (fst (import_prereq Sample.config empty_store)) []))
  = 30%nat.
Proof.
  refine (configure_geoserver_call_count (fun _ _ => Status 201)
            (fun _ => Some "<sld/>") Sample.config
            (Some ("0.0", "0.0", "1.0", "1.0"))
            (fst (import_prereq Sample.config empty_store)) [] _ _).
  vm_compute. reflexivity.
Defined.


(** ** The views and the layers published from them *)

Lemma for_each_ok_each {S A} (R : S -> S -> Prop) (xs : list A)
    (body : A -> ST S unit) :
  (forall a, R a a) -> (forall a b c, R a b -> R b c -> R a c) ->
  (forall x, always R (body x)) ->
  forall s s', for_each xs body s = (s', Ok tt) ->
  forall x, In x xs -> exists a b, body x a = (b, Ok tt) /\ R b s'.
Proof.
  intros Rr Rt Hb. induction xs as [|x0 xs IH]; intros s s' H x Hx; [destruct Hx|].
  simpl in H. apply bind_ok in H. destruct H as ([] & b & E & H).
  destruct Hx as [<-|Hx].
  - exists s, b. split; [exact E|].
    refine (always_for_each R Rr Rt xs body _ b s' (Ok tt) H). intros; apply Hb.
  - exact (IH b s' H x Hx).
Qed.

Lemma objects_all_In {R} (t : list R) x :
  In x t -> exists id, In (id, x) (objects_all t).
Proof.
  unfold objects_all. generalize 0%nat. induction t as [|y t IH]; intros n H;
    [destruct H|].
  destruct H as [->|H].
  - exists n. now left.
  - destruct (IH (S n) H) as [id Hid]. exists id. now right.
Qed.

Lemma has_view_prefix a b name : has_view a name -> prefix a b -> has_view b name.
Proof.
  intros [sel H] [k ->]. exists sel. apply in_or_app. now left.
Qed.

Section ViewsCommitted.

Variable executes : list string -> string -> bool.

Lemma execute_grows sql : always prefix (execute executes sql).
Proof.
  intros a b r H. unfold execute in H.
  destruct (executes a sql); inversion H; subst;
    [apply prefix_app | apply prefix_refl].
Qed.

Lemma execute_ok name select a b :
  execute executes (create_view name select) a = (b, Ok tt) -> has_view b name.
Proof.
  unfold execute. destruct (executes a _); intros H; inversion H; subst.
  exists select. apply in_or_app. right. now left.
Qed.

Lemma for_each_execute_grows {A} (xs : list A) (stmt : A -> string) :
  always prefix (for_each xs (fun x => execute executes (stmt x))).
Proof.
  apply always_for_each; [exact prefix_refl | exact prefix_trans|].
  intros x _. apply execute_grows.
Qed.

Lemma create_views_committed s committed committed' :
  create_views executes s committed = (committed', Ok tt) ->
  has_view committed' "simple_district"
  /\ has_view committed' "identify_geounit"
  /\ forall gl, In gl (geolevels s) ->
       has_view committed' ("simple_" ++ fmt_s (ge_name gl))
       /\ forall su, In su (subjects s) ->
            has_view committed'
              ("demo_" ++ fmt_s (ge_name gl) ++ "_" ++ fmt_s (su_name su)).
Proof.
  unfold create_views. intros H.
  apply bind_ok in H. destruct H as ([] & c1 & E1 & H).
  apply bind_ok in H. destruct H as ([] & c2 & E2 & H).
  assert (G2 : always prefix (execute executes (create_view "identify_geounit"
    "SELECT rg.id, rg.name, rg.geolevel_id, rg.geom, rc.number, rc.percentage, rc.subject_id FROM redistricting_geounit rg JOIN redistricting_characteristic rc ON rg.id = rc.geounit_id;")))
    by apply execute_grows.
  match type of H with for_each ?xs ?body _ = _ =>
    assert (Gb : forall x, always prefix (body x));
    [ intros x; apply always_bind;
      [ exact prefix_trans | apply execute_grows
      | intros _; apply for_each_execute_grows ]
    | pose proof (always_for_each prefix prefix_refl prefix_trans xs body
                    (fun x _ => Gb x) c2 committed' (Ok tt) H) as G3;
      pose proof (for_each_ok_each prefix xs body prefix_refl prefix_trans Gb
                    c2 committed' H) as Each ]
  end.
  split; [|split].
  - apply execute_ok in E1.
    eapply has_view_prefix; [exact E1|].
    eapply prefix_trans; [exact (G2 _ _ _ E2) | exact G3].
  - apply execute_ok in E2. eapply has_view_prefix; [exact E2 | exact G3].
  - intros gl Hgl. destruct (objects_all_In _ _ Hgl) as [gid Hin].
    destruct (Each _ Hin) as (a & b & Eb & Hb). cbn [fst snd] in Eb.
    apply bind_ok in Eb. destruct Eb as ([] & m & Eg & Es).
    split.
    + apply execute_ok in Eg. eapply has_view_prefix; [exact Eg|].
      eapply prefix_trans; [|exact Hb].
      exact (for_each_execute_grows _ _ _ _ _ Es).
    + intros su Hsu. destruct (objects_all_In _ _ Hsu) as [sid Hsin].
      destruct (for_each_ok_each prefix _ _ prefix_refl prefix_trans
                  (fun x => execute_grows _) _ _ Es _ Hsin)
        as (a' & b' & Eb' & Hb').
      cbn [fst snd] in Eb'. apply execute_ok in Eb'.
      eapply has_view_prefix; [exact Eb'|].
      eapply prefix_trans; [exact Hb' | exact Hb].
Qed.

End ViewsCommitted.


Lemma string_app_inv_l (a b c : string) : a ++ b = a ++ c -> b = c.
Proof.
  induction a as [|ch a IH]; simpl; intros H; [exact H|].
  injection H as H. now apply IH.
Qed.

Lemma datastores_not_featuretypes namespace :
  "/geoserver/rest/workspaces/" ++ namespace ++ "/datastores"
  <> featuretypes_url namespace.
Proof.
  unfold featuretypes_url. intros H.
  apply string_app_inv_l, string_app_inv_l in H. discriminate H.
Qed.

Ltac not_featuretypes :=
  intros; intros Hurl; exfalso; unfold featuretypes_url in Hurl;
  simpl in Hurl; discriminate Hurl.

Section Backed.

Variable server : list request -> request -> response.
Variable read_file : string -> option string.
Variables (host : option string) (namespace credentials styledir : string).
Variable e : extent.
Variable committed : list string.

Local Abbreviation Q := (backed namespace e committed).

Lemma post_feature_type_backed name native :
  has_view committed (native_name name native) ->
  always (issues Q)
         (post_feature_type server host namespace credentials e name native).
Proof.
  intros Hv. unfold post_feature_type.
  destruct (feature_type name native e) as [data|x] eqn:E.
  - apply lift_ok_always. apply rest_config_issues.
    intros _. exists name, native. simpl. auto.
  - intros a b r H. unfold bind, lift in H. inversion H; subst. apply issues_refl.
Qed.

Lemma style_layer_backed g style layer rest :
  always (issues Q) rest ->
  always (issues Q)
         (style_layer server read_file host namespace credentials styledir
                      g style layer rest).
Proof.
  intros Hr. apply style_layer_issues; [not_featuretypes .. | exact Hr].
Qed.

Lemma subject_layers_backed g s firstsubj :
  has_view committed ("demo_" ++ g ++ "_" ++ s) ->
  always (issues Q)
         (subject_layers server read_file host namespace credentials styledir e
                         g s firstsubj).
Proof.
  intros Hv. unfold subject_layers.
  apply and_then_issues; [now apply post_feature_type_backed|].
  apply style_layer_backed.
  destruct firstsubj; [|apply always_ret; apply issues_refl].
  apply and_then_issues; [now apply post_feature_type_backed|].
  apply style_layer_backed.
  apply and_then_issues; [now apply post_feature_type_backed|].
  apply style_layer_backed. apply always_ret. apply issues_refl.
Qed.

Lemma subjects_layers_backed g subjs : forall firstsubj,
  (forall su, In su subjs ->
     has_view committed ("demo_" ++ g ++ "_" ++ fmt_s (su_name su))) ->
  always (issues Q)
         (subjects_layers server read_file host namespace credentials styledir e
                          g subjs firstsubj).
Proof.
  induction subjs as [|s subjs IH]; intros firstsubj Hv; simpl.
  - apply always_ret. apply issues_refl.
  - apply and_then_issues.
    + apply subject_layers_backed. apply Hv. now left.
    + apply IH. intros su Hsu. apply Hv. now right.
Qed.

Lemma geolevels_layers_backed gls subjs :
  (forall gl, In gl gls ->
     has_view committed ("simple_" ++ fmt_s (ge_name gl))
     /\ forall su, In su subjs ->
          has_view committed
            ("demo_" ++ fmt_s (ge_name gl) ++ "_" ++ fmt_s (su_name su))) ->
  always (issues Q)
         (geolevels_layers server read_file host namespace credentials styledir e
                           gls subjs).
Proof.
  induction gls as [|gl gls IH]; intros Hv; simpl.
  - apply always_ret. apply issues_refl.
  - destruct (Hv gl (or_introl eq_refl)) as [Hs Hd].
    apply and_then_issues; [now apply post_feature_type_backed|].
    apply and_then_issues; [now apply subjects_layers_backed|].
    apply IH. intros g Hg. apply Hv. now right.
Qed.

End Backed.

(** X16. Once [create_views] has run to its end on the tables that
    [configure_geoserver] reads, every feature type the provisioning posts to
    the data store is published from a view that was committed: the table it
    names, its [nativeName] or else its own name, is one of the views
    created. *)
Theorem feature_types_have_views executes server read_file c e s mapconfig
    committed committed' issued issued' r :
  create_views executes s committed = (committed', Ok tt) ->
  index0 (cfg_mapserver c) = Ok mapconfig ->
  configure_geoserver server read_file c e s issued = (issued', r) ->
  issues (backed (fmt_s (get mapconfig "ns")) e committed') issued issued'.
Proof.
  intros Hv Hm. apply create_views_committed in Hv.
  destruct Hv as (Hsd & Hig & Hgl).
  revert issued issued' r.
  change (always (issues (backed (fmt_s (get mapconfig "ns")) e committed'))
                 (configure_geoserver server read_file c e s)).
  unfold configure_geoserver. rewrite Hm. apply lift_ok_always.
  apply and_then_issues; [apply rest_config_issues; not_featuretypes|].
  apply lift_issues. intros dbconfig.
  apply and_then_issues.
  { apply rest_config_issues. intros Hurl. exfalso.
    exact (datastores_not_featuretypes _ Hurl). }
  apply and_then_issues; [now apply post_feature_type_backed|].
  apply and_then_issues; [now apply post_feature_type_backed|].
  now apply geolevels_layers_backed.
Qed.

Lemma feature_types_have_views_witness :
  issues (backed "pmp" (Some ("0.0", "0.0", "1.0", "1.0"))
            (fst (create_views (fun _ _ => true)
                    (fst (import_prereq Sample.config empty_store)) [])))
         []
         (fst (configure_geoserver (fun _ _ => Status 201) (fun _ => Some "<sld/>")
                 Sample.config (Some ("0.0", "0.0", "1.0", "1.0"))
                 (fst (import_prereq Sample.config empty_store)) [])).
Proof.
  refine (feature_types_have_views (fun _ _ => true) (fun _ _ => Status 201)
            (fun _ => Some "<sld/>") Sample.config
            (Some ("0.0", "0.0", "1.0", "1.0"))
            (fst (import_prereq Sample.config empty_store))
            Sample.mapserver [] _ [] _ _ _ _ _).
  - vm_compute. reflexivity.
  - reflexivity.
  - apply surjective_pairing.
Defined.
